(** * mmx: forwarders, simulcast aggregation, transcoding outputs and the
    browser-side adaptive player, embedded from the sources.

  Every module below transcribes one source file (named in its header) into
  executable definitions and then states the properties of that code. *)

From stdpp Require Import gmap strings list fin_maps pretty.
From Stdlib Require Import ZArith Lia String Ascii Bool Floats.

Local Open Scope Z_scope.

(* ===================================================================== *)
(** ** internal/staticsources/transcoder/source.go : ParseTranscoderSource *)
(* ===================================================================== *)

Module TranscoderSource.

(** Go strings are byte sequences; [string] is a list of 8-bit [ascii]. *)

(** [s[n:]] for [0 <= n <= len(s)]. *)
Fixpoint slice_from (n : nat) (s : string) : string :=
  match n, s with
  | O, _ => s
  | S n', String _ s' => slice_from n' s'
  | S _, EmptyString => EmptyString
  end.

(** [s[:n]] for [0 <= n <= len(s)]. *)
Fixpoint slice_to (n : nat) (s : string) : string :=
  match n, s with
  | O, _ => EmptyString
  | S n', String a s' => String a (slice_to n' s')
  | S _, EmptyString => EmptyString
  end.

(** [strings.HasPrefix(s, p)]. *)
Fixpoint HasPrefix (s p : string) {struct p} : bool :=
  match p, s with
  | EmptyString, _ => true
  | String b p', String a s' => Ascii.eqb a b && HasPrefix s' p'
  | String _ _, EmptyString => false
  end.

(** [strings.LastIndexByte(s, c)]: index of the last [c] in [s], or [-1]. *)
Fixpoint LastIndexByte (s : string) (c : ascii) : Z :=
  match s with
  | EmptyString => -1
  | String a s' =>
      let r := LastIndexByte s' c in
      if 0 <=? r then r + 1
      else if Ascii.eqb a c then 0 else -1
  end.

Definition prefix : string := "transcoder:".
Definition colon : ascii := ":"%char.

(** The three results [(inputPath, outputPath, ok)] of the Go function. *)
Definition ParseTranscoderSource (source : string) : string * string * bool :=
  if negb (HasPrefix source prefix) then (EmptyString, EmptyString, false)
  else
    let remaining := slice_from (String.length prefix) source in
    let colonIndex := LastIndexByte remaining colon in
    if colonIndex =? -1 then (EmptyString, EmptyString, false)
    else
      (slice_to (Z.to_nat colonIndex) remaining,
       slice_from (Z.to_nat (colonIndex + 1)) remaining,
       true).

(** [c] occurs somewhere in [s]. *)
Fixpoint contains_byte (s : string) (c : ascii) : Prop :=
  match s with
  | EmptyString => False
  | String a s' => a = c \/ contains_byte s' c
  end.

Example parse_simple :
  ParseTranscoderSource "transcoder:live/in:live/in-480p"
  = ("live/in"%string, "live/in-480p"%string, true).
Proof. reflexivity. Qed.

Example parse_last_colon :
  ParseTranscoderSource "transcoder:a:b:c" = ("a:b"%string, "c"%string, true).
Proof. reflexivity. Qed.

Example parse_no_colon :
  ParseTranscoderSource "transcoder:abc" = (EmptyString, EmptyString, false).
Proof. reflexivity. Qed.

Lemma LastIndexByte_range s c :
  LastIndexByte s c = -1 \/ 0 <= LastIndexByte s c < Z.of_nat (String.length s).
Proof.
  induction s as [|a s IH]; cbn [LastIndexByte String.length]; [now left|].
  destruct (Z.leb_spec 0 (LastIndexByte s c)) as [Hge|Hlt].
  - right. lia.
  - destruct (Ascii.eqb a c); [right; lia | now left].
Qed.

Lemma LastIndexByte_found s c :
  0 <= LastIndexByte s c <-> contains_byte s c.
Proof.
  induction s as [|a s IH]; cbn [LastIndexByte contains_byte]; [lia|].
  pose proof (LastIndexByte_range s c) as Hr.
  destruct (Z.leb_spec 0 (LastIndexByte s c)) as [Hge|Hlt].
  - split; [intros _; right; now apply IH | lia].
  - destruct (Ascii.eqb_spec a c) as [->|Hne].
    + split; [now left | lia].
    + split; [lia|]. intros [Heq|Hc]; [congruence|]. apply IH in Hc. lia.
Qed.

Lemma LastIndexByte_none s c :
  LastIndexByte s c = -1 <-> ~ contains_byte s c.
Proof.
  rewrite <- LastIndexByte_found.
  pose proof (LastIndexByte_range s c). lia.
Qed.

Lemma append_nil (t : string) : EmptyString +:+ t = t.
Proof. reflexivity. Qed.

Lemma append_cons a (s t : string) : String a s +:+ t = String a (s +:+ t).
Proof. reflexivity. Qed.

Lemma append_assoc_sep (inp : string) c (out : string) :
  (inp +:+ String c EmptyString) +:+ out = inp +:+ String c out.
Proof.
  induction inp as [|a inp IH]; [reflexivity|].
  rewrite !append_cons. now f_equal.
Qed.

Lemma length_append_sep (inp : string) c :
  String.length (inp +:+ String c EmptyString) = S (String.length inp).
Proof.
  induction inp as [|a inp IH]; [reflexivity|].
  rewrite append_cons. simpl String.length. now f_equal.
Qed.

(** With no [c] after position [length inp], the last [c] of
    [inp ++ c :: out] is the separator itself. *)
Lemma LastIndexByte_sep inp out c :
  ~ contains_byte out c ->
  LastIndexByte (inp +:+ String c out) c = Z.of_nat (String.length inp).
Proof.
  intros Hno. apply LastIndexByte_none in Hno.
  induction inp as [|a inp IH].
  - rewrite append_nil. simpl. rewrite Hno. simpl. now rewrite Ascii.eqb_refl.
  - rewrite append_cons. simpl. rewrite IH.
    destruct (Z.leb_spec 0 (Z.of_nat (String.length inp))); lia.
Qed.

Lemma slice_to_app inp rest :
  slice_to (String.length inp) (inp +:+ rest) = inp.
Proof.
  induction inp as [|a inp IH]; [reflexivity|].
  rewrite append_cons. simpl. now f_equal.
Qed.

Lemma slice_from_app inp rest :
  slice_from (String.length inp) (inp +:+ rest) = rest.
Proof.
  induction inp as [|a inp IH]; [reflexivity|].
  rewrite append_cons. simpl. exact IH.
Qed.

Lemma HasPrefix_app p rest : HasPrefix (p +:+ rest) p = true.
Proof.
  induction p as [|a p IH]; [reflexivity|].
  rewrite append_cons. simpl. now rewrite Ascii.eqb_refl.
Qed.

Lemma slice_to_from n : forall s, slice_to n s +:+ slice_from n s = s.
Proof.
  induction n as [|n IH]; intros s; [reflexivity|].
  destruct s as [|a s]; [reflexivity|].
  simpl. rewrite append_cons. now rewrite IH.
Qed.

Lemma HasPrefix_split p : forall s,
  HasPrefix s p = true -> s = p +:+ slice_from (String.length p) s.
Proof.
  induction p as [|b p IH]; intros s; [reflexivity|].
  destruct s as [|a s]; [discriminate|]. simpl.
  intros H. apply andb_true_iff in H as [Hab Hp].
  apply Ascii.eqb_eq in Hab as ->. rewrite append_cons. f_equal. now apply IH.
Qed.

(** At the index found by LastIndexByte stands the byte, and it does not
    occur after it. *)
Lemma LastIndexByte_split c : forall s,
  0 <= LastIndexByte s c ->
  slice_from (Z.to_nat (LastIndexByte s c)) s
  = String c (slice_from (Z.to_nat (LastIndexByte s c + 1)) s)
  /\ ~ contains_byte (slice_from (Z.to_nat (LastIndexByte s c + 1)) s) c.
Proof.
  induction s as [|a s IH]; cbn [LastIndexByte]; [lia|].
  destruct (Z.leb_spec 0 (LastIndexByte s c)) as [Hge|Hlt].
  - intros _. destruct (IH Hge) as [H1 H2].
    replace (Z.to_nat (LastIndexByte s c + 1)) with (S (Z.to_nat (LastIndexByte s c)))
      by lia.
    replace (Z.to_nat (LastIndexByte s c + 1 + 1))
      with (S (Z.to_nat (LastIndexByte s c + 1))) by lia.
    simpl. auto.
  - destruct (Ascii.eqb_spec a c) as [->|Hne]; [|lia].
    intros _. simpl. split; [reflexivity|].
    apply LastIndexByte_none. pose proof (LastIndexByte_range s c). lia.
Qed.

Lemma ParseTranscoderSource_inverse source inp out :
  ParseTranscoderSource source = (inp, out, true) ->
  source = prefix +:+ inp +:+ String colon out /\ ~ contains_byte out colon.
Proof.
  unfold ParseTranscoderSource.
  destruct (HasPrefix source prefix) eqn:Hp; cbn [negb]; [|discriminate].
  set (remaining := slice_from (String.length prefix) source).
  destruct (Z.eqb_spec (LastIndexByte remaining colon) (-1)) as [E|E]; [discriminate|].
  intros [= <- <-].
  pose proof (LastIndexByte_range remaining colon) as Hr.
  destruct (LastIndexByte_split colon remaining ltac:(lia)) as [H1 H2].
  split; [|exact H2].
  rewrite (HasPrefix_split _ _ Hp) at 1. fold remaining. f_equal.
  rewrite <- H1. symmetry. apply slice_to_from.
Qed.

Lemma contains_byte_sep inp out c : contains_byte (inp +:+ String c out) c.
Proof.
  induction inp as [|a inp IH]; [now left|].
  rewrite append_cons. right. exact IH.
Qed.

Lemma append_inj_prefix (p a b : string) : p +:+ a = p +:+ b -> a = b.
Proof.
  induction p as [|x p IH]; [auto|].
  rewrite !append_cons. intros [= H]. auto.
Qed.

(** C9. ParseTranscoderSource splits at the last colon: for every input path
    and every output path without a colon,
    ParseTranscoderSource("transcoder:" + inputPath + ":" + outputPath)
    is (inputPath, outputPath, true); and ok is false exactly for the strings
    that do not start with "transcoder:" (that are not "transcoder:" followed
    by some rest) or have no colon after that prefix.  Put the other way
    round, ok is true exactly for the strings of the form
    "transcoder:" + inputPath + ":" + outputPath. *)
Theorem ParseTranscoderSource_spec :
  (forall inputPath outputPath : string,
      ~ contains_byte outputPath colon ->
      ParseTranscoderSource (prefix +:+ inputPath +:+ String colon outputPath)
      = (inputPath, outputPath, true))
  /\ (forall source : string,
        snd (ParseTranscoderSource source) = false <->
        ((forall rest : string, source <> prefix +:+ rest) \/
         (exists rest : string,
             source = prefix +:+ rest /\ ~ contains_byte rest colon)))
  /\ (forall source : string,
        snd (ParseTranscoderSource source) = true <->
        exists inputPath outputPath : string,
          source = prefix +:+ inputPath +:+ String colon outputPath).
Proof.
  assert (forall inp out : string,
      ~ contains_byte out colon ->
      ParseTranscoderSource (prefix +:+ inp +:+ String colon out) = (inp, out, true))
    as Hfirst.
  { (* the prefix is found and dropped, the separator is the last colon *)
    intros inp out Hno. unfold ParseTranscoderSource.
    rewrite HasPrefix_app. cbn [negb].
    rewrite slice_from_app, (LastIndexByte_sep _ _ _ Hno).
    destruct (Z.eqb_spec (Z.of_nat (String.length inp)) (-1)) as [E|_]; [lia|].
    rewrite Nat2Z.id, slice_to_app.
    replace (Z.to_nat (Z.of_nat (String.length inp) + 1))
      with (String.length (inp +:+ String colon EmptyString))
      by (rewrite length_append_sep; lia).
    rewrite <- (append_assoc_sep inp colon out). now rewrite slice_from_app. }
  assert (forall rest : string,
      snd (ParseTranscoderSource (prefix +:+ rest)) = false
      <-> ~ contains_byte rest colon) as Hrest.
  { intros rest. unfold ParseTranscoderSource.
    rewrite HasPrefix_app. cbn [negb]. rewrite slice_from_app.
    pose proof (LastIndexByte_none rest colon) as Hn.
    destruct (Z.eqb_spec (LastIndexByte rest colon) (-1)) as [E|E]; cbn [snd].
    - split; [intros _; now apply Hn | reflexivity].
    - split; [discriminate|]. intros H. apply Hn in H. contradiction. }
  split; [exact Hfirst|]. split.
  - intros source. destruct (HasPrefix source prefix) eqn:Hp.
    + (* the string is the prefix followed by some rest *)
      pose proof (HasPrefix_split _ _ Hp) as Hs.
      set (rest := slice_from (String.length prefix) source) in *.
      rewrite Hs at 1. rewrite Hrest. split.
      * intros Hno. right. exists rest. split; [exact Hs | exact Hno].
      * intros [Hall|(rest' & Hs' & Hno)]; [now contradiction (Hall rest)|].
        replace rest with rest'; [exact Hno|].
        apply (append_inj_prefix prefix). congruence.
    + (* it is not: no rest fits *)
      split.
      * intros _. left. intros rest ->. rewrite HasPrefix_app in Hp. discriminate.
      * intros _. unfold ParseTranscoderSource. now rewrite Hp.
  - intros source. split.
    + intros Hok.
      destruct (ParseTranscoderSource source) as [[inp out] ok] eqn:E.
      cbn [snd] in Hok. subst ok.
      destruct (ParseTranscoderSource_inverse _ _ _ E) as [Hs _].
      exists inp, out. exact Hs.
    + intros (inp & out & ->).
      destruct (snd (ParseTranscoderSource (prefix +:+ inp +:+ String colon out)))
        eqn:E; [reflexivity|].
      apply Hrest in E. contradiction E. apply contains_byte_sep.
Qed.

Lemma ParseTranscoderSource_spec_witness :
  ~ contains_byte "live/in-480p" colon /\
  ParseTranscoderSource "transcoder:live/in:live/in-480p"
  = ("live/in"%string, "live/in-480p"%string, true).
Proof.
  assert (~ contains_byte "live/in-480p" colon) as Hno
    by (simpl; unfold colon; intuition discriminate).
  split; [exact Hno|].
  exact (proj1 ParseTranscoderSource_spec "live/in"%string "live/in-480p"%string Hno).
Defined.

End TranscoderSource.

(* ===================================================================== *)
(** ** internal/forwarder : the SRT and WHIP forwarders                   *)
(* ===================================================================== *)

Module Forwarder.

(** Each forwarder is a record of its fields together with the position of
    its supervisor goroutine ([run], which loops over [runInner]).  A step of
    the model is one atomic action of the code: a statement group under the
    mutex, a call into the stream, or the return of a blocking operation
    whose result the environment chooses.  Start and Stop calls on one
    forwarder are taken not to overlap each other: the wait of Stop and its
    locked block form one step, enabled once the supervisor has exited. *)

(** Go's [int] (64 bits, two's complement) and [uint64], as [Z] with the
    wrap-around written out. *)
Definition wrap_int (z : Z) : Z := (z + 2 ^ 63) mod 2 ^ 64 - 2 ^ 63.
Definition wrap_uint64 (z : Z) : Z := z mod 2 ^ 64.
Definition int_range (z : Z) : Prop := - 2 ^ 63 <= z < 2 ^ 63.

(** Go's [-], [/] and [*] on [int]: [/] truncates toward zero ([Z.quot]). *)
Definition int_sub (a b : Z) : Z := wrap_int (a - b).
Definition int_div (a b : Z) : Z := wrap_int (Z.quot a b).
Definition int_mul (a b : Z) : Z := wrap_int (a * b).

(** One constructor per error site of the two forwarders. *)
Inductive error : Type :=
| ErrAlreadyStarted   (* "forwarder already started" *)
| ErrInvalidURL       (* "invalid SRT URL" / "invalid WebRTC URL ..." *)
| ErrInvalidConfig    (* "invalid SRT config" *)
| ErrConnect          (* "failed to connect" *)
| ErrSetup            (* "failed to setup MPEG-TS writer" / "... WebRTC tracks" *)
| ErrInitialize       (* "failed to initialize WHIP client" *)
| ErrTransport.       (* the error read from the reader or from whipClient.Wait *)

(** What the environment decides at a step of the supervisor goroutine:
    the pending operation fails with an error, succeeds, or the select
    takes the [ctx.Done()] branch. *)
Inductive outcome : Type :=
| Fail (e : error)
| Ok
| CtxDone.

(** The reader set of the source streams: pairs (stream, reader). *)
Definition AddReader (strm r : nat) (rs : list (nat * nat)) : list (nat * nat) :=
  (strm, r) :: rs.

Definition RemoveReader (strm r : nat) (rs : list (nat * nat)) : list (nat * nat) :=
  filter (fun p => p ≠ (strm, r)) rs.

(* --------------------------------------------------------------------- *)
(** *** srtForwarder *)

Module Srt.

Record srtForwarder : Type := mk {
  Reconnect : bool;               (* config.Reconnect *)
  udpMaxPayloadSize : Z;
  stream : option nat;            (* *stream.Stream, None = nil *)
  reader : option nat;            (* *stream.Reader *)
  sconn : option nat;             (* srt.Conn *)
  lastError : option error;
  connected : bool;
  reconnectCount : Z;
  ctxDone : bool                  (* f.ctx has been cancelled *)
}.

Definition newSRTForwarder (reconnect : bool) (udp : Z) : srtForwarder :=
  mk reconnect udp None None None None false 0 false.

Definition set_stream (v : option nat) (f : srtForwarder) : srtForwarder :=
  mk (Reconnect f) (udpMaxPayloadSize f) v (reader f) (sconn f)
     (lastError f) (connected f) (reconnectCount f) (ctxDone f).
Definition set_reader (v : option nat) (f : srtForwarder) : srtForwarder :=
  mk (Reconnect f) (udpMaxPayloadSize f) (stream f) v (sconn f)
     (lastError f) (connected f) (reconnectCount f) (ctxDone f).
Definition set_sconn (v : option nat) (f : srtForwarder) : srtForwarder :=
  mk (Reconnect f) (udpMaxPayloadSize f) (stream f) (reader f) v
     (lastError f) (connected f) (reconnectCount f) (ctxDone f).
Definition set_lastError (v : option error) (f : srtForwarder) : srtForwarder :=
  mk (Reconnect f) (udpMaxPayloadSize f) (stream f) (reader f) (sconn f)
     v (connected f) (reconnectCount f) (ctxDone f).
Definition set_connected (v : bool) (f : srtForwarder) : srtForwarder :=
  mk (Reconnect f) (udpMaxPayloadSize f) (stream f) (reader f) (sconn f)
     (lastError f) v (reconnectCount f) (ctxDone f).
Definition set_reconnectCount (v : Z) (f : srtForwarder) : srtForwarder :=
  mk (Reconnect f) (udpMaxPayloadSize f) (stream f) (reader f) (sconn f)
     (lastError f) (connected f) v (ctxDone f).
Definition set_ctxDone (v : bool) (f : srtForwarder) : srtForwarder :=
  mk (Reconnect f) (udpMaxPayloadSize f) (stream f) (reader f) (sconn f)
     (lastError f) (connected f) (reconnectCount f) v.

(** [Start]: the returned error ([None] = nil) and the new fields.  When the
    result is nil the caller of this function spawns [run] (see [exec]). *)
Definition Start (f : srtForwarder) (strm : option nat) : srtForwarder * option error :=
  match stream f with
  | Some _ => (f, Some ErrAlreadyStarted)
  | None => (set_stream strm f, None)
  end.

Definition IsRunning (f : srtForwarder) : bool :=
  match stream f with Some _ => true | None => false end.

(** [((f.udpMaxPayloadSize - 16) / 188) * 188] on Go's [int]. *)
Definition srtMaxPayloadSize (f : srtForwarder) : Z :=
  int_mul (int_div (int_sub (udpMaxPayloadSize f) 16) 188) 188.

(** Where the supervisor goroutine [run] stands. *)
Inductive pc : Type :=
| Exited                              (* no goroutine: the WaitGroup is at 0 *)
| LoopHead                            (* the select at the top of the loop *)
| Dialed                              (* runInner: sconn stored, connected *)
| Attached (strm r : nat)             (* reader added, blocked in the select;
                                         the deferred RemoveReader holds
                                         the stream and the reader *)
| Closing (res : option error)        (* RemoveReader ran, the closer is next *)
| Returned (res : option error).      (* runInner returned res *)

Record sys : Type := mkSys {
  fw : srtForwarder;
  run : pc;
  readers : list (nat * nat);
  stopping : bool;       (* a Stop call has cancelled and waits in wg.Wait *)
  fresh : nat            (* next unused handle *)
}.

Definition init (reconnect : bool) (udp : Z) : sys :=
  mkSys (newSRTForwarder reconnect udp) Exited [] false 0.

Inductive event : Type :=
| EvStart (strm : nat)      (* Start(strm) with a non-nil stream *)
| EvStopCancel              (* Stop: f.ctxCancel(), then wg.Wait() *)
| EvStopFinish              (* Stop: wg.Wait() returned, the locked block *)
| EvRun (o : outcome).      (* one step of run / runInner *)

(** The deferred closer of runInner. *)
Definition closer (f : srtForwarder) : srtForwarder :=
  set_connected false (set_sconn None f).

(** One step of the supervisor goroutine. *)
Definition run_step (o : outcome) (s : sys) : option sys :=
  let f := fw s in
  match run s with
  | Exited => None
  | LoopHead =>
      if ctxDone f then Some (mkSys f Exited (readers s) (stopping s) (fresh s))
      else match o with
           | Fail e =>          (* the URL, the config or the dial fails *)
               Some (mkSys f (Returned (Some e)) (readers s) (stopping s) (fresh s))
           | Ok =>              (* srt.Dial succeeds *)
               Some (mkSys (set_connected true (set_sconn (Some (fresh s)) f))
                           Dialed (readers s) (stopping s) (S (fresh s)))
           | CtxDone => None
           end
  | Dialed =>
      let f1 := set_reader (Some (fresh s)) f in
      match o, stream f with
      | Fail e, _ =>            (* mpegts.FromStream fails: the closer runs *)
          Some (mkSys (closer f1) (Returned (Some e)) (readers s) (stopping s) (S (fresh s)))
      | Ok, Some strm =>
          Some (mkSys f1 (Attached strm (fresh s))
                      (AddReader strm (fresh s) (readers s))
                      (stopping s) (S (fresh s)))
      | Ok, None => None        (* f.stream.Desc on a nil stream: panic *)
      | CtxDone, _ => None
      end
  | Attached strm r =>
      match o with
      | Fail e =>
          Some (mkSys f (Closing (Some e)) (RemoveReader strm r (readers s))
                      (stopping s) (fresh s))
      | CtxDone =>
          if ctxDone f
          then Some (mkSys f (Closing None) (RemoveReader strm r (readers s))
                           (stopping s) (fresh s))
          else None
      | Ok => None
      end
  | Closing res =>
      Some (mkSys (closer f) (Returned res) (readers s) (stopping s) (fresh s))
  | Returned None =>
      Some (mkSys f LoopHead (readers s) (stopping s) (fresh s))
  | Returned (Some e) =>
      let f1 := set_connected false (set_lastError (Some e) f) in
      if Reconnect f
      then Some (mkSys (set_reconnectCount (wrap_uint64 (reconnectCount f + 1)) f1)
                       LoopHead (readers s) (stopping s) (fresh s))
      else Some (mkSys f1 Exited (readers s) (stopping s) (fresh s))
  end.

(** The locked block at the end of Stop. *)
Definition stop_cleanup (f : srtForwarder) : srtForwarder :=
  set_sconn None (set_reader None (set_stream None f)).

Definition exec (ev : event) (s : sys) : option sys :=
  match ev with
  | EvStart strm =>
      match Start (fw s) (Some strm) with
      | (f', None) => Some (mkSys f' LoopHead (readers s) (stopping s) (fresh s))
      | (_, Some _) => Some s
      end
  | EvStopCancel =>
      Some (mkSys (set_ctxDone true (fw s)) (run s) (readers s) true (fresh s))
  | EvStopFinish =>
      match stopping s, run s with
      | true, Exited =>
          Some (mkSys (stop_cleanup (fw s)) Exited (readers s) false (fresh s))
      | _, _ => None
      end
  | EvRun o => run_step o s
  end.

Fixpoint execs (evs : list event) (s : sys) : option sys :=
  match evs with
  | [] => Some s
  | ev :: evs' => match exec ev s with Some s' => execs evs' s' | None => None end
  end.

Definition reachable (s : sys) : Prop :=
  exists reconnect udp evs, execs evs (init reconnect udp) = Some s.

(** The forwarder's own reader is in the reader set of its stream. *)
Definition reader_attached (s : sys) : Prop :=
  exists strm r, stream (fw s) = Some strm /\ reader (fw s) = Some r
                 /\ In (strm, r) (readers s).

(** The lifecycle invariant of the specification, read on [IsRunning]. *)
Definition running_invariant (s : sys) : Prop :=
  IsRunning (fw s) = true -> sconn (fw s) <> None /\ reader_attached s.

(** What the supervisor's position says about the fields. *)
Definition consistent (s : sys) : Prop :=
  match run s with
  | Attached strm r =>
      stream (fw s) = Some strm /\ reader (fw s) = Some r
      /\ sconn (fw s) <> None /\ In (strm, r) (readers s)
  | Dialed => sconn (fw s) <> None /\ stream (fw s) <> None
  | Exited => True
  | _ => stream (fw s) <> None
  end.

End Srt.

(* --------------------------------------------------------------------- *)
(** *** webrtcForwarder *)

Module Whip.

Record webrtcForwarder : Type := mk {
  Reconnect : bool;               (* config.Reconnect *)
  stream : option nat;
  reader : option nat;
  whipClient : option nat;        (* *whip.Client *)
  lastError : option error;
  connected : bool;
  reconnectCount : Z;
  ctxDone : bool
}.

Definition newWebRTCForwarder (reconnect : bool) : webrtcForwarder :=
  mk reconnect None None None None false 0 false.

Definition set_stream (v : option nat) (f : webrtcForwarder) : webrtcForwarder :=
  mk (Reconnect f) v (reader f) (whipClient f)
     (lastError f) (connected f) (reconnectCount f) (ctxDone f).
Definition set_reader (v : option nat) (f : webrtcForwarder) : webrtcForwarder :=
  mk (Reconnect f) (stream f) v (whipClient f)
     (lastError f) (connected f) (reconnectCount f) (ctxDone f).
Definition set_whipClient (v : option nat) (f : webrtcForwarder) : webrtcForwarder :=
  mk (Reconnect f) (stream f) (reader f) v
     (lastError f) (connected f) (reconnectCount f) (ctxDone f).
Definition set_lastError (v : option error) (f : webrtcForwarder) : webrtcForwarder :=
  mk (Reconnect f) (stream f) (reader f) (whipClient f)
     v (connected f) (reconnectCount f) (ctxDone f).
Definition set_connected (v : bool) (f : webrtcForwarder) : webrtcForwarder :=
  mk (Reconnect f) (stream f) (reader f) (whipClient f)
     (lastError f) v (reconnectCount f) (ctxDone f).
Definition set_reconnectCount (v : Z) (f : webrtcForwarder) : webrtcForwarder :=
  mk (Reconnect f) (stream f) (reader f) (whipClient f)
     (lastError f) (connected f) v (ctxDone f).
Definition set_ctxDone (v : bool) (f : webrtcForwarder) : webrtcForwarder :=
  mk (Reconnect f) (stream f) (reader f) (whipClient f)
     (lastError f) (connected f) (reconnectCount f) v.

Definition Start (f : webrtcForwarder) (strm : option nat)
  : webrtcForwarder * option error :=
  match stream f with
  | Some _ => (f, Some ErrAlreadyStarted)
  | None => (set_stream strm f, None)
  end.

(** [f.stream != nil && f.whipClient != nil]. *)
Definition IsRunning (f : webrtcForwarder) : bool :=
  match stream f, whipClient f with
  | Some _, Some _ => true
  | _, _ => false
  end.

Inductive pc : Type :=
| Exited
| LoopHead                               (* run calls runInner *)
| Created (r : nat)                      (* f.reader assigned *)
| Added (strm r c : nat)                 (* AddReader ran, RemoveReader deferred *)
| Attached (strm r c : nat)              (* whipClient stored, blocked in select *)
| Detaching (strm r : nat) (res : option error)
                                         (* the closer ran, RemoveReader is next *)
| Returned (res : option error)          (* runInner returned res *)
| Sleeping.                              (* the select on ctx.Done / time.After *)

Record sys : Type := mkSys {
  fw : webrtcForwarder;
  run : pc;
  readers : list (nat * nat);
  stopping : bool;
  fresh : nat
}.

Definition init (reconnect : bool) : sys :=
  mkSys (newWebRTCForwarder reconnect) Exited [] false 0.

Inductive event : Type :=
| EvStart (strm : nat)
| EvStopCancel
| EvStopFinish
| EvRun (o : outcome).

Definition run_step (o : outcome) (s : sys) : option sys :=
  let f := fw s in
  match run s with
  | Exited => None
  | LoopHead =>
      match o with
      | Fail e =>               (* the URL is rejected *)
          Some (mkSys f (Returned (Some e)) (readers s) (stopping s) (fresh s))
      | Ok =>
          Some (mkSys (set_reader (Some (fresh s)) f) (Created (fresh s))
                      (readers s) (stopping s) (S (fresh s)))
      | CtxDone => None
      end
  | Created r =>
      match o, stream f with
      | Fail e, _ =>            (* webrtc.FromStream or whipClient.Initialize fails *)
          Some (mkSys f (Returned (Some e)) (readers s) (stopping s) (fresh s))
      | Ok, Some strm =>
          match reader f with
          | Some r' =>
              Some (mkSys f (Added strm r' (fresh s)) (AddReader strm r' (readers s))
                          (stopping s) (S (fresh s)))
          | None => None
          end
      | Ok, None => None        (* f.stream.Desc on a nil stream: panic *)
      | CtxDone, _ => None
      end
  | Added strm r c =>
      Some (mkSys (set_connected true (set_whipClient (Some c) f))
                  (Attached strm r c) (readers s) (stopping s) (fresh s))
  | Attached strm r c =>
      let f1 := set_connected false (set_whipClient None f) in
      match o with
      | Fail e =>
          Some (mkSys f1 (Detaching strm r (Some e)) (readers s) (stopping s) (fresh s))
      | CtxDone =>
          if ctxDone f
          then Some (mkSys f1 (Detaching strm r None) (readers s) (stopping s) (fresh s))
          else None
      | Ok => None
      end
  | Detaching strm r res =>
      Some (mkSys f (Returned res) (RemoveReader strm r (readers s))
                  (stopping s) (fresh s))
  | Returned res =>
      let f1 := match res with
                | Some e => set_connected false (set_lastError (Some e) f)
                | None => f
                end in
      if ctxDone f then Some (mkSys f1 Exited (readers s) (stopping s) (fresh s))
      else if Reconnect f
           then Some (mkSys f1 Sleeping (readers s) (stopping s) (fresh s))
           else Some (mkSys f1 Exited (readers s) (stopping s) (fresh s))
  | Sleeping =>
      match o with
      | CtxDone =>
          if ctxDone f then Some (mkSys f Exited (readers s) (stopping s) (fresh s))
          else None
      | Ok =>                   (* time.After fires *)
          Some (mkSys (set_reconnectCount (wrap_uint64 (reconnectCount f + 1)) f)
                      LoopHead (readers s) (stopping s) (fresh s))
      | Fail _ => None
      end
  end.

Definition stop_cleanup (f : webrtcForwarder) : webrtcForwarder :=
  set_whipClient None (set_reader None (set_stream None f)).

Definition exec (ev : event) (s : sys) : option sys :=
  match ev with
  | EvStart strm =>
      match Start (fw s) (Some strm) with
      | (f', None) => Some (mkSys f' LoopHead (readers s) (stopping s) (fresh s))
      | (_, Some _) => Some s
      end
  | EvStopCancel =>
      Some (mkSys (set_ctxDone true (fw s)) (run s) (readers s) true (fresh s))
  | EvStopFinish =>
      match stopping s, run s with
      | true, Exited =>
          Some (mkSys (stop_cleanup (fw s)) Exited (readers s) false (fresh s))
      | _, _ => None
      end
  | EvRun o => run_step o s
  end.

Fixpoint execs (evs : list event) (s : sys) : option sys :=
  match evs with
  | [] => Some s
  | ev :: evs' => match exec ev s with Some s' => execs evs' s' | None => None end
  end.

Definition reachable (s : sys) : Prop :=
  exists reconnect evs, execs evs (init reconnect) = Some s.

Definition reader_attached (s : sys) : Prop :=
  exists strm r, stream (fw s) = Some strm /\ reader (fw s) = Some r
                 /\ In (strm, r) (readers s).

Definition running_invariant (s : sys) : Prop :=
  IsRunning (fw s) = true -> whipClient (fw s) <> None /\ reader_attached s.

(** What the supervisor's position says about the fields. *)
Definition consistent (s : sys) : Prop :=
  match run s with
  | Attached strm r c =>
      stream (fw s) = Some strm /\ reader (fw s) = Some r
      /\ whipClient (fw s) = Some c /\ In (strm, r) (readers s)
  | Added strm r c =>
      stream (fw s) = Some strm /\ reader (fw s) = Some r
      /\ whipClient (fw s) = None /\ In (strm, r) (readers s)
  | Exited => whipClient (fw s) = None
  | _ => whipClient (fw s) = None /\ stream (fw s) <> None
  end.

End Whip.

(* --------------------------------------------------------------------- *)
(** *** forwarder.go : the Forwarder interface *)

(** The manager holds both kinds behind the Forwarder interface; here a
    tagged variant with the methods dispatched by kind. *)
Inductive forwarder : Type :=
| SrtForwarder (f : Srt.srtForwarder)
| WebrtcForwarder (f : Whip.webrtcForwarder).

Definition Start (f : forwarder) (strm : option nat) : forwarder * option error :=
  match f with
  | SrtForwarder g => let '(g', e) := Srt.Start g strm in (SrtForwarder g', e)
  | WebrtcForwarder g => let '(g', e) := Whip.Start g strm in (WebrtcForwarder g', e)
  end.

Definition IsRunning (f : forwarder) : bool :=
  match f with
  | SrtForwarder g => Srt.IsRunning g
  | WebrtcForwarder g => Whip.IsRunning g
  end.

(** The forwarder has been started and not stopped: its stream is set. *)
Definition started (f : forwarder) : Prop :=
  match f with
  | SrtForwarder g => Srt.stream g <> None
  | WebrtcForwarder g => Whip.stream g <> None
  end.

(* --------------------------------------------------------------------- *)
(** *** Properties of the forwarders *)

(** Every step of the WHIP model keeps the fields in line with the position
    of the supervisor. *)
Lemma whip_exec_consistent ev s s' :
  Whip.consistent s -> Whip.exec ev s = Some s' -> Whip.consistent s'.
Proof.
  destruct s as [f run readers stopping fresh].
  destruct f as [rc strm rd wc le cn cnt cd].
  unfold Whip.consistent. destruct ev as [st| | |o]; simpl.
  - (* Start *)
    unfold Whip.Start; simpl. destruct strm as [st0|]; simpl.
    + intros H [= <-]. exact H.
    + intros H [= <-]. simpl. destruct run; simpl in *; intuition congruence.
  - (* Stop: cancel *)
    intros H [= <-]. simpl. destruct run; exact H.
  - (* Stop: cleanup *)
    destruct stopping; [|discriminate]. destruct run; try discriminate.
    intros _ [= <-]. reflexivity.
  - (* run *)
    unfold Whip.run_step; simpl.
    destruct run as [| |r|st r c|st r c|st r res|res|]; simpl.
    + discriminate.
    + intros H. destruct o; try discriminate;
        intros [= <-]; simpl; intuition congruence.
    + intros [Hw Hs]. destruct o as [e| |].
      * intros [= <-]; simpl; auto.
      * destruct strm as [st|]; [|discriminate].
        destruct rd as [r'|]; [|discriminate].
        intros [= <-]; simpl. repeat split; auto.
      * destruct strm; discriminate.
    + intros (Hs & Hr & Hw & Hin) [= <-]; simpl. auto.
    + intros (Hs & Hr & Hw & Hin). destruct o as [e| |].
      * intros [= <-]; simpl. split; congruence.
      * discriminate.
      * destruct cd; [|discriminate]. intros [= <-]; simpl. split; congruence.
    + intros [Hw Hs] [= <-]; simpl. auto.
    + intros [Hw Hs]. destruct cd; [|destruct rc];
        intros [= <-]; destruct res; simpl; auto.
    + intros [Hw Hs]. destruct o as [e| |].
      * discriminate.
      * intros [= <-]; simpl; auto.
      * destruct cd; [|discriminate]. intros [= <-]; simpl; auto.
Qed.

Lemma whip_execs_consistent evs : forall s s',
  Whip.consistent s -> Whip.execs evs s = Some s' -> Whip.consistent s'.
Proof.
  induction evs as [|ev evs IH]; intros s s' Hc; simpl.
  - now intros [= <-].
  - destruct (Whip.exec ev s) as [s1|] eqn:E; [|discriminate].
    apply IH. eapply whip_exec_consistent; eauto.
Qed.

Lemma whip_reachable_consistent s : Whip.reachable s -> Whip.consistent s.
Proof.
  intros (rc & evs & H). eapply whip_execs_consistent; [|exact H]. reflexivity.
Qed.

(** For the WHIP forwarder the lifecycle invariant holds in every reachable
    state. *)
Lemma whip_running_invariant s : Whip.reachable s -> Whip.running_invariant s.
Proof.
  intros Hr. apply whip_reachable_consistent in Hr.
  unfold Whip.running_invariant, Whip.IsRunning, Whip.reader_attached.
  unfold Whip.consistent in Hr.
  destruct (Whip.stream (Whip.fw s)) as [st|] eqn:Hs; [|discriminate].
  destruct (Whip.whipClient (Whip.fw s)) as [c|] eqn:Hw; [|discriminate].
  intros _. split; [discriminate|].
  destruct (Whip.run s); try (destruct Hr; congruence); try congruence.
  - destruct Hr as (_ & _ & Hw' & _). discriminate.
  - destruct Hr as (Hs' & Hrd & _ & Hin). exists strm, r. auto.
Qed.

Lemma srt_exec_consistent ev s s' :
  Srt.consistent s -> Srt.exec ev s = Some s' -> Srt.consistent s'.
Proof.
  destruct s as [f run readers stopping fresh].
  destruct f as [rc udp strm rd sc le cn cnt cd].
  unfold Srt.consistent. destruct ev as [st| | |o]; simpl.
  - unfold Srt.Start; simpl. destruct strm as [st0|]; simpl.
    + intros H [= <-]. exact H.
    + intros H [= <-]. simpl. discriminate.
  - intros H [= <-]. simpl. destruct run; exact H.
  - destruct stopping; [|discriminate]. destruct run; try discriminate.
    intros _ [= <-]. exact I.
  - unfold Srt.run_step; simpl.
    destruct run as [| | |st r|res|res]; simpl.
    + discriminate.
    + intros H. destruct cd; [intros [= <-]; exact I|].
      destruct o; try discriminate;
        intros [= <-]; simpl; auto; split; auto; discriminate.
    + intros [Hsc Hs]. destruct o as [e| |].
      * intros [= <-]; simpl; auto.
      * destruct strm as [st|]; [|discriminate].
        intros [= <-]; simpl. repeat split; auto.
      * destruct strm; discriminate.
    + intros (Hs & Hr & Hsc & Hin). destruct o as [e| |].
      * intros [= <-]; simpl. congruence.
      * discriminate.
      * destruct cd; [|discriminate]. intros [= <-]; simpl. congruence.
    + intros Hs [= <-]; simpl. auto.
    + intros Hs. destruct res as [e|].
      * destruct rc; intros [= <-]; simpl; auto.
      * intros [= <-]; simpl; auto.
Qed.

Lemma srt_execs_consistent evs : forall s s',
  Srt.consistent s -> Srt.execs evs s = Some s' -> Srt.consistent s'.
Proof.
  induction evs as [|ev evs IH]; intros s s' Hc; simpl.
  - now intros [= <-].
  - destruct (Srt.exec ev s) as [s1|] eqn:E; [|discriminate].
    apply IH. eapply srt_exec_consistent; eauto.
Qed.

(** While the SRT supervisor is blocked with its reader added, the
    connection is there and the reader is attached. *)
Lemma srt_attached_invariant s strm r :
  Srt.reachable s -> Srt.run s = Srt.Attached strm r ->
  Srt.sconn (Srt.fw s) <> None /\ Srt.reader_attached s.
Proof.
  intros (rc & udp & evs & H) Hrun.
  assert (Srt.consistent s) as Hc
    by (eapply srt_execs_consistent; [|exact H]; exact I).
  unfold Srt.consistent in Hc. rewrite Hrun in Hc.
  destruct Hc as (Hs & Hr & Hsc & Hin). split; [exact Hsc|].
  exists strm, r. auto.
Qed.

Lemma srt_IsRunning_stream f :
  Srt.IsRunning f = true <-> Srt.stream f <> None.
Proof.
  unfold Srt.IsRunning. destruct (Srt.stream f); split; congruence.
Qed.

(** The state right after [Start] returned, before the dial. *)
Lemma srt_after_Start reconnect udp strm :
  exists s, Srt.execs [Srt.EvStart strm] (Srt.init reconnect udp) = Some s
            /\ Srt.run s = Srt.LoopHead
            /\ Srt.IsRunning (Srt.fw s) = true
            /\ Srt.sconn (Srt.fw s) = None
            /\ Srt.reader (Srt.fw s) = None
            /\ Srt.readers s = [].
Proof. eexists. split; [reflexivity|]. simpl. auto. Qed.

(** The state after a failure that is not retried (reconnect off). *)
Lemma srt_after_permanent_failure udp strm e o :
  exists s, Srt.execs [Srt.EvStart strm; Srt.EvRun (Fail e); Srt.EvRun o]
                      (Srt.init false udp) = Some s
            /\ Srt.run s = Srt.Exited
            /\ Srt.IsRunning (Srt.fw s) = true
            /\ Srt.sconn (Srt.fw s) = None
            /\ Srt.lastError (Srt.fw s) = Some e
            /\ Srt.readers s = [].
Proof. eexists. split; [reflexivity|]. simpl. auto. Qed.

(** The failing input of C3, evaluated: right after Start(1) on a new SRT
    forwarder IsRunning() is true, the connection is nil and no reader is
    attached. *)
Lemma running_invariant_srt_counterexample :
  match Srt.execs [Srt.EvStart 1%nat] (Srt.init false 1472) with
  | Some s =>
      Srt.reachable s /\ Srt.IsRunning (Srt.fw s) = true
      /\ Srt.sconn (Srt.fw s) = None /\ ~ Srt.running_invariant s
  | None => False
  end.
Proof.
  simpl. split; [|split; [reflexivity|split; [reflexivity|]]].
  - exists false, 1472, [Srt.EvStart 1%nat]. reflexivity.
  - unfold Srt.running_invariant. simpl. intros H.
    destruct (H eq_refl) as [Hc _]. now apply Hc.
Qed.

(** C3. For the WHIP forwarder the invariant holds: in every reachable state,
    IsRunning() = true implies that the WHIP client is not nil and the
    forwarder's reader is attached to its stream.  The SRT forwarder breaks
    it: its IsRunning() says only that Start succeeded and Stop has not
    completed (f.stream is not nil), so it is true right after Start returned,
    before the dial, and after a failure that is not retried, with a nil
    connection and no reader attached; the connection is there and the reader
    attached only while the supervisor is blocked in runInner with the reader
    added. *)
Theorem running_invariant_by_forwarder :
  (forall s, Whip.reachable s -> Whip.running_invariant s)
  /\ (forall f, Srt.IsRunning f = true <-> Srt.stream f <> None)
  /\ (forall reconnect udp strm,
        exists s, Srt.execs [Srt.EvStart strm] (Srt.init reconnect udp) = Some s
                  /\ Srt.run s = Srt.LoopHead
                  /\ Srt.IsRunning (Srt.fw s) = true
                  /\ Srt.sconn (Srt.fw s) = None
                  /\ Srt.reader (Srt.fw s) = None
                  /\ Srt.readers s = [])
  /\ (forall udp strm e o,
        exists s, Srt.execs [Srt.EvStart strm; Srt.EvRun (Fail e); Srt.EvRun o]
                            (Srt.init false udp) = Some s
                  /\ Srt.run s = Srt.Exited
                  /\ Srt.IsRunning (Srt.fw s) = true
                  /\ Srt.sconn (Srt.fw s) = None
                  /\ Srt.lastError (Srt.fw s) = Some e
                  /\ Srt.readers s = [])
  /\ (forall s strm r,
        Srt.reachable s -> Srt.run s = Srt.Attached strm r ->
        Srt.sconn (Srt.fw s) <> None /\ Srt.reader_attached s).
Proof.
  split; [exact whip_running_invariant|].
  split; [exact srt_IsRunning_stream|].
  split; [exact srt_after_Start|].
  split; [exact srt_after_permanent_failure|].
  exact srt_attached_invariant.
Qed.

(** A WHIP run that reaches the blocked state: Start(1), reader created,
    client initialised and reader added, client stored. *)
Definition whip_attached_run : list Whip.event :=
  [Whip.EvStart 1%nat; Whip.EvRun Ok; Whip.EvRun Ok; Whip.EvRun Ok].

Lemma running_invariant_by_forwarder_witness :
  match Whip.execs whip_attached_run (Whip.init true) with
  | Some s => Whip.IsRunning (Whip.fw s) = true
              /\ Whip.whipClient (Whip.fw s) <> None /\ Whip.reader_attached s
  | None => False
  end.
Proof.
  pose proof (proj1 running_invariant_by_forwarder) as H.
  destruct (Whip.execs whip_attached_run (Whip.init true)) as [s|] eqn:E;
    [|discriminate E].
  assert (Whip.reachable s) as Hr by (exists true, whip_attached_run; exact E).
  assert (Whip.IsRunning (Whip.fw s) = true) as Hrun
    by (injection E as <-; reflexivity).
  split; [exact Hrun|]. exact (H s Hr Hrun).
Defined.

(* ---- Start is one-shot ---- *)

Lemma srt_Start_started f strm :
  Srt.stream f <> None -> Srt.Start f strm = (f, Some ErrAlreadyStarted).
Proof. unfold Srt.Start. destruct (Srt.stream f); [reflexivity | congruence]. Qed.

Lemma whip_Start_started f strm :
  Whip.stream f <> None -> Whip.Start f strm = (f, Some ErrAlreadyStarted).
Proof. unfold Whip.Start. destruct (Whip.stream f); [reflexivity | congruence]. Qed.

Lemma srt_Start_twice f st strm2 :
  Srt.stream f = None ->
  exists f1, Srt.Start f (Some st) = (f1, None)
             /\ Srt.Start f1 strm2 = (f1, Some ErrAlreadyStarted).
Proof.
  intros H. exists (Srt.set_stream (Some st) f). unfold Srt.Start at 1.
  rewrite H. split; [reflexivity|]. apply srt_Start_started. discriminate.
Qed.

Lemma whip_Start_twice f st strm2 :
  Whip.stream f = None ->
  exists f1, Whip.Start f (Some st) = (f1, None)
             /\ Whip.Start f1 strm2 = (f1, Some ErrAlreadyStarted).
Proof.
  intros H. exists (Whip.set_stream (Some st) f). unfold Whip.Start at 1.
  rewrite H. split; [reflexivity|]. apply whip_Start_started. discriminate.
Qed.

(** The supervisor never touches [f.stream]: only Stop's cleanup clears it. *)
Lemma srt_run_keeps_stream o s s' :
  Srt.run_step o s = Some s' -> Srt.stream (Srt.fw s') = Srt.stream (Srt.fw s).
Proof.
  destruct s as [f run readers stopping fresh].
  destruct f as [rc udp strm rd sc le cn cnt cd].
  unfold Srt.run_step; simpl.
  destruct run as [| | |st r|res|res]; simpl; try discriminate.
  - destruct cd; [|destruct o]; try discriminate; intros [= <-]; reflexivity.
  - destruct o; destruct strm; try discriminate; intros [= <-]; reflexivity.
  - destruct o; try discriminate; [|destruct cd; try discriminate];
      intros [= <-]; reflexivity.
  - intros [= <-]; reflexivity.
  - destruct res; [destruct rc|]; intros [= <-]; reflexivity.
Qed.

Lemma whip_run_keeps_stream o s s' :
  Whip.run_step o s = Some s' -> Whip.stream (Whip.fw s') = Whip.stream (Whip.fw s).
Proof.
  destruct s as [f run readers stopping fresh].
  destruct f as [rc strm rd wc le cn cnt cd].
  unfold Whip.run_step; simpl.
  destruct run as [| |r|st r c|st r c|st r res|res|]; simpl; try discriminate.
  - destruct o; try discriminate; intros [= <-]; reflexivity.
  - destruct o; destruct strm; destruct rd; try discriminate;
      intros [= <-]; reflexivity.
  - intros [= <-]; reflexivity.
  - destruct o; try discriminate; [|destruct cd; try discriminate];
      intros [= <-]; reflexivity.
  - intros [= <-]; reflexivity.
  - destruct cd; [|destruct rc]; destruct res; intros [= <-]; reflexivity.
  - destruct o; try discriminate; [|destruct cd; try discriminate];
      intros [= <-]; reflexivity.
Qed.

Definition srt_not_finish (ev : Srt.event) : Prop :=
  match ev with Srt.EvStopFinish => False | _ => True end.

Definition whip_not_finish (ev : Whip.event) : Prop :=
  match ev with Whip.EvStopFinish => False | _ => True end.

(** A started forwarder stays started until a Stop call completes. *)
Lemma srt_stays_started evs : forall s s',
  Srt.stream (Srt.fw s) <> None -> Forall srt_not_finish evs ->
  Srt.execs evs s = Some s' -> Srt.stream (Srt.fw s') <> None.
Proof.
  induction evs as [|ev evs IH]; intros s s' Hs Hev; simpl.
  - now intros [= <-].
  - destruct (Srt.exec ev s) as [s1|] eqn:E; [|discriminate].
    apply Forall_cons_1 in Hev as [Hev1 Hev].
    apply IH; [|exact Hev].
    destruct ev as [st| | |o]; simpl in E.
    + rewrite srt_Start_started in E by exact Hs. now injection E as <-.
    + now injection E as <-.
    + destruct Hev1.
    + apply srt_run_keeps_stream in E. congruence.
Qed.

Lemma whip_stays_started evs : forall s s',
  Whip.stream (Whip.fw s) <> None -> Forall whip_not_finish evs ->
  Whip.execs evs s = Some s' -> Whip.stream (Whip.fw s') <> None.
Proof.
  induction evs as [|ev evs IH]; intros s s' Hs Hev; simpl.
  - now intros [= <-].
  - destruct (Whip.exec ev s) as [s1|] eqn:E; [|discriminate].
    apply Forall_cons_1 in Hev as [Hev1 Hev].
    apply IH; [|exact Hev].
    destruct ev as [st| | |o]; simpl in E.
    + rewrite whip_Start_started in E by exact Hs. now injection E as <-.
    + now injection E as <-.
    + destruct Hev1.
    + apply whip_run_keeps_stream in E. congruence.
Qed.

(** C7. Start is one-shot on both forwarders: while the forwarder is started
    (f.stream is set) Start returns the "already started" error to its caller
    and leaves every field, and the supervisor, as they were; this is the case
    for a second call right after a successful one, and after any steps of the
    supervisor, further Start calls and cancellations, as long as no Stop call
    has completed. *)
Theorem Start_one_shot :
  (forall (f : forwarder) strm,
      started f -> Start f strm = (f, Some ErrAlreadyStarted))
  /\ (forall (f : forwarder) st strm2,
        ~ started f ->
        exists f1, Start f (Some st) = (f1, None) /\ started f1
                   /\ Start f1 strm2 = (f1, Some ErrAlreadyStarted))
  /\ (forall s evs s' st,
        Srt.stream (Srt.fw s) <> None -> Forall srt_not_finish evs ->
        Srt.execs evs s = Some s' -> Srt.exec (Srt.EvStart st) s' = Some s')
  /\ (forall s evs s' st,
        Whip.stream (Whip.fw s) <> None -> Forall whip_not_finish evs ->
        Whip.execs evs s = Some s' -> Whip.exec (Whip.EvStart st) s' = Some s').
Proof.
  split; [|split; [|split]].
  - intros [g|g] strm Hs; simpl in *.
    + now rewrite srt_Start_started.
    + now rewrite whip_Start_started.
  - intros [g|g] st strm2 Hs; simpl in Hs.
    + assert (Srt.stream g = None) as Hn
        by (destruct (Srt.stream g); [exfalso; apply Hs; discriminate | reflexivity]).
      destruct (srt_Start_twice g st strm2 Hn) as (g1 & H1 & H2).
      exists (SrtForwarder g1). simpl. rewrite H1, H2.
      split; [reflexivity|]. split; [|reflexivity].
      unfold Srt.Start in H1. rewrite Hn in H1. injection H1 as <-. discriminate.
    + assert (Whip.stream g = None) as Hn
        by (destruct (Whip.stream g); [exfalso; apply Hs; discriminate | reflexivity]).
      destruct (whip_Start_twice g st strm2 Hn) as (g1 & H1 & H2).
      exists (WebrtcForwarder g1). simpl. rewrite H1, H2.
      split; [reflexivity|]. split; [|reflexivity].
      unfold Whip.Start in H1. rewrite Hn in H1. injection H1 as <-. discriminate.
  - intros s evs s' st Hs Hev Hrun.
    pose proof (srt_stays_started evs s s' Hs Hev Hrun) as Hs'.
    simpl. now rewrite srt_Start_started.
  - intros s evs s' st Hs Hev Hrun.
    pose proof (whip_stays_started evs s s' Hs Hev Hrun) as Hs'.
    simpl. now rewrite whip_Start_started.
Qed.

Lemma Start_one_shot_witness :
  let f := fst (Start (WebrtcForwarder (Whip.newWebRTCForwarder true)) (Some 1%nat)) in
  started f /\ Start f (Some 2%nat) = (f, Some ErrAlreadyStarted).
Proof.
  intros f. assert (started f) as H by (simpl; discriminate).
  split; [exact H|]. exact (proj1 Start_one_shot f (Some 2%nat) H).
Defined.

(* ---- the MPEG-TS payload size ---- *)

Lemma wrap_int_id z : int_range z -> wrap_int z = z.
Proof.
  unfold int_range, wrap_int. intros H.
  rewrite Z.mod_small by lia. lia.
Qed.

Lemma wrap_int_under z : - 2 ^ 64 <= z + 2 ^ 63 < 0 -> wrap_int z = z + 2 ^ 64.
Proof.
  unfold wrap_int. intros H.
  replace (z + 2 ^ 63) with (z + 2 ^ 63 + 2 ^ 64 + (-1) * 2 ^ 64) by lia.
  rewrite Z.mod_add by lia. rewrite Z.mod_small by lia. lia.
Qed.

(** Truncating division by 188 through the flooring one. *)
Lemma quot_188 a :
  (0 <= a -> Z.quot a 188 = a / 188)
  /\ (a < 0 -> Z.quot a 188 = - ((- a) / 188)).
Proof.
  split; intros H.
  - apply Z.quot_div_nonneg; lia.
  - replace a with (- - a) at 1 by lia. rewrite Z.quot_opp_l by lia.
    rewrite Z.quot_div_nonneg by lia. reflexivity.
Qed.

(** The quotient fits in an int, so does its product with 188, and it is 0
    exactly for dividends strictly between -188 and 188. *)
Lemma quot_188_bounds a :
  int_range a ->
  int_range (Z.quot a 188) /\ int_range (Z.quot a 188 * 188)
  /\ (Z.quot a 188 = 0 <-> -188 < a < 188).
Proof.
  unfold int_range. intros Hra.
  destruct (quot_188 a) as [Hp Hn].
  destruct (Z_lt_le_dec a 0) as [Hlt|Hge].
  - rewrite (Hn Hlt).
    pose proof (Z.mul_div_le (- a) 188 ltac:(lia)).
    pose proof (Z.div_pos (- a) 188 ltac:(lia) ltac:(lia)).
    pose proof (Z.mod_pos_bound (- a) 188 ltac:(lia)).
    pose proof (Z.div_mod (- a) 188 ltac:(lia)).
    lia.
  - rewrite (Hp Hge).
    pose proof (Z.mul_div_le a 188 ltac:(lia)).
    pose proof (Z.div_pos a 188 ltac:(lia) ltac:(lia)).
    pose proof (Z.mod_pos_bound a 188 ltac:(lia)).
    pose proof (Z.div_mod a 188 ltac:(lia)).
    lia.
Qed.

(** C6, as stated, fails at udpMaxPayloadSize = 0: Go's division truncates
    toward zero, so the code computes 0 where the floor formula gives -188. *)
Lemma srtMaxPayloadSize_floor_counterexample :
  let f := Srt.newSRTForwarder false 0 in
  int_range (Srt.udpMaxPayloadSize f)
  /\ Srt.srtMaxPayloadSize f = 0
  /\ (Srt.udpMaxPayloadSize f - 16) / 188 * 188 = -188
  /\ Srt.srtMaxPayloadSize f <> (Srt.udpMaxPayloadSize f - 16) / 188 * 188.
Proof.
  cbv zeta. split; [unfold int_range; simpl; lia|].
  split; [reflexivity|]. split; [reflexivity|]. discriminate.
Qed.

(** C6 (amended). For every udpMaxPayloadSize >= 16 the maximum MPEG-TS
    payload size is floor((udpMaxPayloadSize - 16) / 188) * 188; the division
    truncates toward zero, and over the whole range of int the result is 0
    exactly when -172 < udpMaxPayloadSize < 16 + 188. *)
Theorem srtMaxPayloadSize_spec (f : Srt.srtForwarder) :
  int_range (Srt.udpMaxPayloadSize f) ->
  (16 <= Srt.udpMaxPayloadSize f ->
   Srt.srtMaxPayloadSize f = (Srt.udpMaxPayloadSize f - 16) / 188 * 188)
  /\ (Srt.srtMaxPayloadSize f = 0 <-> -172 < Srt.udpMaxPayloadSize f < 16 + 188).
Proof.
  unfold Srt.srtMaxPayloadSize, int_mul, int_div, int_sub.
  set (u := Srt.udpMaxPayloadSize f). clearbody u. intros Hr.
  unfold int_range in Hr.
  split.
  - intros Hge.
    rewrite (wrap_int_id (u - 16)) by (unfold int_range; lia).
    rewrite Z.quot_div_nonneg by lia.
    assert (0 <= (u - 16) / 188 <= u - 16) as Hq.
    { split; [apply Z.div_pos; lia|]. apply Z.div_le_upper_bound; lia. }
    rewrite (wrap_int_id ((u - 16) / 188)) by (unfold int_range; lia).
    apply wrap_int_id. unfold int_range.
    pose proof (Z.mul_div_le (u - 16) 188 ltac:(lia)). lia.
  - assert (exists a, wrap_int (u - 16) = a /\ int_range a /\
              ((- 2 ^ 63 + 16 <= u /\ a = u - 16)
               \/ (u < - 2 ^ 63 + 16 /\ a = u - 16 + 2 ^ 64))) as (a & -> & Hra & Ha).
    { unfold int_range. destruct (Z_lt_le_dec u (- 2 ^ 63 + 16)).
      - exists (u - 16 + 2 ^ 64). rewrite wrap_int_under by lia. lia.
      - exists (u - 16). rewrite wrap_int_id by (unfold int_range; lia). lia. }
    destruct (quot_188_bounds a Hra) as (Hq1 & Hq2 & Hq0).
    rewrite (wrap_int_id (Z.quot a 188)) by exact Hq1.
    rewrite (wrap_int_id (Z.quot a 188 * 188)) by exact Hq2.
    unfold int_range in *. lia.
Qed.

Lemma srtMaxPayloadSize_spec_witness :
  let f := Srt.newSRTForwarder false 1472 in
  int_range (Srt.udpMaxPayloadSize f) /\ Srt.srtMaxPayloadSize f = 1316.
Proof.
  intros f. assert (int_range (Srt.udpMaxPayloadSize f)) as Hr
    by (unfold int_range; simpl; lia).
  split; [exact Hr|].
  rewrite (proj1 (srtMaxPayloadSize_spec f Hr)); [reflexivity | simpl; lia].
Defined.

End Forwarder.

(* ===================================================================== *)
(** ** internal/staticsources/simulcast : the simulcast aggregation source *)
(* ===================================================================== *)

Module Simulcast.

(** description.Session, reduced to what the source inspects. *)
Inductive MediaType : Type := MediaTypeVideo | MediaTypeAudio | MediaTypeApplication.

Inductive Format : Type :=
| H264 (payloadType : Z)
| Opus (payloadType : Z)
| OtherFormat (payloadType : Z).

Record Media : Type := mkMedia { mType : MediaType; Formats : list Format }.

(** rtp.Packet: the header fields and the payload bytes. *)
Record Packet : Type := mkPacket {
  Marker : bool;
  PayloadType : Z;
  SequenceNumber : Z;     (* uint16 *)
  Timestamp : Z;          (* uint32 *)
  SSRC : Z;               (* uint32 *)
  Payload : list Z
}.

(** unit.Unit *)
Record Unit : Type := mkUnit {
  RTPPackets : list Packet;
  NTP : Z;
  NilPayload : bool
}.

(** conf.SimulcastInput *)
Record SimulcastInput : Type := mkInput {
  Path : string;
  Layer : string;
  Resolution : string;
  Bitrate : Z;
  Type_ : string
}.

Record layerInfo : Type := mkLayer {
  li_Layer : string;
  li_SSRC : Z;
  li_RID : string;
  li_Resolution : string;
  li_Bitrate : Z
}.

(** [uint32(b[0])<<24 | uint32(b[1])<<16 | uint32(b[2])<<8 | uint32(b[3])]. *)
Definition uint32_of_bytes (b0 b1 b2 b3 : Z) : Z :=
  Z.lor (Z.lor (Z.lor (Z.shiftl b0 24 mod 2 ^ 32) (Z.shiftl b1 16 mod 2 ^ 32))
               (Z.shiftl b2 8 mod 2 ^ 32))
        b3.

Definition is_byte (b : Z) : Prop := 0 <= b < 256.

(** What the host and the random source answer while one input is
    connected. *)
Inductive attach_env : Type :=
| AddReaderFails                       (* PathManager.AddReader returned an error *)
| PathNil                              (* path or stream is nil *)
| NeverReady                           (* no media within the deadline, or cancelled *)
| Ready (strm : nat) (desc : list Media) (rand : option (Z * Z * Z * Z)).
                                       (* stream with a description; rand.Read *)

Inductive connect_error : Type :=
| ErrAddReader (path : string)
| ErrNil (path : string)
| ErrNotReady (path : string)
| ErrSSRC (path : string).

(** The three maps of Source, keyed by input path. *)
Record Source : Type := mkSource {
  inputStreams : gmap string (nat * list Media);   (* stream handle, its Desc.Medias *)
  readers : gmap string nat;
  layerMapping : gmap string layerInfo;
  nextReader : nat
}.

Definition New : Source := mkSource ∅ ∅ ∅ 0.

(** One iteration of the loop of connectInputs. *)
Definition connectInput (s : Source) (input : SimulcastInput) (env : attach_env)
  : Source * option connect_error :=
  match env with
  | AddReaderFails => (s, Some (ErrAddReader (Path input)))
  | PathNil => (s, Some (ErrNil (Path input)))
  | NeverReady => (s, Some (ErrNotReady (Path input)))
  | Ready strm [] rand =>
      (* a description without medias never ends the wait *)
      (s, Some (ErrNotReady (Path input)))
  | Ready strm desc rand =>
      let s1 := mkSource (<[Path input := (strm, desc)]> (inputStreams s))
                         (<[Path input := nextReader s]> (readers s))
                         (layerMapping s) (S (nextReader s)) in
      match rand with
      | None => (s1, Some (ErrSSRC (Path input)))
      | Some (b0, b1, b2, b3) =>
          let li := mkLayer (Layer input) (uint32_of_bytes b0 b1 b2 b3)
                            (Layer input) (Resolution input) (Bitrate input) in
          (mkSource (inputStreams s1) (readers s1)
                    (<[Path input := li]> (layerMapping s1)) (nextReader s1),
           None)
      end
  end.

Fixpoint connectInputs (s : Source) (inputs : list (SimulcastInput * attach_env))
  : Source * option connect_error :=
  match inputs with
  | [] => (s, None)
  | (input, env) :: rest =>
      match connectInput s input env with
      | (s', None) => connectInputs s' rest
      | (s', Some e) => (s', Some e)
      end
  end.

(** The first format of a list that is an H.264 (resp. Opus) format. *)
Fixpoint first_h264 (fs : list Format) : option Format :=
  match fs with
  | [] => None
  | H264 pt :: _ => Some (H264 pt)
  | _ :: rest => first_h264 rest
  end.

Fixpoint first_opus (fs : list Format) : option Format :=
  match fs with
  | [] => None
  | Opus pt :: _ => Some (Opus pt)
  | _ :: rest => first_opus rest
  end.

Definition MediaType_eqb (a b : MediaType) : bool :=
  match a, b with
  | MediaTypeVideo, MediaTypeVideo
  | MediaTypeAudio, MediaTypeAudio
  | MediaTypeApplication, MediaTypeApplication => true
  | _, _ => false
  end.

(** The first media of the given type (the loops break at it). *)
Fixpoint first_media (t : MediaType) (ms : list Media) : option Media :=
  match ms with
  | [] => None
  | m :: rest => if MediaType_eqb (mType m) t then Some m else first_media t rest
  end.

(** The media and format a forwarder looks up in a description: both must be
    found. *)
Definition find_track (t : MediaType) (pick : list Format -> option Format)
           (desc : list Media) : option (Media * Format) :=
  match first_media t desc with
  | Some m => match pick (Formats m) with
              | Some f => Some (m, f)
              | None => None
              end
  | None => None
  end.

(** One call of [outputStream.WriteRTPPacket(media, format, pkt, ntp, pts)]. *)
Record Written : Type := mkWritten {
  w_media : Media;
  w_format : Format;
  w_pkt : Packet;
  w_ntp : Z;
  w_pts : Z
}.

(** The clone made of each upstream packet: header by value, payload copied. *)
Definition clone (p : Packet) : Packet :=
  mkPacket (Marker p) (PayloadType p) (SequenceNumber p) (Timestamp p) (SSRC p)
           (Payload p).

Definition set_SSRC (v : Z) (p : Packet) : Packet :=
  mkPacket (Marker p) (PayloadType p) (SequenceNumber p) (Timestamp p) v
           (Payload p).

(** The OnData callback registered by forwardVideo: [None] is the
    "context cancelled" error, otherwise the writes made for the unit. *)
Definition forwardVideo_OnData (ctxDone : bool) (li : layerInfo)
           (outDesc : list Media) (u : Unit) : option (list Written) :=
  if ctxDone then None
  else if NilPayload u then Some []
  else
    Some (flat_map
            (fun originalPkt =>
               let pkt := set_SSRC (li_SSRC li) (clone originalPkt) in
               match find_track MediaTypeVideo first_h264 outDesc with
               | Some (m, f) => [mkWritten m f pkt (NTP u) (Timestamp pkt)]
               | None => []
               end)
            (RTPPackets u)).

(** The OnData callback registered by forwardAudio. *)
Definition forwardAudio_OnData (ctxDone : bool) (outDesc : list Media)
           (u : Unit) : option (list Written) :=
  if ctxDone then None
  else if NilPayload u then Some []
  else
    Some (flat_map
            (fun originalPkt =>
               let pkt := clone originalPkt in
               match find_track MediaTypeAudio first_opus outDesc with
               | Some (m, f) => [mkWritten m f pkt (NTP u) (Timestamp pkt)]
               | None => []
               end)
            (RTPPackets u)).

(** forwardVideo: gives up when the upstream description has no video media
    with an H.264 format, otherwise registers its callback. *)
Definition forwardVideo (desc : list Media) (li : layerInfo) (outDesc : list Media)
  : option (bool -> Unit -> option (list Written)) :=
  match find_track MediaTypeVideo first_h264 desc with
  | Some _ => Some (fun ctxDone u => forwardVideo_OnData ctxDone li outDesc u)
  | None => None
  end.

(** forwardAudio: it is not given the layer info. *)
Definition forwardAudio (desc : list Media) (outDesc : list Media)
  : option (bool -> Unit -> option (list Written)) :=
  match find_track MediaTypeAudio first_opus desc with
  | Some _ => Some (fun ctxDone u => forwardAudio_OnData ctxDone outDesc u)
  | None => None
  end.

(** forwardInput: the callback this input ends up with, if any.  The stream,
    reader and layer info are looked up by the input's path; a video input
    goes to forwardVideo, every other type to forwardAudio. *)
Definition forwardInput (s : Source) (outDesc : list Media) (input : SimulcastInput)
  : option (bool -> Unit -> option (list Written)) :=
  match inputStreams s !! Path input, readers s !! Path input,
        layerMapping s !! Path input with
  | Some (strm, desc), Some reader, Some li =>
      if String.eqb (Type_ input) "video"
      then forwardVideo desc li outDesc
      else forwardAudio desc outDesc
  | _, _, _ => None
  end.

(* --------------------------------------------------------------------- *)
(** *** Properties of the simulcast source *)


Lemma connectInput_ok s input env s' :
  connectInput s input env = (s', None) ->
  exists strm desc b0 b1 b2 b3,
    env = Ready strm desc (Some (b0, b1, b2, b3))
    /\ layerMapping s' =
       <[Path input := mkLayer (Layer input) (uint32_of_bytes b0 b1 b2 b3)
                               (Layer input) (Resolution input) (Bitrate input)]>
         (layerMapping s)
    /\ inputStreams s' = <[Path input := (strm, desc)]> (inputStreams s)
    /\ readers s' = <[Path input := nextReader s]> (readers s).
Proof.
  unfold connectInput. destruct env as [| | |strm desc rand]; try discriminate.
  destruct desc as [|m desc]; [discriminate|].
  destruct rand as [[[[b0 b1] b2] b3]|]; [|discriminate].
  intros [= <-]. exists strm, (m :: desc), b0, b1, b2, b3. simpl. auto.
Qed.






(** An audio layer whose upstream publishes Opus with SSRC 2, connected with
    the random bytes 0,0,0,1. *)
Definition audio_layer : SimulcastInput := mkInput "live/a" "low" "" 64000 "audio".
Definition audio_desc : list Media := [mkMedia MediaTypeAudio [Opus 111]].
Definition audio_env : attach_env := Ready 1%nat audio_desc (Some (0, 0, 0, 1)).
Definition audio_unit : Unit :=
  mkUnit [mkPacket false 111 7 960 2 [1; 2; 3]] 0 false.



(** A video layer connected with the random bytes 1,2,3,4. *)
Definition video_layer : SimulcastInput :=
  mkInput "live/h" "high" "1920x1080" 2000000 "video".
Definition video_desc : list Media := [mkMedia MediaTypeVideo [H264 96]].
Definition video_env : attach_env := Ready 1%nat video_desc (Some (1, 2, 3, 4)).
Definition video_unit : Unit :=
  mkUnit [mkPacket true 96 10 90000 5 [9]; mkPacket true 96 11 90000 5 [8]] 0 false.


End Simulcast.

(* ===================================================================== *)
(** ** internal/transcoder : the transcoding manager and its outputs      *)
(* ===================================================================== *)

Module Transcoder.

Inductive MediaType : Type := MediaTypeVideo | MediaTypeAudio.

Inductive Format : Type :=
| H264 (PayloadTyp : Z) (SPS PPS : list Z) (PacketizationMode : Z)
| Opus (PayloadTyp : Z) (ChannelCount : Z)
| OtherFormat (PayloadTyp : Z).

Record Media : Type := mkMedia { mType : MediaType; Formats : list Format }.

(** conf.SRTTranscodingOutput *)
Record VideoConfig : Type := mkVideo {
  v_Resolution : string; v_Bitrate : Z; v_Framerate : Z; v_Preset : string
}.
Record AudioConfig : Type := mkAudio {
  a_Bitrate : Z; a_Samplerate : Z; a_Channels : Z
}.
Record OutputConfig : Type := mkConfig {
  Path : string;
  Type_ : string;
  Video : option VideoConfig;
  Audio : option AudioConfig
}.

(** The parameter sets written into createStreamDescription. *)
Definition canned_SPS : list Z :=
  [0x67; 0x42; 0xc0; 0x28; 0xd9; 0x00; 0x78; 0x02; 0x27; 0xe5; 0x84; 0x00; 0x00;
   0x03; 0x00; 0x04; 0x00; 0x00; 0x03; 0x00; 0xf0; 0x3c; 0x60; 0xc9; 0x20].
Definition canned_PPS : list Z := [0x08; 0x06; 0x07; 0x08].

Definition videoTrack : Media :=
  mkMedia MediaTypeVideo [H264 96 canned_SPS canned_PPS 1].
Definition audioTrack : Media :=
  mkMedia MediaTypeAudio [Opus 97 2].

(** createStreamDescription: the Medias of the session it returns. *)
Definition createStreamDescription (config : OutputConfig) : list Media :=
  let medias := if String.eqb (Type_ config) "video" then [videoTrack] else [] in
  medias ++ [audioTrack].

(** Output: its configuration, the Desc.Medias of its stream, its flag. *)
Record Output : Type := mkOutput {
  o_config : OutputConfig;
  o_desc : list Media;
  o_active : bool
}.

Definition set_desc (d : list Media) (o : Output) : Output :=
  mkOutput (o_config o) d (o_active o).

(** NewOutput, when strm.Initialize succeeds. *)
Definition NewOutput (config : OutputConfig) : Output :=
  mkOutput config (createStreamDescription config) false.

(** The errors the MPEG-TS reader hands to outputProcessor. *)
Inductive ioerr : Type := EOF | OtherError.

(** What mpegts.ToStream returned: the medias and the error ([None] = nil). *)
Record ToStreamResult : Type := mkToStream {
  ts_medias : list Media;
  ts_err : option ioerr
}.

(** Go's convention for a (value, error) pair, which mpegts.ToStream (not
    among the sources) is taken to follow: with a non-nil error the medias
    are nil. *)
Definition follows_convention (r : ToStreamResult) : Prop :=
  ts_err r <> None -> ts_medias r = [].

(** outputProcessor up to the read loop: [init] is what
    enhancedReader.Initialize returned, [r] what ToStream returned. *)
Definition outputProcessor (o : Output) (init : option ioerr) (r : ToStreamResult)
  : Output :=
  match init with
  | Some _ => o
  | None =>
      match ts_err r with
      | Some OtherError => o
      | _ => match ts_medias r with
             | _ :: _ => set_desc (ts_medias r) o
             | [] => o
             end
      end
  end.

(** The first parse of the encoder's output succeeded with at least one
    media. *)
Definition parse_succeeded (init : option ioerr) (r : ToStreamResult) : Prop :=
  init = None /\ ts_err r = None /\ ts_medias r <> [].

(* --------------------------------------------------------------------- *)
(** *** Manager *)

Record Config : Type := mkCfg { Enable : bool; Outputs : list OutputConfig }.

(** The outputs live on a heap; the manager's map holds pointers (indices)
    into it. *)
Record Manager : Type := mkManager {
  config : option Config;           (* None = nil *)
  inputStream : option nat;
  outputs : gmap string nat;
  active : bool
}.

Definition NewManager (cfg : option Config) : Manager := mkManager cfg None ∅ false.

Inductive error : Type :=
| ErrAlreadyActive                  (* "transcoder already active" *)
| ErrCreate (path : string)         (* "failed to create output <path>" *)
| ErrStart (path : string).         (* "failed to start output <path>" *)

(** What happens to the i-th configured output: NewOutput fails, Output.Start
    fails (a pipe or the process), or the output starts. *)
Inductive start_env : Type := NewFails | StartFails | Started.

(** Output.Start when the process starts. *)
Definition started (o : Output) : Output :=
  mkOutput (o_config o) (o_desc o) true.

(** The loop of Manager.Start over the configured outputs, from index [i]. *)
Fixpoint start_outputs (env : nat -> start_env) (i : nat) (cfgs : list OutputConfig)
         (outs : gmap string nat) (heap : list Output)
  : gmap string nat * list Output * option error :=
  match cfgs with
  | [] => (outs, heap, None)
  | c :: rest =>
      match env i with
      | NewFails => (outs, heap, Some (ErrCreate (Path c)))
      | StartFails => (outs, heap ++ [NewOutput c], Some (ErrStart (Path c)))
      | Started =>
          start_outputs env (S i) rest
                        (<[Path c := List.length heap]> outs)
                        (heap ++ [started (NewOutput c)])
      end
  end.

Definition Start (m : Manager) (heap : list Output) (strm : nat)
           (env : nat -> start_env) : Manager * list Output * option error :=
  if active m then (m, heap, Some ErrAlreadyActive)
  else
    match config m with
    | None => (m, heap, None)
    | Some cfg =>
        if negb (Enable cfg) then (m, heap, None)
        else
          let '(outs, heap', res) :=
            start_outputs env 0 (Outputs cfg) (outputs m) heap in
          (mkManager (config m) (Some strm) outs true, heap', res)
    end.

(** The map after the outputs [pre] have been started in order, the first of
    them allocated at [base]. *)
Fixpoint register (pre : list OutputConfig) (base : nat) (outs : gmap string nat)
  : gmap string nat :=
  match pre with
  | [] => outs
  | c :: rest => register rest (S base) (<[Path c := base]> outs)
  end.

(* --------------------------------------------------------------------- *)
(** *** Properties of the transcoding outputs *)

Lemma createStreamDescription_video cfg :
  Type_ cfg = "video"%string -> createStreamDescription cfg = [videoTrack; audioTrack].
Proof. unfold createStreamDescription. now intros ->. Qed.

Lemma createStreamDescription_other cfg :
  Type_ cfg <> "video"%string -> createStreamDescription cfg = [audioTrack].
Proof.
  unfold createStreamDescription. intros H.
  destruct (String.eqb_spec (Type_ cfg) "video"); [contradiction | reflexivity].
Qed.

(** outputProcessor replaces the description by the medias of ToStream exactly
    when Initialize returned nil, ToStream returned no error other than
    io.EOF, and there is at least one media. *)
Lemma outputProcessor_cases o init r :
  (init = None /\ ts_err r <> Some OtherError /\ ts_medias r <> []
   /\ outputProcessor o init r = set_desc (ts_medias r) o)
  \/ ((init <> None \/ ts_err r = Some OtherError \/ ts_medias r = [])
      /\ outputProcessor o init r = o).
Proof.
  unfold outputProcessor. destruct init as [e|].
  - right. split; [left; discriminate | reflexivity].
  - destruct (ts_err r) as [[|]|] eqn:He.
    + destruct (ts_medias r) eqn:Hm.
      * right. split; [right; right; reflexivity | reflexivity].
      * left. repeat split; discriminate.
    + right. split; [right; left; reflexivity | reflexivity].
    + destruct (ts_medias r) eqn:Hm.
      * right. split; [right; right; reflexivity | reflexivity].
      * left. repeat split; discriminate.
Qed.

(** C8. A new output carries the tentative description: for a video-type
    output one H.264 video media with the canned SPS/PPS followed by one Opus
    2-channel audio media, for any other (audio) type the Opus media only.
    outputProcessor replaces it by the medias derived from the encoder's
    MPEG-TS output exactly when the first parse (Initialize, then ToStream)
    succeeds with at least one media; without such a parse, in particular when
    Initialize fails because the child exited, the tentative description is
    kept.  ToStream is taken to follow Go's convention of returning nil medias
    together with a non-nil error. *)
Theorem tentative_description_replaced
        (cfg : OutputConfig) (init : option ioerr) (r : ToStreamResult) :
  follows_convention r ->
  o_desc (NewOutput cfg) = createStreamDescription cfg
  /\ (Type_ cfg = "video"%string ->
      createStreamDescription cfg =
      [mkMedia MediaTypeVideo [H264 96 canned_SPS canned_PPS 1];
       mkMedia MediaTypeAudio [Opus 97 2]])
  /\ (Type_ cfg <> "video"%string ->
      createStreamDescription cfg = [mkMedia MediaTypeAudio [Opus 97 2]])
  /\ (parse_succeeded init r ->
      o_desc (outputProcessor (NewOutput cfg) init r) = ts_medias r)
  /\ (~ parse_succeeded init r ->
      outputProcessor (NewOutput cfg) init r = NewOutput cfg)
  /\ (init <> None ->
      o_desc (outputProcessor (NewOutput cfg) init r) = createStreamDescription cfg).
Proof.
  intros Hconv. split; [reflexivity|].
  split; [apply createStreamDescription_video|].
  split; [apply createStreamDescription_other|].
  unfold parse_succeeded.
  destruct (outputProcessor_cases (NewOutput cfg) init r)
    as [(Hi & He & Hm & ->)|[Hno ->]].
  - split; [reflexivity|]. split; [|congruence].
    intros Hn. exfalso. apply Hn. split; [exact Hi|].
    destruct (ts_err r) as [e|] eqn:Herr; [|auto].
    exfalso. apply Hm, Hconv. rewrite Herr. discriminate.
  - split; [|split; reflexivity].
    intros (Hi & He & Hm). exfalso.
    destruct Hno as [Hno|[Hno|Hno]]; congruence.
Qed.

Definition encoder_medias : list Media :=
  [mkMedia MediaTypeVideo [H264 96 [0x67; 0x64] [0x68] 1];
   mkMedia MediaTypeAudio [Opus 97 2]].

Lemma tentative_description_replaced_witness :
  let cfg := mkConfig "live/in-480p" "video"
                      (Some (mkVideo "854x480" 800000 30 "veryfast")) None in
  let r := mkToStream encoder_medias None in
  follows_convention r
  /\ o_desc (outputProcessor (NewOutput cfg) None r) = encoder_medias.
Proof.
  intros cfg r.
  assert (follows_convention r) as Hc by (intros H; now destruct H).
  split; [exact Hc|].
  apply (tentative_description_replaced cfg None r Hc).
  repeat split; discriminate.
Defined.

(* --------------------------------------------------------------------- *)
(** *** Properties of Manager.Start *)

Lemma start_outputs_prefix env : forall pre (i : nat) c post outs heap,
  (forall j : nat, (j < List.length pre)%nat -> env (i + j)%nat = Started) ->
  start_outputs env i (pre ++ c :: post) outs heap =
  match env (i + List.length pre)%nat with
  | NewFails =>
      (register pre (List.length heap) outs,
       heap ++ map (fun c => started (NewOutput c)) pre,
       Some (ErrCreate (Path c)))
  | StartFails =>
      (register pre (List.length heap) outs,
       (heap ++ map (fun c => started (NewOutput c)) pre) ++ [NewOutput c],
       Some (ErrStart (Path c)))
  | Started =>
      start_outputs env (S (i + List.length pre)) post
        (register (pre ++ [c]) (List.length heap) outs)
        (heap ++ map (fun c => started (NewOutput c)) (pre ++ [c]))
  end.
Proof.
  induction pre as [|c0 pre IH]; intros i c post outs heap Hpre.
  - simpl. rewrite Nat.add_0_r, app_nil_r. destruct (env i); reflexivity.
  - simpl. rewrite <- (Nat.add_0_r i) at 1. rewrite (Hpre O) by (simpl; lia).
    rewrite IH.
    + replace (S i + List.length pre)%nat with (i + S (List.length pre))%nat by lia.
      rewrite !length_app. simpl List.length.
      replace (List.length heap + 1)%nat with (S (List.length heap)) by lia.
      rewrite <- !app_assoc. simpl. reflexivity.
    + intros j Hj. replace (S i + j)%nat with (i + S j)%nat by lia.
      apply Hpre. simpl. lia.
Qed.

Lemma register_snoc pre : forall c (base : nat) outs,
  register (pre ++ [c]) base outs =
  <[Path c := (base + List.length pre)%nat]> (register pre base outs).
Proof.
  induction pre as [|c0 pre IH]; intros c base outs; simpl.
  - now rewrite Nat.add_0_r.
  - rewrite IH.
    now replace (S base + List.length pre)%nat with (base + S (List.length pre))%nat by lia.
Qed.

(** The entry under the path of the j-th started output points to it when no
    later started output has the same path. *)
Lemma register_last pre : forall (base : nat) outs (j : nat) c,
  pre !! j = Some c ->
  (forall (j' : nat) c', (j < j')%nat -> pre !! j' = Some c' -> Path c' <> Path c) ->
  register pre base outs !! Path c = Some (base + j)%nat.
Proof.
  induction pre as [|cl pre IH] using rev_ind; intros base outs j c Hj Hlater;
    [discriminate Hj|].
  rewrite register_snoc.
  destruct (decide (j < List.length pre)%nat) as [Hlt|Hge].
  - rewrite lookup_app_l in Hj by exact Hlt.
    rewrite lookup_insert_ne.
    + apply IH; [exact Hj|]. intros j' c' Hjj' Hj'.
      apply (Hlater j' c' Hjj'). rewrite lookup_app_l; [exact Hj'|].
      now apply lookup_lt_Some in Hj'.
    + apply (Hlater (List.length pre) cl Hlt). apply list_lookup_middle. reflexivity.
  - pose proof (lookup_lt_Some _ _ _ Hj) as Hlen. rewrite length_app in Hlen.
    simpl in Hlen. assert (j = List.length pre) as -> by lia.
    rewrite list_lookup_middle in Hj by reflexivity. injection Hj as ->.
    apply lookup_insert_eq.
Qed.

(** Every entry is an old one or points to a started output with that path. *)
Lemma register_values pre : forall (base : nat) outs (p : string) (ptr : nat),
  register pre base outs !! p = Some ptr ->
  outs !! p = Some ptr
  \/ exists (j : nat) c, pre !! j = Some c /\ Path c = p /\ ptr = (base + j)%nat.
Proof.
  induction pre as [|cl pre IH] using rev_ind; intros base outs p ptr; [now left|].
  rewrite register_snoc. destruct (decide (Path cl = p)) as [<-|Hne].
  - rewrite lookup_insert_eq. intros [= <-]. right.
    exists (List.length pre), cl. split; [|auto]. apply list_lookup_middle. reflexivity.
  - rewrite lookup_insert_ne by exact Hne. intros H.
    apply IH in H as [H|(j & c & Hj & Hp & ->)]; [now left|].
    right. exists j, c. split; [|auto]. rewrite lookup_app_l; [exact Hj|].
    now apply lookup_lt_Some in Hj.
Qed.

(** The path of every started output is a key, held by a started output with
    that path at the same or a later position. *)
Lemma register_key pre : forall (base : nat) outs (j : nat) c,
  pre !! j = Some c ->
  exists (j' : nat) c',
    (j <= j')%nat /\ pre !! j' = Some c' /\ Path c' = Path c
    /\ register pre base outs !! Path c = Some (base + j')%nat.
Proof.
  induction pre as [|cl pre IH] using rev_ind; intros base outs j c Hj;
    [discriminate Hj|].
  rewrite register_snoc.
  pose proof (lookup_lt_Some _ _ _ Hj) as Hlen. rewrite length_app in Hlen.
  simpl in Hlen.
  destruct (decide (Path cl = Path c)) as [Heq|Hne].
  - exists (List.length pre), cl. split; [lia|].
    split; [apply list_lookup_middle; reflexivity|]. split; [exact Heq|].
    rewrite <- Heq. apply lookup_insert_eq.
  - destruct (decide (j < List.length pre)%nat) as [Hlt|Hge].
    + rewrite lookup_app_l in Hj by exact Hlt.
      destruct (IH base outs j c Hj) as (j' & c' & Hle & Hj' & Hp & Hl).
      exists j', c'. split; [exact Hle|].
      split; [rewrite lookup_app_l; [exact Hj' | now apply lookup_lt_Some in Hj']|].
      split; [exact Hp|]. rewrite lookup_insert_ne by exact Hne. exact Hl.
    + assert (j = List.length pre) as -> by lia.
      rewrite list_lookup_middle in Hj by reflexivity. injection Hj as ->.
      contradiction.
Qed.

(** C10. If Manager.Start fails while creating or starting the k-th configured
    output, it returns that error without rolling back: the outputs started
    before stay on the heap with their active flag set; the path of each of
    them is a key of the outputs map, held by that output itself unless a later
    started output has the same path (then by the last such one); the failed
    output is not in the map; the manager's active flag is true, so that a
    later Start returns the already-active error and changes nothing. *)
Theorem Start_failure_no_rollback
        (m : Manager) (heap : list Output) (strm : nat) (env : nat -> start_env)
        (cfg : Config) (k : nat) (c : OutputConfig) :
  active m = false -> outputs m = ∅ ->
  config m = Some cfg -> Enable cfg = true ->
  Outputs cfg !! k = Some c ->
  (forall j : nat, (j < k)%nat -> env j = Started) ->
  env k <> Started ->
  exists m' heap',
    Start m heap strm env =
      (m', heap',
       Some (match env k with NewFails => ErrCreate (Path c) | _ => ErrStart (Path c) end))
    /\ active m' = true
    /\ (exists added, heap' = heap ++ added)
    /\ (forall (j : nat) cj, (j < k)%nat -> Outputs cfg !! j = Some cj ->
          heap' !! (List.length heap + j)%nat = Some (started (NewOutput cj))
          /\ o_active (started (NewOutput cj)) = true)
    /\ (forall (j : nat) cj, (j < k)%nat -> Outputs cfg !! j = Some cj ->
          exists (j' : nat) cj',
            (j <= j' < k)%nat /\ Outputs cfg !! j' = Some cj' /\ Path cj' = Path cj
            /\ outputs m' !! Path cj = Some (List.length heap + j')%nat)
    /\ (forall (j : nat) cj, (j < k)%nat -> Outputs cfg !! j = Some cj ->
          (forall (j' : nat) cj', (j < j' < k)%nat -> Outputs cfg !! j' = Some cj' ->
                                  Path cj' <> Path cj) ->
          outputs m' !! Path cj = Some (List.length heap + j)%nat)
    /\ (forall (p : string) (ptr : nat), outputs m' !! p = Some ptr ->
          (List.length heap <= ptr < List.length heap + k)%nat)
    /\ heap' !! (List.length heap + k)%nat =
         match env k with StartFails => Some (NewOutput c) | _ => None end
    /\ (forall heap2 strm2 env2,
          Start m' heap2 strm2 env2 = (m', heap2, Some ErrAlreadyActive)).
Proof.
  intros Hact Houts Hcfg Hen Hk Hpre Hfail.
  pose proof (lookup_lt_Some _ _ _ Hk) as Hklt.
  set (pre := take k (Outputs cfg)).
  assert (List.length pre = k) as Hlen by (subst pre; rewrite length_take; lia).
  assert (forall (j : nat) cj, (j < k)%nat ->
            Outputs cfg !! j = Some cj -> pre !! j = Some cj) as Hin.
  { intros j cj Hj H. subst pre. now rewrite lookup_take_lt. }
  assert (forall (j : nat) cj, pre !! j = Some cj ->
            (j < k)%nat /\ Outputs cfg !! j = Some cj) as Hout.
  { intros j cj H. pose proof (lookup_lt_Some _ _ _ H) as Hj. rewrite Hlen in Hj.
    split; [exact Hj|]. subst pre. now rewrite lookup_take_lt in H. }
  pose proof (start_outputs_prefix env pre 0 c (drop (S k) (Outputs cfg)) ∅ heap) as Hrun.
  rewrite Hlen in Hrun. simpl in Hrun.
  unfold pre in Hrun at 1. rewrite (take_drop_middle _ _ _ Hk) in Hrun.
  specialize (Hrun Hpre).
  set (outs' := register pre (List.length heap) ∅) in *.
  set (run := map (fun c0 => started (NewOutput c0)) pre) in *.
  assert (List.length run = k) as Hrlen by (subst run; now rewrite length_map).
  set (heap' := match env k with
                | StartFails => (heap ++ run) ++ [NewOutput c]
                | _ => heap ++ run
                end).
  exists (mkManager (config m) (Some strm) outs' true), heap'.
  split.
  { unfold Start. rewrite Hact, Hcfg, Hen, Houts. simpl. rewrite Hrun.
    subst heap'. destruct (env k); [reflexivity | reflexivity | contradiction]. }
  split; [reflexivity|].
  split.
  { subst heap'. destruct (env k);
      [exists run | exists (run ++ [NewOutput c]) | exists run];
      try reflexivity. now rewrite app_assoc. }
  assert (forall (j : nat) cj, (j < k)%nat -> Outputs cfg !! j = Some cj ->
            heap' !! (List.length heap + j)%nat = Some (started (NewOutput cj))) as Hheap.
  { intros j cj Hj H.
    assert ((heap ++ run) !! (List.length heap + j)%nat = Some (started (NewOutput cj)))
      as Hl.
    { rewrite lookup_app_r by lia.
      replace (List.length heap + j - List.length heap)%nat with j by lia.
      subst run. rewrite list_lookup_fmap, (Hin j cj Hj H). reflexivity. }
    subst heap'. destruct (env k); try exact Hl.
    rewrite lookup_app_l; [exact Hl|]. rewrite length_app. lia. }
  split; [intros j cj Hj H; split; [now apply Hheap | reflexivity]|].
  split.
  { intros j cj Hj H.
    destruct (register_key pre (List.length heap) ∅ j cj (Hin j cj Hj H))
      as (j' & cj' & Hle & Hj' & Hp & Hl).
    destruct (Hout j' cj' Hj') as [Hj'k Hj'o].
    exists j', cj'. repeat split; auto. }
  split.
  { intros j cj Hj H Hlater. simpl.
    apply register_last; [now apply Hin|].
    intros j' cj' Hlt Hj'. destruct (Hout j' cj' Hj') as [Hj'k Hj'o].
    apply (Hlater j' cj'); [lia | exact Hj'o]. }
  split.
  { intros p ptr Hl. simpl in Hl.
    apply register_values in Hl as [Hl|(j & cj & Hj & _ & ->)].
    - rewrite lookup_empty in Hl. discriminate.
    - destruct (Hout j cj Hj). lia. }
  split.
  { subst heap'. destruct (env k).
    - apply lookup_ge_None. rewrite length_app. lia.
    - rewrite lookup_app_r by (rewrite length_app; lia).
      rewrite length_app, Hrlen.
      now replace (List.length heap + k - (List.length heap + k))%nat with O by lia.
    - contradiction. }
  intros heap2 strm2 env2. reflexivity.
Qed.

Definition two_outputs : Config :=
  mkCfg true [mkConfig "live/in-720p" "video" None None;
              mkConfig "live/in-audio" "audio" None None].

Definition second_fails (i : nat) : start_env :=
  match i with O => Started | _ => StartFails end.

Lemma Start_failure_no_rollback_witness :
  exists m' heap',
    Start (NewManager (Some two_outputs)) [] 7%nat second_fails =
      (m', heap', Some (ErrStart "live/in-audio"))
    /\ active m' = true
    /\ outputs m' !! ("live/in-720p" : string) = Some 0%nat
    /\ outputs m' !! ("live/in-audio" : string) = None
    /\ (o_active <$> heap' !! 0%nat) = Some true.
Proof.
  destruct (Start_failure_no_rollback
              (NewManager (Some two_outputs)) [] 7%nat second_fails two_outputs 1%nat
              (mkConfig "live/in-audio" "audio" None None))
    as (m' & heap' & HS & Hact & _ & Hrun & _ & Hreg & Hval & _).
  - reflexivity.
  - reflexivity.
  - reflexivity.
  - reflexivity.
  - reflexivity.
  - intros j Hj. assert (j = O) as -> by lia. reflexivity.
  - discriminate.
  - exists m', heap'. split; [exact HS|]. split; [exact Hact|].
    split.
    + apply (Hreg 0%nat (mkConfig "live/in-720p" "video" None None));
        [lia | reflexivity |].
      intros j' cj' Hj'. lia.
    + split.
      * destruct (outputs m' !! ("live/in-audio" : string)) as [ptr|] eqn:E;
          [|reflexivity].
        exfalso. injection HS as <- _. vm_compute in E. discriminate E.
      * destruct (Hrun 0%nat (mkConfig "live/in-720p" "video" None None))
          as [H _]; [lia | reflexivity |].
        simpl in H. rewrite H. reflexivity.
Defined.

End Transcoder.

(* ===================================================================== *)
(** ** mmxplayer : the adaptive layer controllers (browser side)          *)
(* ===================================================================== *)

Module Player.

(** A MediaMTXWebRTCReader as the controller sees it: the level index its
    callbacks were created for, whether close() was called on it, and the
    [trackHandled] variable of the closure (mixabr only). *)
Record ReaderInfo : Type := mkReader {
  r_index : Z;
  r_closed : bool;
  r_trackHandled : bool
}.

(** The readers created so far; a reader is named by its position. *)
Definition new_reader (index : Z) (rs : list ReaderInfo) : list ReaderInfo :=
  rs ++ [mkReader index false false].

(** reader.close() *)
Definition close_reader (rid : nat) (rs : list ReaderInfo) : list ReaderInfo :=
  match rs !! rid with
  | Some r => <[rid := mkReader (r_index r) true (r_trackHandled r)]> rs
  | None => rs
  end.

Definition set_trackHandled (rid : nat) (rs : list ReaderInfo) : list ReaderInfo :=
  match rs !! rid with
  | Some r => <[rid := mkReader (r_index r) (r_closed r) true]> rs
  | None => rs
  end.

(** The WHEP sessions that are open: readers created and not closed. *)
Definition open_sessions (rs : list ReaderInfo) : nat :=
  List.length (filter (fun r => r_closed r = false) rs).

Definition is_closed (rid : nat) (rs : list ReaderInfo) : bool :=
  match rs !! rid with Some r => r_closed r | None => false end.

(** A pending [setTimeout(() => this.loadLevel(...))]: the argument is either
    a value fixed when the timer was set, or [this.lastSuccessfulLevelIdx],
    read when the timer fires. *)
Inductive timer : Type :=
| LoadIndex (index : Z)
| LoadLastSuccessful.

(** A level of the table: its id and whether it has a fallback stream. *)
Record Level : Type := mkLevel { l_id : string; l_fallback : bool }.

(** [levels.findIndex(l => l.id === levelId)], [-1] when there is none. *)
Fixpoint findIndex (levelId : string) (levels : list Level) : Z :=
  match levels with
  | [] => -1
  | l :: rest =>
      if String.eqb (l_id l) levelId then 0
      else let r := findIndex levelId rest in
           if r =? -1 then -1 else r + 1
  end.

(* --------------------------------------------------------------------- *)
(** *** mmxplayer/mmxplayer.js (simulcast player) *)

Module Sim.

Definition BASE_PENALTY_TIME : Z := 30000.
Definition MAX_PENALTY_TIME : Z := 120000.
Definition SWITCH_COOLDOWN : Z := 5.

Definition SIMULCAST_LEVELS : list Level :=
  [mkLevel "high" false; mkLevel "medium" false; mkLevel "low" false;
   mkLevel "audio" false].

Record MMXPlayer : Type := mk {
  levels : list Level;
  currentReader : option nat;
  currentLevelIdx : Z;
  isAuto : bool;
  isSwitching : bool;
  switchCooldownTimer : Z;
  connectionStartTime : Z;
  penaltyBox : gmap Z Z;
  failureCounts : gmap Z Z;
  readers : list ReaderInfo;       (* every reader constructed so far *)
  timers : list timer              (* pending setTimeout(() => loadLevel(i)) *)
}.

Definition constructor (now : Z) : MMXPlayer :=
  mk SIMULCAST_LEVELS None 0 true false 0 now ∅ ∅ [] [].

Definition loadLevel (index : Z) (p : MMXPlayer) : MMXPlayer :=
  if (index <? 0) || (index >=? Z.of_nat (List.length (levels p))) then p
  else if isSwitching p && (currentLevelIdx p =? index) then p
  else
    (* this.isSwitching = true; stop the old reader *)
    let rs := match currentReader p with
              | Some r => close_reader r (readers p)
              | None => readers p
              end in
    (* currentReader = null; new MediaMTXWebRTCReader({...}) *)
    mk (levels p) None (currentLevelIdx p) (isAuto p) true
       (switchCooldownTimer p) (connectionStartTime p)
       (penaltyBox p) (failureCounts p) (new_reader index rs) (timers p).

(** The onError callback given to the reader [rid]. *)
Definition onError (rid : nat) (p : MMXPlayer) : MMXPlayer :=
  match readers p !! rid with
  | None => p
  | Some r =>
      let index := r_index r in
      let ts := if isAuto p && (index <? Z.of_nat (List.length (levels p)) - 1)
                then timers p ++ [LoadIndex (index + 1)] else timers p in
      mk (levels p) (currentReader p) (currentLevelIdx p) (isAuto p) false
         (switchCooldownTimer p) (connectionStartTime p)
         (penaltyBox p) (failureCounts p) (readers p) ts
  end.

(** The onTrack callback given to the reader [rid]. *)
Definition onTrack (rid : nat) (now : Z) (p : MMXPlayer) : MMXPlayer :=
  match readers p !! rid with
  | None => p
  | Some r =>
      mk (levels p) (Some rid) (r_index r) (isAuto p) false
         SWITCH_COOLDOWN now (penaltyBox p) (failureCounts p) (readers p) (timers p)
  end.

(** manualSwitch(levelId); [None] stands for 'auto'. *)
Definition manualSwitch (levelId : option string) (p : MMXPlayer) : MMXPlayer :=
  match levelId with
  | None =>
      mk (levels p) (currentReader p) (currentLevelIdx p) true (isSwitching p)
         (switchCooldownTimer p) (connectionStartTime p)
         (penaltyBox p) (failureCounts p) (readers p) (timers p)
  | Some id =>
      let p1 := mk (levels p) (currentReader p) (currentLevelIdx p) false
                   (isSwitching p) (switchCooldownTimer p) (connectionStartTime p)
                   (penaltyBox p) (failureCounts p) (readers p) (timers p) in
      let idx := findIndex id (levels p) in
      if idx =? -1 then p1 else loadLevel idx p1
  end.

Definition destroy (p : MMXPlayer) : MMXPlayer :=
  match currentReader p with
  | Some r =>
      mk (levels p) (currentReader p) (currentLevelIdx p) (isAuto p) (isSwitching p)
         (switchCooldownTimer p) (connectionStartTime p)
         (penaltyBox p) (failureCounts p) (close_reader r (readers p)) (timers p)
  | None => p
  end.

(** start(): level 0 is loaded. *)
Definition start (p : MMXPlayer) : MMXPlayer :=
  loadLevel 0
    (mk (levels p) (currentReader p) 0 (isAuto p) (isSwitching p)
        (switchCooldownTimer p) (connectionStartTime p)
        (penaltyBox p) (failureCounts p) (readers p) (timers p)).

(** The oldest pending timer fires. *)
Definition fire (p : MMXPlayer) : MMXPlayer :=
  match timers p with
  | [] => p
  | t :: rest =>
      let p1 := mk (levels p) (currentReader p) (currentLevelIdx p) (isAuto p)
                   (isSwitching p) (switchCooldownTimer p) (connectionStartTime p)
                   (penaltyBox p) (failureCounts p) (readers p) rest in
      match t with
      | LoadIndex i => loadLevel i p1
      | LoadLastSuccessful => p1
      end
  end.

(** What can happen to the player.  The callbacks of a reader are only
    delivered while it is not closed. *)
Inductive event : Type :=
| Start
| LoadLevel (index : Z)
| OnTrack (rid : nat) (now : Z)
| OnError (rid : nat)
| ManualSwitch (levelId : option string)
| Fire
| Destroy.

Definition step (ev : event) (p : MMXPlayer) : MMXPlayer :=
  match ev with
  | Start => start p
  | LoadLevel i => loadLevel i p
  | OnTrack rid now => if is_closed rid (readers p) then p else onTrack rid now p
  | OnError rid => if is_closed rid (readers p) then p else onError rid p
  | ManualSwitch id => manualSwitch id p
  | Fire => fire p
  | Destroy => destroy p
  end.

Definition run (evs : list event) (p : MMXPlayer) : MMXPlayer :=
  fold_left (fun q ev => step ev q) evs p.

End Sim.

(* --------------------------------------------------------------------- *)
(** *** mmxplayer/mixabr/mmxplayer.js (codec fallback player) *)

Module Mix.

Definition BASE_PENALTY_TIME : Z := 60000.
Definition MAX_PENALTY_TIME : Z := 300000.
Definition SWITCH_COOLDOWN : Z := 8.

(** The level table built by start(), with and without HEVC support. *)
Definition levels_of (hasHevc : bool) : list Level :=
  if hasHevc
  then [mkLevel "1080p" true; mkLevel "720p" true; mkLevel "540p" false;
        mkLevel "audio" false]
  else [mkLevel "1080p" false; mkLevel "720p" false; mkLevel "540p" false;
        mkLevel "audio" false].

Record MMXPlayer : Type := mk {
  levels : list Level;
  currentReader : option nat;
  currentLevelIdx : Z;
  lastSuccessfulLevelIdx : Z;
  isAuto : bool;
  isSwitching : bool;
  activeLevelUsingFallback : bool;
  switchCooldownTimer : Z;
  connectionStartTime : Z;
  penaltyBox : gmap Z Z;
  failureCounts : gmap Z Z;
  readers : list ReaderInfo;
  timers : list timer
}.

Definition constructor (now : Z) : MMXPlayer :=
  mk [] None 0 (-1) true false false 0 now ∅ ∅ [] [].

Definition set_penalty (pb fc : gmap Z Z) (p : MMXPlayer) : MMXPlayer :=
  mk (levels p) (currentReader p) (currentLevelIdx p) (lastSuccessfulLevelIdx p)
     (isAuto p) (isSwitching p) (activeLevelUsingFallback p)
     (switchCooldownTimer p) (connectionStartTime p) pb fc (readers p) (timers p).

Definition set_flags (auto switching fallback : bool) (p : MMXPlayer) : MMXPlayer :=
  mk (levels p) (currentReader p) (currentLevelIdx p) (lastSuccessfulLevelIdx p)
     auto switching fallback
     (switchCooldownTimer p) (connectionStartTime p)
     (penaltyBox p) (failureCounts p) (readers p) (timers p).

Definition add_timer (index : timer) (p : MMXPlayer) : MMXPlayer :=
  mk (levels p) (currentReader p) (currentLevelIdx p) (lastSuccessfulLevelIdx p)
     (isAuto p) (isSwitching p) (activeLevelUsingFallback p)
     (switchCooldownTimer p) (connectionStartTime p)
     (penaltyBox p) (failureCounts p) (readers p) (timers p ++ [index]).

Definition level_fallback (index : Z) (p : MMXPlayer) : bool :=
  match levels p !! Z.to_nat index with
  | Some l => l_fallback l
  | None => false
  end.

Definition loadLevel (index : Z) (p : MMXPlayer) : MMXPlayer :=
  if (index <? 0) || (index >=? Z.of_nat (List.length (levels p))) then p
  else if isSwitching p && (currentLevelIdx p =? index)
          && negb (activeLevelUsingFallback p) then p
  else
    mk (levels p) (currentReader p) (currentLevelIdx p) (lastSuccessfulLevelIdx p)
       (isAuto p) true (activeLevelUsingFallback p)
       (switchCooldownTimer p) (connectionStartTime p)
       (penaltyBox p) (failureCounts p) (new_reader index (readers p)) (timers p).

(** [(this.failureCounts[index] || 0)] *)
Definition failures (index : Z) (fc : gmap Z Z) : Z := default 0 (fc !! index).

(** penalizeLevel(index), with [now] the value of Date.now(). *)
Definition penalizeLevel (index : Z) (now : Z) (p : MMXPlayer) : MMXPlayer :=
  let count := failures index (failureCounts p) + 1 in
  let penaltyTime := BASE_PENALTY_TIME * 2 ^ (count - 1) in
  let penaltyTime := if penaltyTime >? MAX_PENALTY_TIME then MAX_PENALTY_TIME
                     else penaltyTime in
  let banUntil := now + penaltyTime in
  set_penalty (<[index := banUntil]> (penaltyBox p))
              (<[index := count]> (failureCounts p)) p.

(** The onError callback given to the reader [rid]. *)
Definition onError (rid : nat) (now : Z) (p : MMXPlayer) : MMXPlayer :=
  match readers p !! rid with
  | None => p
  | Some r =>
      let index := r_index r in
      if level_fallback index p && negb (activeLevelUsingFallback p)
      then (* 1. retry the same level with its fallback stream *)
        add_timer (LoadIndex index) (set_flags (isAuto p) false true p)
      else
        (* 2. no fallback left: penalty *)
        let p1 := penalizeLevel index now p in
        let p2 := set_flags (isAuto p1) false (activeLevelUsingFallback p1) p1 in
        if negb (lastSuccessfulLevelIdx p2 =? -1)
           && negb (lastSuccessfulLevelIdx p2 =? index)
        then (* 3a. back to the last good level *)
          add_timer LoadLastSuccessful (set_flags (isAuto p2) false false p2)
        else if negb (isAuto p2) then p2            (* 3b. manual: stop *)
        else if index <? Z.of_nat (List.length (levels p2)) - 1
        then (* 3c. auto: one level down *)
          add_timer (LoadIndex (index + 1)) (set_flags (isAuto p2) false false p2)
        else p2
  end.

(** The onTrack callback given to the reader [rid]. *)
Definition onTrack (rid : nat) (now : Z) (p : MMXPlayer) : MMXPlayer :=
  match readers p !! rid with
  | None => p
  | Some r =>
      if r_trackHandled r then p
      else
        let rs := set_trackHandled rid (readers p) in
        let rs := match currentReader p with
                  | Some cur => if Nat.eqb cur rid then rs else close_reader cur rs
                  | None => rs
                  end in
        mk (levels p) (Some rid) (r_index r) (r_index r)
           (isAuto p) false (activeLevelUsingFallback p)
           SWITCH_COOLDOWN now (penaltyBox p) (failureCounts p) rs (timers p)
  end.

Definition manualSwitch (levelId : option string) (p : MMXPlayer) : MMXPlayer :=
  match levelId with
  | None => set_flags true (isSwitching p) (activeLevelUsingFallback p) p
  | Some id =>
      let p1 := set_flags false (isSwitching p) (activeLevelUsingFallback p) p in
      let idx := findIndex id (levels p) in
      if idx =? -1 then p1
      else
        (* clear the penalty, reset the fallback state, load *)
        let p2 := set_penalty (delete idx (penaltyBox p1))
                              (<[idx := 0]> (failureCounts p1)) p1 in
        loadLevel idx (set_flags false (isSwitching p2) false p2)
  end.

Definition destroy (p : MMXPlayer) : MMXPlayer :=
  match currentReader p with
  | Some r =>
      mk (levels p) (currentReader p) (currentLevelIdx p) (lastSuccessfulLevelIdx p)
         (isAuto p) (isSwitching p) (activeLevelUsingFallback p)
         (switchCooldownTimer p) (connectionStartTime p)
         (penaltyBox p) (failureCounts p) (close_reader r (readers p)) (timers p)
  | None => p
  end.

(** start(): the table is built, level 0 is loaded. *)
Definition start (hasHevc : bool) (p : MMXPlayer) : MMXPlayer :=
  loadLevel 0
    (mk (levels_of hasHevc) (currentReader p) 0 (lastSuccessfulLevelIdx p)
        (isAuto p) (isSwitching p) (activeLevelUsingFallback p)
        (switchCooldownTimer p) (connectionStartTime p)
        (penaltyBox p) (failureCounts p) (readers p) (timers p)).

(** The oldest pending timer fires. *)
Definition fire (p : MMXPlayer) : MMXPlayer :=
  match timers p with
  | [] => p
  | t :: rest =>
      let p1 := mk (levels p) (currentReader p) (currentLevelIdx p)
                   (lastSuccessfulLevelIdx p) (isAuto p) (isSwitching p)
                   (activeLevelUsingFallback p) (switchCooldownTimer p)
                   (connectionStartTime p) (penaltyBox p) (failureCounts p)
                   (readers p) rest in
      match t with
      | LoadIndex i => loadLevel i p1
      | LoadLastSuccessful => loadLevel (lastSuccessfulLevelIdx p1) p1
      end
  end.

Inductive event : Type :=
| Start (hasHevc : bool)
| LoadLevel (index : Z)
| OnTrack (rid : nat) (now : Z)
| OnError (rid : nat) (now : Z)
| ManualSwitch (levelId : option string)
| Fire
| Destroy.

Definition step (ev : event) (p : MMXPlayer) : MMXPlayer :=
  match ev with
  | Start hasHevc => start hasHevc p
  | LoadLevel i => loadLevel i p
  | OnTrack rid now => if is_closed rid (readers p) then p else onTrack rid now p
  | OnError rid now => if is_closed rid (readers p) then p else onError rid now p
  | ManualSwitch id => manualSwitch id p
  | Fire => fire p
  | Destroy => destroy p
  end.

Definition run (evs : list event) (p : MMXPlayer) : MMXPlayer :=
  fold_left (fun q ev => step ev q) evs p.

(** Failure counts start at 0 and only grow. *)
Definition counts_nonneg (fc : gmap Z Z) : Prop :=
  forall (i c : Z), fc !! i = Some c -> 0 <= c.

End Mix.

(* --------------------------------------------------------------------- *)
(** *** Properties of the players: switching *)

Lemma is_closed_close rid rs :
  (rid < List.length rs)%nat -> is_closed rid (close_reader rid rs) = true.
Proof.
  intros Hlt. unfold is_closed, close_reader.
  destruct (rs !! rid) as [r|] eqn:E.
  - now rewrite list_lookup_insert_eq by exact Hlt.
  - apply lookup_ge_None in E. lia.
Qed.

Lemma is_closed_new rid index rs :
  (rid < List.length rs)%nat -> is_closed rid (new_reader index rs) = is_closed rid rs.
Proof.
  intros Hlt. unfold is_closed, new_reader. now rewrite lookup_app_l by exact Hlt.
Qed.

Lemma length_close_reader rid rs : List.length (close_reader rid rs) = List.length rs.
Proof.
  unfold close_reader. destruct (rs !! rid); [apply length_insert | reflexivity].
Qed.

Lemma lookup_new_reader index rs :
  new_reader index rs !! List.length rs = Some (mkReader index false false).
Proof. unfold new_reader. apply list_lookup_middle. reflexivity. Qed.

Lemma open_sessions_new index rs :
  open_sessions (new_reader index rs) = S (open_sessions rs).
Proof.
  unfold open_sessions, new_reader. rewrite filter_app, length_app.
  rewrite filter_cons_True by reflexivity. simpl. lia.
Qed.

Lemma is_closed_new_any rid index rs :
  is_closed rid (new_reader index rs) = is_closed rid rs.
Proof.
  unfold is_closed, new_reader.
  destruct (decide (rid < List.length rs)%nat) as [Hlt|Hge].
  - now rewrite lookup_app_l by exact Hlt.
  - rewrite lookup_app_r by lia. rewrite (lookup_ge_None_2 rs rid) by lia.
    destruct (rid - List.length rs)%nat as [|n]; [reflexivity|].
    now destruct n.
Qed.

Lemma length_set_trackHandled rid rs :
  List.length (set_trackHandled rid rs) = List.length rs.
Proof.
  unfold set_trackHandled. destruct (rs !! rid); [apply length_insert | reflexivity].
Qed.

(** The current reader, if any, is one of the readers constructed. *)
Definition sim_wf (p : Sim.MMXPlayer) : Prop :=
  forall r, Sim.currentReader p = Some r -> (r < List.length (Sim.readers p))%nat.

Definition mix_wf (p : Mix.MMXPlayer) : Prop :=
  forall r, Mix.currentReader p = Some r -> (r < List.length (Mix.readers p))%nat.

Lemma sim_loadLevel_wf index p : sim_wf p -> sim_wf (Sim.loadLevel index p).
Proof.
  unfold sim_wf, Sim.loadLevel. intros H.
  destruct ((index <? 0) || (index >=? Z.of_nat (List.length (Sim.levels p))));
    [exact H|].
  destruct (Sim.isSwitching p && (Sim.currentLevelIdx p =? index)); [exact H|].
  simpl. discriminate.
Qed.

Lemma sim_step_wf ev p : sim_wf p -> sim_wf (Sim.step ev p).
Proof.
  intros H. destruct ev as [|i|rid now|rid|id| |]; simpl.
  - apply sim_loadLevel_wf. exact H.
  - now apply sim_loadLevel_wf.
  - destruct (is_closed rid (Sim.readers p)); [exact H|].
    unfold Sim.onTrack. destruct (Sim.readers p !! rid) as [r|] eqn:E; [|exact H].
    intros r0 [= <-]. simpl. now apply lookup_lt_Some in E.
  - destruct (is_closed rid (Sim.readers p)); [exact H|].
    unfold Sim.onError. destruct (Sim.readers p !! rid); exact H.
  - unfold Sim.manualSwitch. destruct id as [id|]; [|exact H].
    destruct (findIndex id (Sim.levels p) =? -1); [exact H|].
    apply sim_loadLevel_wf. exact H.
  - unfold Sim.fire. destruct (Sim.timers p) as [|[i|] rest]; [exact H | | exact H].
    apply sim_loadLevel_wf. exact H.
  - unfold Sim.destroy. destruct (Sim.currentReader p) as [r|] eqn:E; [|exact H].
    intros r0 Hr0. simpl in *. rewrite length_close_reader. apply H. congruence.
Qed.

Lemma sim_run_wf evs : forall p, sim_wf p -> sim_wf (Sim.run evs p).
Proof.
  unfold Sim.run. induction evs as [|ev evs IH]; intros p H; simpl; [exact H|].
  apply IH. now apply sim_step_wf.
Qed.

Lemma mix_loadLevel_wf index p : mix_wf p -> mix_wf (Mix.loadLevel index p).
Proof.
  unfold mix_wf, Mix.loadLevel. intros H.
  destruct ((index <? 0) || (index >=? Z.of_nat (List.length (Mix.levels p))));
    [exact H|].
  destruct (Mix.isSwitching p && (Mix.currentLevelIdx p =? index)
            && negb (Mix.activeLevelUsingFallback p)); [exact H|].
  simpl. intros r Hr. unfold new_reader. rewrite length_app. simpl.
  specialize (H r Hr). lia.
Qed.

Lemma mix_onError_readers rid now p :
  Mix.readers (Mix.onError rid now p) = Mix.readers p
  /\ Mix.currentReader (Mix.onError rid now p) = Mix.currentReader p.
Proof.
  unfold Mix.onError. destruct (Mix.readers p !! rid) as [r|]; [|auto].
  destruct (Mix.level_fallback (r_index r) p
            && negb (Mix.activeLevelUsingFallback p)); [simpl; auto|].
  cbv zeta.
  repeat match goal with |- context [if ?b then _ else _] => destruct b end;
    simpl; auto.
Qed.

Lemma mix_step_wf ev p : mix_wf p -> mix_wf (Mix.step ev p).
Proof.
  intros H. destruct ev as [h|i|rid now|rid now|id| |]; simpl.
  - apply mix_loadLevel_wf. exact H.
  - now apply mix_loadLevel_wf.
  - destruct (is_closed rid (Mix.readers p)); [exact H|].
    unfold Mix.onTrack. destruct (Mix.readers p !! rid) as [r|] eqn:E; [|exact H].
    destruct (r_trackHandled r); [exact H|].
    intros r0 [= <-]. simpl. apply lookup_lt_Some in E.
    destruct (Mix.currentReader p) as [cur|];
      [destruct (Nat.eqb cur rid)|];
      rewrite ?length_close_reader, length_set_trackHandled; exact E.
  - destruct (is_closed rid (Mix.readers p)); [exact H|].
    destruct (mix_onError_readers rid now p) as [Hr Hc].
    intros r. rewrite Hr, Hc. apply H.
  - unfold Mix.manualSwitch. destruct id as [id|]; [|exact H].
    destruct (findIndex id (Mix.levels p) =? -1); [exact H|].
    apply mix_loadLevel_wf. exact H.
  - unfold Mix.fire. destruct (Mix.timers p) as [|[i|] rest]; [exact H | |];
      apply mix_loadLevel_wf; exact H.
  - unfold Mix.destroy. destruct (Mix.currentReader p) as [r|] eqn:E; [|exact H].
    intros r0 Hr0. simpl in *. rewrite length_close_reader. apply H. congruence.
Qed.

Lemma mix_run_wf evs : forall p, mix_wf p -> mix_wf (Mix.run evs p).
Proof.
  unfold Mix.run. induction evs as [|ev evs IH]; intros p H; simpl; [exact H|].
  apply IH. now apply mix_step_wf.
Qed.

Lemma mix_loadLevel_closed index p rid :
  is_closed rid (Mix.readers (Mix.loadLevel index p)) = is_closed rid (Mix.readers p).
Proof.
  unfold Mix.loadLevel.
  destruct ((index <? 0) || (index >=? Z.of_nat (List.length (Mix.levels p))));
    [reflexivity|].
  destruct (Mix.isSwitching p && (Mix.currentLevelIdx p =? index)
            && negb (Mix.activeLevelUsingFallback p)); [reflexivity|].
  simpl. apply is_closed_new_any.
Qed.

(** In the codec fallback player only an ontrack handler and destroy() close
    a reader. *)
Lemma mix_closers ev p rid :
  match ev with Mix.OnTrack _ _ | Mix.Destroy => False | _ => True end ->
  is_closed rid (Mix.readers (Mix.step ev p)) = is_closed rid (Mix.readers p).
Proof.
  destruct ev as [h|i|r now|r now|id| |]; simpl; intros Hev; try contradiction.
  - unfold Mix.start. now rewrite mix_loadLevel_closed.
  - apply mix_loadLevel_closed.
  - destruct (is_closed r (Mix.readers p)); [reflexivity|].
    now rewrite (proj1 (mix_onError_readers r now p)).
  - unfold Mix.manualSwitch. destruct id as [id|]; [|reflexivity].
    destruct (findIndex id (Mix.levels p) =? -1); [reflexivity|].
    now rewrite mix_loadLevel_closed.
  - unfold Mix.fire. destruct (Mix.timers p) as [|[i|] rest]; [reflexivity | |];
      now rewrite mix_loadLevel_closed.
Qed.

Lemma is_closed_close_ne r rid rs :
  r <> rid -> is_closed rid (close_reader r rs) = is_closed rid rs.
Proof.
  intros Hne. unfold is_closed, close_reader.
  destruct (rs !! r) as [x|]; [|reflexivity].
  now rewrite list_lookup_insert_ne by exact Hne.
Qed.

Lemma is_closed_set_trackHandled r rid rs :
  is_closed rid (set_trackHandled r rs) = is_closed rid rs.
Proof.
  unfold is_closed, set_trackHandled.
  destruct (rs !! r) as [x|] eqn:E; [|reflexivity].
  destruct (decide (r = rid)) as [<-|Hne].
  - rewrite list_lookup_insert_eq by (now apply lookup_lt_Some in E).
    now rewrite E.
  - now rewrite list_lookup_insert_ne by exact Hne.
Qed.

Definition sim_is_OnTrack (ev : Sim.event) : Prop :=
  match ev with Sim.OnTrack _ _ => True | _ => False end.

Definition sim_is_OnTrack_of (rid : nat) (ev : Sim.event) : Prop :=
  match ev with Sim.OnTrack r _ => r = rid | _ => False end.

Definition mix_is_OnTrack (ev : Mix.event) : Prop :=
  match ev with Mix.OnTrack _ _ => True | _ => False end.

Definition mix_is_Destroy (ev : Mix.event) : Prop :=
  match ev with Mix.Destroy => True | _ => False end.

(** loadLevel of the simulcast player closes the current reader and no
    other, and leaves no reader current unless it returns early. *)
Lemma sim_loadLevel_others index p :
  (Sim.currentReader (Sim.loadLevel index p) = Sim.currentReader p
   \/ Sim.currentReader (Sim.loadLevel index p) = None)
  /\ (forall rid, Sim.currentReader p <> Some rid ->
        is_closed rid (Sim.readers (Sim.loadLevel index p))
        = is_closed rid (Sim.readers p)).
Proof.
  unfold Sim.loadLevel.
  destruct ((index <? 0) || (index >=? Z.of_nat (List.length (Sim.levels p))));
    [auto|].
  destruct (Sim.isSwitching p && (Sim.currentLevelIdx p =? index)); [auto|].
  simpl. split; [now right|]. intros rid Hne. rewrite is_closed_new_any.
  destruct (Sim.currentReader p) as [r|]; [|reflexivity].
  apply is_closed_close_ne. congruence.
Qed.

Lemma sim_loadLevel_rel index q p :
  Sim.currentReader q = Sim.currentReader p -> Sim.readers q = Sim.readers p ->
  (Sim.currentReader (Sim.loadLevel index q) = Sim.currentReader p
   \/ Sim.currentReader (Sim.loadLevel index q) = None)
  /\ (forall rid, Sim.currentReader p <> Some rid ->
        is_closed rid (Sim.readers (Sim.loadLevel index q))
        = is_closed rid (Sim.readers p)).
Proof.
  intros Hc Hr. rewrite <- Hc, <- Hr. apply sim_loadLevel_others.
Qed.

(** In the simulcast player only an ontrack handler makes a reader the
    current one, and only the current reader is ever closed. *)
Lemma sim_step_others ev p :
  (~ sim_is_OnTrack ev ->
     Sim.currentReader (Sim.step ev p) = Sim.currentReader p
     \/ Sim.currentReader (Sim.step ev p) = None)
  /\ (forall rid, sim_is_OnTrack_of rid ev \/
                  Sim.currentReader (Sim.step ev p) = Sim.currentReader p \/
                  Sim.currentReader (Sim.step ev p) <> Some rid)
  /\ (forall rid, Sim.currentReader p <> Some rid ->
        is_closed rid (Sim.readers (Sim.step ev p)) = is_closed rid (Sim.readers p)).
Proof.
  assert (forall p',
            (Sim.currentReader p' = Sim.currentReader p
             \/ Sim.currentReader p' = None)
            /\ (forall rid, Sim.currentReader p <> Some rid ->
                  is_closed rid (Sim.readers p') = is_closed rid (Sim.readers p)) ->
            (~ sim_is_OnTrack ev ->
               Sim.currentReader p' = Sim.currentReader p
               \/ Sim.currentReader p' = None)
            /\ (forall rid, sim_is_OnTrack_of rid ev \/
                            Sim.currentReader p' = Sim.currentReader p \/
                            Sim.currentReader p' <> Some rid)
            /\ (forall rid, Sim.currentReader p <> Some rid ->
                  is_closed rid (Sim.readers p') = is_closed rid (Sim.readers p)))
    as Hthree.
  { intros p' [Hc Hk]. split; [auto|]. split; [|exact Hk].
    intros rid. right. destruct Hc as [Hc|Hc]; [now left | right; congruence]. }
  destruct ev as [|i|rid0 now|rid0|id| |]; simpl.
  - apply Hthree. unfold Sim.start. now apply sim_loadLevel_rel.
  - apply Hthree. now apply sim_loadLevel_rel.
  - split; [intros H; now contradiction H|].
    split.
    + intros rid. destruct (is_closed rid0 (Sim.readers p)); [right; now left|].
      unfold Sim.onTrack. destruct (Sim.readers p !! rid0); [|right; now left].
      simpl. destruct (decide (rid0 = rid)) as [->|Hne]; [now left|].
      right. right. congruence.
    + intros rid Hne. destruct (is_closed rid0 (Sim.readers p)); [reflexivity|].
      unfold Sim.onTrack. now destruct (Sim.readers p !! rid0).
  - apply Hthree. destruct (is_closed rid0 (Sim.readers p)); [auto|].
    unfold Sim.onError. destruct (Sim.readers p !! rid0); auto.
  - apply Hthree. unfold Sim.manualSwitch. destruct id as [id|]; [|simpl; auto].
    destruct (findIndex id (Sim.levels p) =? -1); [simpl; auto|].
    now apply sim_loadLevel_rel.
  - apply Hthree. unfold Sim.fire.
    destruct (Sim.timers p) as [|[i|] rest]; [auto | | simpl; auto].
    now apply sim_loadLevel_rel.
  - apply Hthree. unfold Sim.destroy.
    destruct (Sim.currentReader p) as [r|] eqn:E; [|auto].
    simpl. split; [auto|].
    intros rid Hne. apply is_closed_close_ne. congruence.
Qed.

(** From a switch request on, no reader is attached until an ontrack
    handler runs. *)
Lemma sim_gap evs : forall p,
  Sim.currentReader p = None -> Forall (fun ev => ~ sim_is_OnTrack ev) evs ->
  Sim.currentReader (Sim.run evs p) = None.
Proof.
  unfold Sim.run. induction evs as [|ev evs IH]; intros p Hn Hall; [exact Hn|].
  apply Forall_cons in Hall as [Hev Hall]. simpl. apply IH; [|exact Hall].
  destruct (proj1 (sim_step_others ev p) Hev) as [H|H]; congruence.
Qed.

(** A reader that is not the current one and whose ontrack does not fire is
    never closed and never becomes the current one. *)
Lemma sim_pending_stays evs rid : forall p,
  Sim.currentReader p <> Some rid ->
  Forall (fun ev => ~ sim_is_OnTrack_of rid ev) evs ->
  Sim.currentReader (Sim.run evs p) <> Some rid
  /\ is_closed rid (Sim.readers (Sim.run evs p)) = is_closed rid (Sim.readers p).
Proof.
  unfold Sim.run. induction evs as [|ev evs IH]; intros p Hne Hall; [auto|].
  apply Forall_cons in Hall as [Hev Hall]. simpl.
  destruct (sim_step_others ev p) as (_ & Hc & Hk).
  assert (Sim.currentReader (Sim.step ev p) <> Some rid) as Hne'.
  { destruct (Hc rid) as [H|[H|H]]; [contradiction | congruence | exact H]. }
  destruct (IH _ Hne' Hall) as [G1 G2]. split; [exact G1|].
  rewrite G2. now apply Hk.
Qed.

Lemma mix_loadLevel_current index p :
  Mix.currentReader (Mix.loadLevel index p) = Mix.currentReader p.
Proof.
  unfold Mix.loadLevel.
  destruct ((index <? 0) || (index >=? Z.of_nat (List.length (Mix.levels p))));
    [reflexivity|].
  now destruct (Mix.isSwitching p && (Mix.currentLevelIdx p =? index)
                && negb (Mix.activeLevelUsingFallback p)).
Qed.

(** In the codec fallback player only an ontrack handler changes the current
    reader. *)
Lemma mix_step_current ev p :
  ~ mix_is_OnTrack ev -> Mix.currentReader (Mix.step ev p) = Mix.currentReader p.
Proof.
  destruct ev as [h|i|r now|r now|id| |]; simpl; intros Hev.
  - unfold Mix.start. now rewrite mix_loadLevel_current.
  - apply mix_loadLevel_current.
  - now contradiction Hev.
  - destruct (is_closed r (Mix.readers p)); [reflexivity|].
    apply (proj2 (mix_onError_readers r now p)).
  - unfold Mix.manualSwitch. destruct id as [id|]; [|reflexivity].
    destruct (findIndex id (Mix.levels p) =? -1); [reflexivity|].
    now rewrite mix_loadLevel_current.
  - unfold Mix.fire. destruct (Mix.timers p) as [|[i|] rest]; [reflexivity | |];
      now rewrite mix_loadLevel_current.
  - unfold Mix.destroy. destruct (Mix.currentReader p) eqn:E; [simpl|]; congruence.
Qed.

(** Until an ontrack handler or destroy() runs, the current reader stays
    attached and no reader is closed. *)
Lemma mix_overlap evs : forall p,
  Forall (fun ev => ~ mix_is_OnTrack ev /\ ~ mix_is_Destroy ev) evs ->
  Mix.currentReader (Mix.run evs p) = Mix.currentReader p
  /\ (forall rid, is_closed rid (Mix.readers (Mix.run evs p))
                  = is_closed rid (Mix.readers p)).
Proof.
  unfold Mix.run. induction evs as [|ev evs IH]; intros p Hall; [auto|].
  apply Forall_cons in Hall as [[H1 H2] Hall]. simpl.
  destruct (IH (Mix.step ev p) Hall) as [G1 G2]. split.
  - rewrite G1. now apply mix_step_current.
  - intros rid. rewrite G2. apply mix_closers.
    destruct ev; simpl in *; auto.
Qed.

(** The simulcast player has shown level 0 and is asked for level 1. *)
Definition sim_switch : list Sim.event :=
  [Sim.Start; Sim.OnTrack 0 1000; Sim.LoadLevel 1].

(** The codec fallback player in the same situation. *)
Definition mix_switch : list Mix.event :=
  [Mix.Start false; Mix.OnTrack 0 1000; Mix.LoadLevel 1].

(** C1, as stated, fails in both players.  In mmxplayer.js the prior reader
    (reader 0) is already closed and no reader is attached while the new
    reader (reader 1) is still waiting for its first ontrack; in
    mixabr/mmxplayer.js the prior and the new session are open together. *)
Lemma switch_counterexample :
  (let p := Sim.run sim_switch (Sim.constructor 0) in
   Sim.isSwitching p = true /\ is_closed 0 (Sim.readers p) = true
   /\ Sim.currentReader p = None
   /\ Sim.readers p !! 1%nat = Some (mkReader 1 false false))
  /\ (let p := Mix.run mix_switch (Mix.constructor 0) in
      Mix.isSwitching p = true /\ open_sessions (Mix.readers p) = 2%nat
      /\ Mix.currentReader p = Some 0%nat).
Proof. vm_compute. repeat split; reflexivity. Qed.

Definition in_range (index : Z) (levels : list Level) : Prop :=
  0 <= index < Z.of_nat (List.length levels).

(** C1 (amended).  In mmxplayer.js a loadLevel call that goes ahead closes
    the reader held in currentReader, if there is one, at the switch request,
    sets currentReader to null and then constructs the new reader; it closes
    no other reader, so a reader made by an earlier call whose ontrack has not
    fired (it is not in currentReader) stays open beside the new one.  From
    then on no reader is attached until the ontrack handler of some reader
    runs; that handler, of the new reader or of an older pending one, installs
    its reader and closes nothing.  A reader that is not the current one and
    whose ontrack does not fire is never closed and never becomes current.
    In mixabr/mmxplayer.js a loadLevel call that goes ahead closes nothing and
    leaves currentReader as it is: one more session is open, and until an
    ontrack handler or destroy() runs the current reader stays attached and
    no reader is closed.  The first ontrack of a reader closes the reader
    then held in currentReader when that is another reader (the prior reader
    in the ordinary switch, the newer reader when the ontrack of an older
    pending reader comes after it), closes no other, and installs its own
    reader; later ontrack events of that reader change nothing; destroy()
    closes the current reader, and nothing else closes a reader.  In both
    players the current reader is always one of the readers constructed
    before. *)
Theorem switch_discipline :
  (* mmxplayer.js: a switch that goes ahead *)
  (forall p index,
      in_range index (Sim.levels p) ->
      Sim.isSwitching p && (Sim.currentLevelIdx p =? index) = false ->
      sim_wf p ->
      let p' := Sim.loadLevel index p in
      Sim.currentReader p' = None
      /\ Sim.isSwitching p' = true
      /\ Sim.readers p' !! List.length (Sim.readers p) = Some (mkReader index false false)
      /\ List.length (Sim.readers p') = S (List.length (Sim.readers p))
      /\ (forall r, Sim.currentReader p = Some r -> is_closed r (Sim.readers p') = true)
      /\ (forall r, Sim.currentReader p <> Some r ->
            is_closed r (Sim.readers p') = is_closed r (Sim.readers p)))
  (* mmxplayer.js: no reader is attached until an ontrack handler runs *)
  /\ (forall p evs,
        Sim.currentReader p = None ->
        Forall (fun ev => ~ sim_is_OnTrack ev) evs ->
        Sim.currentReader (Sim.run evs p) = None)
  (* mmxplayer.js: the ontrack handler of any reader installs it *)
  /\ (forall p rid now r,
        Sim.readers p !! rid = Some r ->
        let p' := Sim.onTrack rid now p in
        Sim.currentReader p' = Some rid /\ Sim.readers p' = Sim.readers p
        /\ Sim.currentLevelIdx p' = r_index r /\ Sim.isSwitching p' = false)
  (* mmxplayer.js: a reader that is not current stays as it is *)
  /\ (forall p evs rid,
        Sim.currentReader p <> Some rid ->
        Forall (fun ev => ~ sim_is_OnTrack_of rid ev) evs ->
        Sim.currentReader (Sim.run evs p) <> Some rid
        /\ is_closed rid (Sim.readers (Sim.run evs p)) = is_closed rid (Sim.readers p))
  (* mixabr: a switch that goes ahead *)
  /\ (forall p index,
        in_range index (Mix.levels p) ->
        Mix.isSwitching p && (Mix.currentLevelIdx p =? index)
          && negb (Mix.activeLevelUsingFallback p) = false ->
        let p' := Mix.loadLevel index p in
        Mix.currentReader p' = Mix.currentReader p
        /\ Mix.readers p' = Mix.readers p ++ [mkReader index false false]
        /\ open_sessions (Mix.readers p') = S (open_sessions (Mix.readers p))
        /\ Mix.isSwitching p' = true)
  (* mixabr: the current reader stays attached, and nothing is closed, until
     an ontrack handler or destroy() runs *)
  /\ (forall p evs,
        Forall (fun ev => ~ mix_is_OnTrack ev /\ ~ mix_is_Destroy ev) evs ->
        Mix.currentReader (Mix.run evs p) = Mix.currentReader p
        /\ (forall rid, is_closed rid (Mix.readers (Mix.run evs p))
                        = is_closed rid (Mix.readers p)))
  (* mixabr: the first ontrack of a reader *)
  /\ (forall p rid now r,
        Mix.readers p !! rid = Some r -> r_trackHandled r = false ->
        let p' := Mix.onTrack rid now p in
        Mix.currentReader p' = Some rid
        /\ Mix.isSwitching p' = false
        /\ (forall cur, Mix.currentReader p = Some cur -> cur <> rid ->
                        (cur < List.length (Mix.readers p))%nat ->
                        is_closed cur (Mix.readers p') = true)
        /\ (forall x, Mix.currentReader p <> Some x ->
                      is_closed x (Mix.readers p') = is_closed x (Mix.readers p))
        /\ is_closed rid (Mix.readers p') = r_closed r)
  (* mixabr: later ontrack events of the same reader *)
  /\ (forall p rid now r,
        Mix.readers p !! rid = Some r -> r_trackHandled r = true ->
        Mix.onTrack rid now p = p)
  (* mixabr: destroy() and the other events *)
  /\ (forall p r,
        Mix.currentReader p = Some r -> (r < List.length (Mix.readers p))%nat ->
        is_closed r (Mix.readers (Mix.destroy p)) = true)
  /\ (forall ev p rid,
        match ev with Mix.OnTrack _ _ | Mix.Destroy => False | _ => True end ->
        is_closed rid (Mix.readers (Mix.step ev p)) = is_closed rid (Mix.readers p))
  (* both: the current reader is one of the readers constructed *)
  /\ (forall evs now, sim_wf (Sim.run evs (Sim.constructor now)))
  /\ (forall evs now, mix_wf (Mix.run evs (Mix.constructor now))).
Proof.
  unfold in_range. repeat apply conj.
  - intros p index [Hlo Hhi] Hblk Hwf.
    pose proof (proj2 (sim_loadLevel_others index p)) as Hoth.
    unfold Sim.loadLevel in *.
    destruct (Z.ltb_spec index 0) as [?|_]; [lia|].
    destruct (Z.geb_spec index (Z.of_nat (List.length (Sim.levels p)))) as [?|_]; [lia|].
    rewrite Hblk in *. simpl in *. repeat split.
    + destruct (Sim.currentReader p) as [r|];
        rewrite <- ?(length_close_reader r (Sim.readers p)); apply lookup_new_reader.
    + unfold new_reader. rewrite length_app. simpl.
      destruct (Sim.currentReader p) as [r|]; rewrite ?length_close_reader; lia.
    + intros r Hcur. rewrite Hcur.
      rewrite is_closed_new by (rewrite length_close_reader; now apply Hwf).
      apply is_closed_close. now apply Hwf.
    + exact Hoth.
  - intros p evs. apply sim_gap.
  - intros p rid now r Hr. unfold Sim.onTrack. rewrite Hr. simpl. auto.
  - intros p evs rid. apply sim_pending_stays.
  - intros p index [Hlo Hhi] Hblk. unfold Mix.loadLevel.
    destruct (Z.ltb_spec index 0) as [?|_]; [lia|].
    destruct (Z.geb_spec index (Z.of_nat (List.length (Mix.levels p)))) as [?|_]; [lia|].
    rewrite Hblk. simpl. repeat split. apply open_sessions_new.
  - intros p evs. apply mix_overlap.
  - intros p rid now r Hr Hth. unfold Mix.onTrack. rewrite Hr, Hth. simpl.
    pose proof (lookup_lt_Some _ _ _ Hr) as Hrid.
    assert (forall rs', set_trackHandled rid (Mix.readers p) = rs' ->
              List.length rs' = List.length (Mix.readers p)
              /\ rs' !! rid = Some (mkReader (r_index r) (r_closed r) true)) as Hset.
    { intros rs' <-. unfold set_trackHandled. rewrite Hr.
      split; [apply length_insert | now apply list_lookup_insert_eq]. }
    destruct (Hset _ eq_refl) as [Hlen Hlk].
    repeat split.
    + intros cur Hcur Hne Hlt. rewrite Hcur.
      destruct (Nat.eqb_spec cur rid) as [?|_]; [contradiction|].
      apply is_closed_close. now rewrite Hlen.
    + intros x Hx. destruct (Mix.currentReader p) as [cur|];
        [|apply is_closed_set_trackHandled].
      destruct (Nat.eqb_spec cur rid) as [_|Hne];
        [apply is_closed_set_trackHandled|].
      rewrite is_closed_close_ne by congruence. apply is_closed_set_trackHandled.
    + destruct (Mix.currentReader p) as [cur|]; [|unfold is_closed; now rewrite Hlk].
      destruct (Nat.eqb_spec cur rid) as [_|Hne];
        [unfold is_closed; now rewrite Hlk|].
      unfold is_closed, close_reader.
      destruct (set_trackHandled rid (Mix.readers p) !! cur) as [c|];
        [|now rewrite Hlk].
      rewrite list_lookup_insert_ne by exact Hne. now rewrite Hlk.
  - intros p rid now r Hr Hth. unfold Mix.onTrack. now rewrite Hr, Hth.
  - intros p r Hcur Hlt. unfold Mix.destroy. rewrite Hcur. simpl.
    now apply is_closed_close.
  - exact mix_closers.
  - intros evs now. apply (sim_run_wf evs (Sim.constructor now)). discriminate.
  - intros evs now. apply (mix_run_wf evs (Mix.constructor now)). discriminate.
Qed.

Lemma switch_discipline_witness :
  let p := Sim.run [Sim.Start; Sim.OnTrack 0 1000] (Sim.constructor 0) in
  in_range 1 (Sim.levels p)
  /\ sim_wf p
  /\ Sim.currentReader p = Some 0%nat
  /\ is_closed 0 (Sim.readers (Sim.loadLevel 1 p)) = true
  /\ Sim.currentReader (Sim.loadLevel 1 p) = None.
Proof.
  intros p.
  assert (in_range 1 (Sim.levels p)) as Hr by (unfold in_range; simpl; lia).
  assert (sim_wf p) as Hwf by (intros r [= <-]; simpl; lia).
  split; [exact Hr|]. split; [exact Hwf|]. split; [reflexivity|].
  destruct (proj1 switch_discipline p 1 Hr eq_refl Hwf)
    as (Hn & _ & _ & _ & Hc & _).
  split; [apply Hc; reflexivity | exact Hn].
Defined.

(* --------------------------------------------------------------------- *)
(** *** Properties of the players: penalties *)

Lemma mix_loadLevel_penalty index p :
  Mix.penaltyBox (Mix.loadLevel index p) = Mix.penaltyBox p
  /\ Mix.failureCounts (Mix.loadLevel index p) = Mix.failureCounts p.
Proof.
  unfold Mix.loadLevel.
  destruct ((index <? 0) || (index >=? Z.of_nat (List.length (Mix.levels p))));
    [auto|].
  destruct (Mix.isSwitching p && (Mix.currentLevelIdx p =? index)
            && negb (Mix.activeLevelUsingFallback p)); auto.
Qed.



(** penalizeLevel keeps the counts non-negative. *)
Lemma penalizeLevel_counts_nonneg index now p :
  Mix.counts_nonneg (Mix.failureCounts p) ->
  Mix.counts_nonneg (Mix.failureCounts (Mix.penalizeLevel index now p)).
Proof.
  unfold Mix.counts_nonneg, Mix.penalizeLevel, Mix.failures. simpl.
  intros H i c. destruct (decide (index = i)) as [->|Hne].
  - rewrite lookup_insert_eq. intros [= <-].
    destruct (Mix.failureCounts p !! i) as [c0|] eqn:E; simpl; [|lia].
    specialize (H i c0 E). lia.
  - rewrite lookup_insert_ne by exact Hne. apply H.
Qed.






End Player.

(* ===================================================================== *)
(** ** mmxplayer/pk/reader.js and mmxplayer/whep/reader.js : WHEP readers  *)
(* ===================================================================== *)

Module Reader.

Inductive rstate : Type := getting_codecs | running | restarting | failed | closed.

(** An RTCIceCandidate as far as the SDP fragment uses it. *)
Record Candidate : Type := mkCandidate { sdpMLineIndex : Z; candidate : string }.

Record MediaMTXWebRTCReader : Type := mk {
  state : rstate;
  pc : option nat;                    (* RTCPeerConnection, None = null *)
  restartTimeout : option nat;
  offerData : option nat;
  sessionUrl : option string;
  queuedCandidates : list Candidate
}.

(** What a handler does to the outside. *)
Inductive effect : Type :=
| Patch (url : option string) (cs : list Candidate)
                                      (* fetch(sessionUrl, {method: 'PATCH', ...}) *)
| Delete (url : string)               (* fetch(sessionUrl, {method: 'DELETE'}) *)
| PcClose (p : nat)                   (* this.pc.close() *)
| SetRestartTimeout                   (* window.setTimeout(..., retryPause) *)
| ClearRestartTimeout
| Warn                                (* console.warn("Candidate patch failed:") *)
| OnError.                            (* this.conf.onError(...) *)

Definition rstate_eqb (a b : rstate) : bool :=
  match a, b with
  | getting_codecs, getting_codecs | running, running | restarting, restarting
  | failed, failed | closed, closed => true
  | _, _ => false
  end.

(** #sendLocalCandidates(candidates): one PATCH to the session URL. *)
Definition sendLocalCandidates (cs : list Candidate) (r : MediaMTXWebRTCReader)
  : list effect :=
  [Patch (sessionUrl r) cs].

(** #onLocalCandidate(evt), the same in both files; [None] is the null
    candidate that ends the gathering. *)
Definition onLocalCandidate (c : option Candidate) (r : MediaMTXWebRTCReader)
  : MediaMTXWebRTCReader * list effect :=
  if negb (rstate_eqb (state r) running) then (r, [])
  else
    match c with
    | None => (r, [])
    | Some c =>
        match sessionUrl r with
        | None =>
            (mk (state r) (pc r) (restartTimeout r) (offerData r) (sessionUrl r)
                (queuedCandidates r ++ [c]), [])
        | Some _ => (r, sendLocalCandidates [c] r)
        end
    end.

Definition pc_close (r : MediaMTXWebRTCReader) : list effect :=
  match pc r with Some p => [PcClose p] | None => [] end.

(* --------------------------------------------------------------------- *)
(** *** pk/reader.js *)

Module PK.

Definition handleError (next_timer : nat) (r : MediaMTXWebRTCReader)
  : MediaMTXWebRTCReader * list effect :=
  match state r with
  | running =>
      (mk restarting None (Some next_timer) None None [],
       pc_close r ++ [SetRestartTimeout; OnError])
  | getting_codecs =>
      (mk failed (pc r) (restartTimeout r) (offerData r) (sessionUrl r)
          (queuedCandidates r), [OnError])
  | _ => (r, [])
  end.

(** The handler of the response to the POST of #sendOffer: a status other
    than 201 throws, which the catch of #start turns into #handleError. *)
Definition sendOffer_response (status : Z) (location : string) (next_timer : nat)
           (r : MediaMTXWebRTCReader) : MediaMTXWebRTCReader * list effect :=
  if negb (status =? 201) then handleError next_timer r
  else
    let r1 := mk (state r) (pc r) (restartTimeout r) (offerData r) (Some location)
                 (queuedCandidates r) in
    match queuedCandidates r1 with
    | _ :: _ =>
        (mk (state r1) (pc r1) (restartTimeout r1) (offerData r1) (sessionUrl r1) [],
         sendLocalCandidates (queuedCandidates r1) r1)
    | [] => (r1, [])
    end.

(** The catch of the PATCH of #sendLocalCandidates. *)
Definition patch_failed (next_timer : nat) (r : MediaMTXWebRTCReader)
  : MediaMTXWebRTCReader * list effect :=
  (r, [Warn]).

Definition close (r : MediaMTXWebRTCReader) : MediaMTXWebRTCReader * list effect :=
  (mk closed None None None None [],
   pc_close r ++ match restartTimeout r with
                 | Some _ => [ClearRestartTimeout]
                 | None => []
                 end).

End PK.

(* --------------------------------------------------------------------- *)
(** *** whep/reader.js *)

Module WHEP.

Definition handleError (next_timer : nat) (r : MediaMTXWebRTCReader)
  : MediaMTXWebRTCReader * list effect :=
  match state r with
  | running =>
      (mk restarting None (Some next_timer) None None [],
       pc_close r
       ++ match sessionUrl r with Some u => [Delete u] | None => [] end
       ++ [SetRestartTimeout; OnError])
  | getting_codecs =>
      (mk failed (pc r) (restartTimeout r) (offerData r) (sessionUrl r)
          (queuedCandidates r), [OnError])
  | _ => (r, [])
  end.

Definition sendOffer_response (status : Z) (location : string) (next_timer : nat)
           (r : MediaMTXWebRTCReader) : MediaMTXWebRTCReader * list effect :=
  if negb (status =? 201) then handleError next_timer r
  else
    (mk (state r) (pc r) (restartTimeout r) (offerData r) (Some location)
        (queuedCandidates r), []).

Definition patch_failed (next_timer : nat) (r : MediaMTXWebRTCReader)
  : MediaMTXWebRTCReader * list effect :=
  handleError next_timer r.

Definition close (r : MediaMTXWebRTCReader) : MediaMTXWebRTCReader * list effect :=
  (mk closed (pc r) (restartTimeout r) (offerData r) (sessionUrl r)
      (queuedCandidates r),
   pc_close r ++ match restartTimeout r with
                 | Some _ => [ClearRestartTimeout]
                 | None => []
                 end).

End WHEP.

(** Local candidates arriving one after the other. *)
Fixpoint candidates (cs : list Candidate) (r : MediaMTXWebRTCReader)
  : MediaMTXWebRTCReader * list effect :=
  match cs with
  | [] => (r, [])
  | c :: rest =>
      let '(r1, e1) := onLocalCandidate (Some c) r in
      let '(r2, e2) := candidates rest r1 in
      (r2, e1 ++ e2)
  end.

(** A pk reader: candidates [before] arrive, then the 201 Created with the
    session URL, then the candidates [after]. *)
Definition pk_session (before : list Candidate) (location : string)
           (after : list Candidate) (r : MediaMTXWebRTCReader)
  : MediaMTXWebRTCReader * list effect :=
  let '(r1, e1) := candidates before r in
  let '(r2, e2) := PK.sendOffer_response 201 location 0 r1 in
  let '(r3, e3) := candidates after r2 in
  (r3, e1 ++ e2 ++ e3).

(** The same session on a whep reader. *)
Definition whep_session (before : list Candidate) (location : string)
           (after : list Candidate) (r : MediaMTXWebRTCReader)
  : MediaMTXWebRTCReader * list effect :=
  let '(r1, e1) := candidates before r in
  let '(r2, e2) := WHEP.sendOffer_response 201 location 0 r1 in
  let '(r3, e3) := candidates after r2 in
  (r3, e1 ++ e2 ++ e3).

(* --------------------------------------------------------------------- *)
(** *** Properties of the readers: trickle ICE *)

Definition set_queue (q : list Candidate) (r : MediaMTXWebRTCReader)
  : MediaMTXWebRTCReader :=
  mk (state r) (pc r) (restartTimeout r) (offerData r) (sessionUrl r) q.

Definition set_session (u : string) (q : list Candidate) (r : MediaMTXWebRTCReader)
  : MediaMTXWebRTCReader :=
  mk (state r) (pc r) (restartTimeout r) (offerData r) (Some u) q.

(** Without a session URL every candidate goes to the queue, in order, and
    nothing is sent. *)
Lemma candidates_queued cs : forall r,
  state r = running -> sessionUrl r = None ->
  candidates cs r = (set_queue (queuedCandidates r ++ cs) r, []).
Proof.
  induction cs as [|c cs IH]; intros r Hs Hu; simpl.
  - rewrite app_nil_r. now destruct r.
  - unfold onLocalCandidate. rewrite Hs, Hu. simpl.
    rewrite IH by reflexivity. unfold set_queue. simpl.
    rewrite Hs, Hu, <- app_assoc. reflexivity.
Qed.

(** With a session URL every candidate is sent in a PATCH of its own. *)
Lemma candidates_patched cs : forall r u,
  state r = running -> sessionUrl r = Some u ->
  candidates cs r = (r, map (fun c => Patch (Some u) [c]) cs).
Proof.
  induction cs as [|c cs IH]; intros r u Hs Hu; simpl; [reflexivity|].
  unfold onLocalCandidate, sendLocalCandidates. rewrite Hs, Hu. simpl.
  now rewrite (IH r u Hs Hu).
Qed.

Definition cand (i : Z) : Candidate :=
  mkCandidate i "candidate:1 1 udp 1 10.0.0.1 5000 typ host".

(** A whep reader that gathers one candidate before the 201 Created and one
    after it; then the PATCH of that second candidate fails. *)
Definition whep_start : MediaMTXWebRTCReader :=
  mk running (Some 0%nat) None (Some 0%nat) None [].

Definition whep_url : string := "http://host/live/sim/whep/session".

(** The failing input of C5, evaluated: whep/reader.js never sends the queued
    candidate (the only PATCH is the one of the later candidate, the first
    stays in the queue), and the failed PATCH tears the session down. *)
Lemma whep_trickle_divergence :
  let '(r, es) := whep_session [cand 1] whep_url [cand 2] whep_start in
  es = [Patch (Some whep_url) [cand 2]]
  /\ queuedCandidates r = [cand 1]
  /\ WHEP.patch_failed 1 r
     = (mk restarting None (Some 1%nat) None None [],
        [PcClose 0; Delete whep_url; SetRestartTimeout; OnError])
  /\ state (fst (WHEP.patch_failed 1 r)) <> running.
Proof. vm_compute. repeat split; discriminate. Qed.

(** C5.  In both readers a local candidate produced while the reader is
    running and the session URL is unknown is queued, and one produced once
    the URL is known is sent as its own PATCH.  pk/reader.js does what the
    claim says: the 201 Created stores the session URL and flushes a
    non-empty queue with a single PATCH carrying all queued candidates, so
    that a session sends exactly that PATCH followed by one PATCH per later
    candidate; a failed candidate PATCH only logs a warning and leaves the
    reader as it is.  whep/reader.js departs from it: the 201 Created stores
    the session URL but sends nothing and keeps the queue, so that the
    candidates gathered before it are never sent; and a failed candidate PATCH
    goes to #handleError, which on a running reader closes the peer
    connection, DELETEs the session and schedules a restart. *)
Theorem ice_trickle :
  (forall r c, state r = running -> sessionUrl r = None ->
               onLocalCandidate (Some c) r
               = (set_queue (queuedCandidates r ++ [c]) r, []))
  /\ (forall r c u, state r = running -> sessionUrl r = Some u ->
                    onLocalCandidate (Some c) r = (r, [Patch (Some u) [c]]))
  /\ (forall r location t,
        PK.sendOffer_response 201 location t r
        = (set_session location [] r,
           match queuedCandidates r with
           | [] => []
           | q => [Patch (Some location) q]
           end))
  /\ (forall r before location after,
        state r = running -> sessionUrl r = None -> queuedCandidates r = [] ->
        pk_session before location after r
        = (set_session location [] r,
           match before with
           | [] => []
           | q => [Patch (Some location) q]
           end ++ map (fun c => Patch (Some location) [c]) after))
  /\ (forall t r, PK.patch_failed t r = (r, [Warn]))
  /\ (forall r before location after,
        state r = running -> sessionUrl r = None -> queuedCandidates r = [] ->
        whep_session before location after r
        = (set_session location before r,
           map (fun c => Patch (Some location) [c]) after))
  /\ (forall t r,
        state r = running ->
        WHEP.patch_failed t r
        = (mk restarting None (Some t) None None [],
           pc_close r
           ++ match sessionUrl r with Some u => [Delete u] | None => [] end
           ++ [SetRestartTimeout; OnError])).
Proof.
  assert (forall r location t,
            PK.sendOffer_response 201 location t r
            = (set_session location [] r,
               match queuedCandidates r with
               | [] => []
               | q => [Patch (Some location) q]
               end)) as Hflush.
  { intros r location t. unfold PK.sendOffer_response, sendLocalCandidates.
    simpl. destruct r as [st p rt od su q]. destruct q; reflexivity. }
  repeat apply conj.
  - intros r c Hs Hu. unfold onLocalCandidate, set_queue. now rewrite Hs, Hu.
  - intros r c u Hs Hu. unfold onLocalCandidate, sendLocalCandidates.
    now rewrite Hs, Hu.
  - exact Hflush.
  - intros r before location after Hs Hu Hq. unfold pk_session.
    rewrite (candidates_queued before r Hs Hu), Hq. simpl app at 1.
    rewrite Hflush. simpl queuedCandidates.
    rewrite (candidates_patched after _ location) by (simpl; auto).
    unfold set_session, set_queue. simpl. now destruct before.
  - reflexivity.
  - intros r before location after Hs Hu Hq. unfold whep_session.
    rewrite (candidates_queued before r Hs Hu), Hq. simpl app at 1.
    unfold WHEP.sendOffer_response. simpl.
    rewrite (candidates_patched after _ location) by (simpl; auto).
    reflexivity.
  - intros t r Hs. unfold WHEP.patch_failed, WHEP.handleError. now rewrite Hs.
Qed.

Lemma ice_trickle_witness :
  let r := mk running (Some 0%nat) None (Some 0%nat) None [] in
  state r = running /\ sessionUrl r = None /\ queuedCandidates r = []
  /\ snd (pk_session [cand 1; cand 2] "http://host/s" [cand 3] r)
     = [Patch (Some "http://host/s"%string) [cand 1; cand 2];
        Patch (Some "http://host/s"%string) [cand 3]].
Proof.
  intros r. split; [reflexivity|]. split; [reflexivity|]. split; [reflexivity|].
  destruct ice_trickle as (_ & _ & _ & Hsession & _).
  rewrite (Hsession r [cand 1; cand 2] "http://host/s"%string [cand 3]
             eq_refl eq_refl eq_refl).
  reflexivity.
Defined.

End Reader.

(* ===================================================================== *)
(** ** internal/staticsources/transcoder/source.go : New, APISourceDescribe *)
(* ===================================================================== *)

Module TranscoderStaticSource.
Import TranscoderSource.

(** The fields of Source that New derives from conf.Source. *)
Record Source : Type := mkSource { inputPath : string; outputPath : string }.

(** New: [None] is the panic on an invalid source string. *)
Definition New (conf_Source : string) : option Source :=
  match ParseTranscoderSource conf_Source with
  | (inp, out, true) => Some (mkSource inp out)
  | (_, _, false) => None
  end.

(** APISourceDescribe().ID: [fmt.Sprintf("%s:%s", inputPath, outputPath)]. *)
Definition APISourceDescribe_ID (s : Source) : string :=
  inputPath s +:+ String colon (outputPath s).

(** X1. A source string that New accepts is rebuilt from the Source it makes:
    "transcoder:" followed by the ID of APISourceDescribe (inputPath, a colon,
    outputPath) is the configured string again, the output path holds no
    colon, and parsing the rebuilt string gives the same two paths. *)
Theorem New_source_round_trip (conf_Source : string) (s : Source) :
  New conf_Source = Some s ->
  prefix +:+ APISourceDescribe_ID s = conf_Source
  /\ ~ contains_byte (outputPath s) colon
  /\ ParseTranscoderSource (prefix +:+ APISourceDescribe_ID s)
     = (inputPath s, outputPath s, true).
Proof.
  unfold New. destruct (ParseTranscoderSource conf_Source) as [[inp out] ok] eqn:E.
  destruct ok; [|discriminate]. intros [= <-]. simpl.
  destruct (ParseTranscoderSource_inverse _ _ _ E) as [Hs Hno].
  unfold APISourceDescribe_ID. simpl. split; [now rewrite Hs|].
  split; [exact Hno|]. rewrite <- Hs. exact E.
Qed.

Lemma New_source_round_trip_witness :
  New "transcoder:live/a:b:live/out" = Some (mkSource "live/a:b" "live/out")
  /\ prefix +:+ APISourceDescribe_ID (mkSource "live/a:b" "live/out")
     = "transcoder:live/a:b:live/out"%string.
Proof.
  assert (New "transcoder:live/a:b:live/out" = Some (mkSource "live/a:b" "live/out"))
    as H by reflexivity.
  split; [exact H|]. exact (proj1 (New_source_round_trip _ _ H)).
Defined.

End TranscoderStaticSource.

(* ===================================================================== *)
(** ** internal/staticsources/transcoder/source.go : Run, Stop *)
(* ===================================================================== *)

Module TranscoderStaticRun.

(** What the environment answers while Run executes. *)
Inductive add_reader_res : Type :=
| AddReaderErr            (* PathManager.AddReader returned an error *)
| AddReaderNilPath        (* no error, nil path *)
| AddReaderPath.          (* no error, a path *)

Inductive lookup_res : Type :=
| NoMethod                (* the path has no GetTranscoderOutputStream method *)
| WrongResults            (* the call returned a number of results other than 1 *)
| NilStream               (* it returned a nil stream *)
| StreamFound.            (* it returned the output stream *)

(** The ways out of the wait for a description. *)
Inductive wait_res : Type :=
| HasDesc                 (* Desc has medias already: the loop is skipped *)
| BecameReady             (* the loop condition became false *)
| WaitCancelled           (* params.Context.Done() inside the loop *)
| TimedOutNil             (* past maxWaitTime with Desc == nil *)
| TimedOutEmpty.          (* past maxWaitTime with a Desc without medias: break *)

Inductive final_res : Type := Terminate | ContextDone.

Record env : Type := mkEnv {
  e_add : add_reader_res;
  e_lookup : lookup_res;
  e_wait : wait_res;
  e_setReady : bool;        (* SetReady returned no error *)
  e_final : final_res
}.

Inductive error : Type :=
| ErrAddReader | ErrNilPath | ErrNoMethod | ErrResults | ErrNotFound
| ErrWaitCancelled | ErrNoDescription | ErrSetReady.

Inductive effect : Type :=
| PMAddReader             (* s.PathManager.AddReader(req) *)
| PMRemoveReader          (* s.PathManager.RemoveReader(removeReq), deferred *)
| GetOutputStream         (* the reflective call *)
| SetReady
| SetNotReady             (* deferred *)
| StreamAddReader         (* outputStream.AddReader(reader) *)
| StreamRemoveReader      (* outputStream.RemoveReader(reader), deferred *)
| CloseDone.              (* close(s.done) *)

(** Run: the effects in order, and the returned error ([None] = nil).  The
    deferred calls run at the return, last registered first. *)
Definition Run (e : env) : list effect * option error :=
  match e_add e with
  | AddReaderErr => ([PMAddReader], Some ErrAddReader)
  | AddReaderNilPath => ([PMAddReader], Some ErrNilPath)
  | AddReaderPath =>
      (* defer PathManager.RemoveReader *)
      match e_lookup e with
      | NoMethod => ([PMAddReader; PMRemoveReader], Some ErrNoMethod)
      | WrongResults =>
          ([PMAddReader; GetOutputStream; PMRemoveReader], Some ErrResults)
      | NilStream =>
          ([PMAddReader; GetOutputStream; PMRemoveReader], Some ErrNotFound)
      | StreamFound =>
          match e_wait e with
          | WaitCancelled =>
              ([PMAddReader; GetOutputStream; PMRemoveReader], Some ErrWaitCancelled)
          | TimedOutNil =>
              ([PMAddReader; GetOutputStream; PMRemoveReader], Some ErrNoDescription)
          | HasDesc | BecameReady | TimedOutEmpty =>
              if negb (e_setReady e)
              then ([PMAddReader; GetOutputStream; SetReady; PMRemoveReader],
                    Some ErrSetReady)
              else
                (* defer SetNotReady; AddReader; defer RemoveReader; select *)
                ([PMAddReader; GetOutputStream; SetReady; StreamAddReader;
                  CloseDone; StreamRemoveReader; SetNotReady; PMRemoveReader],
                 None)
          end
      end
  end.

#[global] Instance effect_eq_dec : EqDecision effect.
Proof. solve_decision. Defined.

(** Stop: [close(s.terminate)] and then [<-s.done], which returns only once
    done has been closed. *)
Definition Stop_returns (trace : list effect) : bool :=
  bool_decide (CloseDone ∈ trace).

Definition count (x : effect) (tr : list effect) : nat :=
  List.length (filter (fun y => y = x) tr).

(** X2. Run of the transcoder static source releases what it acquired, on
    every way out: PathManager.RemoveReader is called once exactly when
    AddReader returned a path, and then it is the last call; SetNotReady and
    the stream's RemoveReader are called as often as the stream's AddReader,
    which is once when Run returns nil and never when it returns an error.
    done is closed only when Run returns nil, so Stop, which waits for done,
    returns exactly in that case. *)
Theorem Run_releases_what_it_acquired (e : env) :
  let '(tr, res) := Run e in
  (count PMRemoveReader tr = match e_add e with AddReaderPath => 1%nat | _ => 0%nat end)
  /\ count SetNotReady tr = count StreamAddReader tr
  /\ count StreamRemoveReader tr = count StreamAddReader tr
  /\ (count SetNotReady tr = 1%nat <-> res = None)
  /\ (e_add e = AddReaderPath -> last tr = Some PMRemoveReader)
  /\ (Stop_returns tr = true <-> res = None).
Proof.
  destruct e as [a l w sr f].
  destruct a, l, w, sr; vm_compute; repeat split; try discriminate; auto.
Qed.

End TranscoderStaticRun.

(* ===================================================================== *)
(** ** internal/forwarder/manager.go : the life cycle of a forwarder *)
(* ===================================================================== *)

Module ForwarderLifecycle.
Import Forwarder.

(** What the position of the SRT supervisor says about the connection, the
    connected flag and the reader set. *)
Definition srt_resources (s : Srt.sys) : Prop :=
  (Srt.stopping s = true -> Srt.ctxDone (Srt.fw s) = true)
  /\ match Srt.run s with
     | Srt.Attached strm r =>
         Srt.sconn (Srt.fw s) <> None /\ Srt.connected (Srt.fw s) = true
         /\ Srt.readers s = [(strm, r)]
     | Srt.Dialed | Srt.Closing _ =>
         Srt.sconn (Srt.fw s) <> None /\ Srt.connected (Srt.fw s) = true
         /\ Srt.readers s = []
     | _ =>
         Srt.sconn (Srt.fw s) = None /\ Srt.connected (Srt.fw s) = false
         /\ Srt.readers s = []
     end.

Definition whip_resources (s : Whip.sys) : Prop :=
  (Whip.stopping s = true -> Whip.ctxDone (Whip.fw s) = true)
  /\ match Whip.run s with
     | Whip.Attached strm r c =>
         Whip.whipClient (Whip.fw s) = Some c /\ Whip.connected (Whip.fw s) = true
         /\ Whip.readers s = [(strm, r)]
     | Whip.Added strm r _ =>
         Whip.whipClient (Whip.fw s) = None /\ Whip.connected (Whip.fw s) = false
         /\ Whip.readers s = [(strm, r)]
     | Whip.Detaching strm r _ =>
         Whip.whipClient (Whip.fw s) = None /\ Whip.connected (Whip.fw s) = false
         /\ Whip.readers s = [(strm, r)]
         /\ Whip.stream (Whip.fw s) = Some strm /\ Whip.reader (Whip.fw s) = Some r
     | _ =>
         Whip.whipClient (Whip.fw s) = None /\ Whip.connected (Whip.fw s) = false
         /\ Whip.readers s = []
     end.

Lemma RemoveReader_only strm r : RemoveReader strm r [(strm, r)] = [].
Proof.
  unfold RemoveReader. rewrite filter_cons.
  destruct (decide ((strm, r) ≠ (strm, r))) as [H|H]; [now contradiction H|].
  reflexivity.
Qed.

Ltac step_inv :=
  intros [= <-]; simpl in *; intuition (try discriminate; try congruence).

Lemma srt_exec_resources ev s s' :
  Srt.consistent s -> srt_resources s -> Srt.exec ev s = Some s' -> srt_resources s'.
Proof.
  destruct s as [f run readers stopping fresh].
  destruct f as [rc udp strm rd sc le cn cnt cd].
  unfold Srt.consistent, srt_resources. destruct ev as [st| | |o]; simpl.
  - unfold Srt.Start; simpl. destruct strm as [st0|]; simpl.
    + intros _ H [= <-]. exact H.
    + intros Hc [Hst H].
      destruct run; simpl in *; try congruence; try (destruct Hc; congruence);
        try (destruct Hc as (? & ? & ?); congruence).
      step_inv.
  - intros _ [Hst H] [= <-]. simpl. split; [reflexivity|]. destruct run; exact H.
  - destruct stopping; [|discriminate]. destruct run; try discriminate.
    intros _ [Hst (H1 & H2 & H3)]. step_inv.
  - unfold Srt.run_step; simpl.
    destruct run as [| | |st r|res|res]; simpl.
    + discriminate.
    + intros _ [Hst (H1 & H2 & H3)]. destruct cd; [step_inv|].
      destruct o; try discriminate; step_inv.
    + intros _ [Hst (H1 & H2 & H3)]. destruct o as [e| |].
      * step_inv.
      * destruct strm as [st|]; [|discriminate]. subst readers. step_inv.
      * destruct strm; discriminate.
    + intros _ [Hst (H1 & H2 & H3)]. subst readers. destruct o as [e| |].
      * intros [= <-]; simpl. rewrite RemoveReader_only. auto.
      * discriminate.
      * destruct cd; [|discriminate]. intros [= <-]; simpl.
        rewrite RemoveReader_only. auto.
    + intros _ [Hst (H1 & H2 & H3)]. step_inv.
    + intros _ [Hst (H1 & H2 & H3)]. destruct res as [e|].
      * destruct rc; step_inv.
      * step_inv.
Qed.

Lemma srt_reachable_resources s :
  Srt.reachable s -> Srt.consistent s /\ srt_resources s.
Proof.
  intros (rc & udp & evs & H).
  assert (Srt.consistent (Srt.init rc udp) /\ srt_resources (Srt.init rc udp)) as Hi.
  { split; [exact I|]. split; [discriminate|]. simpl. auto. }
  revert Hi H. generalize (Srt.init rc udp). clear rc udp.
  induction evs as [|ev evs IH]; intros s0 [Hc Hr]; simpl.
  - intros [= <-]. auto.
  - destruct (Srt.exec ev s0) as [s1|] eqn:E; [|discriminate].
    apply IH. split.
    + eapply srt_exec_consistent; eauto.
    + eapply srt_exec_resources; eauto.
Qed.

Lemma whip_exec_resources ev s s' :
  Whip.consistent s -> whip_resources s -> Whip.exec ev s = Some s' -> whip_resources s'.
Proof.
  destruct s as [f run readers stopping fresh].
  destruct f as [rc strm rd wc le cn cnt cd].
  unfold Whip.consistent, whip_resources. destruct ev as [st| | |o]; simpl.
  - unfold Whip.Start; simpl. destruct strm as [st0|]; simpl.
    + intros _ H [= <-]. exact H.
    + intros Hc [Hst H].
      destruct run; simpl in *; try congruence; try (destruct Hc; congruence);
        try (destruct Hc as (? & ? & ?); congruence).
      step_inv.
  - intros _ [Hst H] [= <-]. simpl. split; [reflexivity|]. destruct run; exact H.
  - destruct stopping; [|discriminate]. destruct run; try discriminate.
    intros _ [Hst (H1 & H2 & H3)]. step_inv.
  - unfold Whip.run_step; simpl.
    destruct run as [| |r|st r c|st r c|st r res|res|]; simpl.
    + discriminate.
    + intros _ [Hst (H1 & H2 & H3)]. destruct o; try discriminate; step_inv.
    + intros _ [Hst (H1 & H2 & H3)]. destruct o as [e| |].
      * step_inv.
      * destruct strm as [st|]; [|discriminate].
        destruct rd as [r'|]; [|discriminate]. subst readers. step_inv.
      * destruct strm; discriminate.
    + intros _ [Hst (H1 & H2 & H3)]. step_inv.
    + intros Hc [Hst (H1 & H2 & H3)]. destruct o as [e| |].
      * step_inv.
      * discriminate.
      * destruct cd; [|discriminate]. step_inv.
    + intros _ [Hst (H1 & H2 & H3 & H4 & H5)]. subst readers.
      intros [= <-]; simpl. rewrite RemoveReader_only. auto.
    + intros _ [Hst (H1 & H2 & H3)]. destruct cd; [|destruct rc];
        destruct res; step_inv.
    + intros _ [Hst (H1 & H2 & H3)]. destruct o as [e| |].
      * discriminate.
      * step_inv.
      * destruct cd; [|discriminate]. step_inv.
Qed.

Lemma whip_reachable_resources s :
  Whip.reachable s -> Whip.consistent s /\ whip_resources s.
Proof.
  intros (rc & evs & H).
  assert (Whip.consistent (Whip.init rc) /\ whip_resources (Whip.init rc)) as Hi.
  { split; [reflexivity|]. split; [discriminate|]. simpl. auto. }
  revert Hi H. generalize (Whip.init rc). clear rc.
  induction evs as [|ev evs IH]; intros s0 [Hc Hr]; simpl.
  - intros [= <-]. auto.
  - destruct (Whip.exec ev s0) as [s1|] eqn:E; [|discriminate].
    apply IH. split.
    + eapply whip_exec_consistent; eauto.
    + eapply whip_exec_resources; eauto.
Qed.

(** X3. In every state the SRT forwarder reaches, connected is true exactly
    when the connection (sconn) is set; at most one reader is attached for the
    forwarder, and while one is attached the supervisor is forwarding, the
    stream and the reader are the forwarder's own and connected is true; once
    the supervisor has exited no reader is attached and the connection is
    nil. *)
Theorem srt_connected_and_readers (s : Srt.sys) :
  Srt.reachable s ->
  (Srt.connected (Srt.fw s) = true <-> Srt.sconn (Srt.fw s) <> None)
  /\ (forall strm r, In (strm, r) (Srt.readers s) ->
        Srt.readers s = [(strm, r)] /\ Srt.run s = Srt.Attached strm r
        /\ Srt.stream (Srt.fw s) = Some strm /\ Srt.reader (Srt.fw s) = Some r
        /\ Srt.connected (Srt.fw s) = true)
  /\ (Srt.run s = Srt.Exited ->
        Srt.readers s = [] /\ Srt.sconn (Srt.fw s) = None).
Proof.
  intros Hr. destruct (srt_reachable_resources s Hr) as [Hc [_ Hres]].
  unfold Srt.consistent in Hc.
  destruct (Srt.run s) as [| | |st r|res|res] eqn:Hrun;
    destruct Hres as (H1 & H2 & H3); rewrite H3.
  all: split; [rewrite H2; split; congruence|].
  all: split; [|try discriminate; auto].
  all: intros strm r0 Hin; simpl in Hin; try contradiction.
  destruct Hin as [[= <- <-]|[]]. destruct Hc as (Hs & Hrd & _). auto.
Qed.

(** X4. In every state the WHIP forwarder reaches, connected is true exactly
    when the WHIP client is set, and then the supervisor is forwarding with
    exactly one reader attached; at most one reader is attached for the
    forwarder, on the forwarder's own stream; once the supervisor has exited
    no reader is attached and the client is nil. *)
Theorem whip_connected_and_readers (s : Whip.sys) :
  Whip.reachable s ->
  (Whip.connected (Whip.fw s) = true <-> Whip.whipClient (Whip.fw s) <> None)
  /\ (Whip.connected (Whip.fw s) = true ->
        exists strm r c, Whip.run s = Whip.Attached strm r c
                         /\ Whip.readers s = [(strm, r)])
  /\ (forall strm r, In (strm, r) (Whip.readers s) ->
        Whip.readers s = [(strm, r)]
        /\ Whip.stream (Whip.fw s) = Some strm /\ Whip.reader (Whip.fw s) = Some r)
  /\ (Whip.run s = Whip.Exited ->
        Whip.readers s = [] /\ Whip.whipClient (Whip.fw s) = None).
Proof.
  intros Hr. destruct (whip_reachable_resources s Hr) as [Hc [_ Hres]].
  unfold Whip.consistent in Hc.
  destruct (Whip.run s) as [| |r|st r c|st r c|st r res|res|] eqn:Hrun;
    destruct Hres as (H1 & H2 & H3);
    try (pose proof (proj1 H3) as H3'; rewrite H3');
    try rewrite H3; rewrite H2, H1.
  all: split; [split; congruence|].
  all: split; [try discriminate; eauto|].
  all: split; [|try discriminate; auto].
  all: intros strm r0 Hin; simpl in Hin; try contradiction.
  all: destruct Hin as [[= <- <-]|[]]; try (destruct Hc as (Hs & Hrd & _); auto).
  destruct H3 as (H3 & H4 & H5). auto.
Qed.

Lemma srt_connected_and_readers_witness :
  match Srt.execs [Srt.EvStart 1%nat; Srt.EvRun Ok; Srt.EvRun Ok]
                  (Srt.init true 1472) with
  | Some s => forall strm r, In (strm, r) (Srt.readers s) ->
                Srt.readers s = [(strm, r)] /\ Srt.connected (Srt.fw s) = true
  | None => False
  end.
Proof.
  destruct (Srt.execs [Srt.EvStart 1%nat; Srt.EvRun Ok; Srt.EvRun Ok]
                      (Srt.init true 1472)) as [s|] eqn:E; [|discriminate E].
  assert (Srt.reachable s) as Hr
    by (exists true, 1472, [Srt.EvStart 1%nat; Srt.EvRun Ok; Srt.EvRun Ok];
        exact E).
  intros strm r Hin.
  destruct (srt_connected_and_readers s Hr) as (_ & Hrd & _).
  destruct (Hrd strm r Hin) as (H1 & _ & _ & _ & H5).
  split; [exact H1 | exact H5].
Defined.
Lemma whip_connected_and_readers_witness :
  match Whip.execs [Whip.EvStart 1%nat; Whip.EvRun Ok; Whip.EvRun Ok;
                    Whip.EvRun Ok]
                   (Whip.init true) with
  | Some s => Whip.connected (Whip.fw s) = true <->
              Whip.whipClient (Whip.fw s) <> None
  | None => False
  end.
Proof.
  destruct (Whip.execs [Whip.EvStart 1%nat; Whip.EvRun Ok; Whip.EvRun Ok;
                        Whip.EvRun Ok]
                       (Whip.init true)) as [s|] eqn:E; [|discriminate E].
  assert (Whip.reachable s) as Hr
    by (exists true, [Whip.EvStart 1%nat; Whip.EvRun Ok; Whip.EvRun Ok;
                      Whip.EvRun Ok]; exact E).
  exact (proj1 (whip_connected_and_readers s Hr)).
Defined.









(** What Stop leaves behind once the supervisor has exited. *)
Lemma srt_StopFinish_clean s s' :
  Srt.reachable s -> Srt.exec Srt.EvStopFinish s = Some s' ->
  Srt.stream (Srt.fw s') = None /\ Srt.reader (Srt.fw s') = None
  /\ Srt.sconn (Srt.fw s') = None /\ Srt.connected (Srt.fw s') = false
  /\ Srt.readers s' = [] /\ Srt.IsRunning (Srt.fw s') = false
  /\ Srt.ctxDone (Srt.fw s') = true.
Proof.
  intros Hr. destruct (srt_reachable_resources s Hr) as [_ [Hst Hres]].
  simpl. destruct (Srt.stopping s); [|discriminate].
  destruct (Srt.run s); try discriminate. destruct Hres as (H1 & H2 & H3).
  intros [= <-]. simpl. rewrite H2, H3, Hst by reflexivity. auto 10.
Qed.





(** A cancelled SRT supervisor that has exited never dials again. *)
Lemma srt_cancelled_stays_down evs : forall s s',
  Srt.ctxDone (Srt.fw s) = true ->
  Srt.run s = Srt.Exited \/ Srt.run s = Srt.LoopHead ->
  Srt.sconn (Srt.fw s) = None ->
  Srt.execs evs s = Some s' ->
  Srt.ctxDone (Srt.fw s') = true
  /\ (Srt.run s' = Srt.Exited \/ Srt.run s' = Srt.LoopHead)
  /\ Srt.sconn (Srt.fw s') = None
  /\ Srt.connected (Srt.fw s') = Srt.connected (Srt.fw s)
  /\ Srt.reconnectCount (Srt.fw s') = Srt.reconnectCount (Srt.fw s)
  /\ Srt.readers s' = Srt.readers s.
Proof.
  induction evs as [|ev evs IH]; intros s s' Hcd Hrun Hsc; simpl.
  - intros [= <-]. auto 10.
  - destruct (Srt.exec ev s) as [s1|] eqn:E; [|discriminate].
    intros Hrest.
    assert (Srt.ctxDone (Srt.fw s1) = true
            /\ (Srt.run s1 = Srt.Exited \/ Srt.run s1 = Srt.LoopHead)
            /\ Srt.sconn (Srt.fw s1) = None
            /\ Srt.connected (Srt.fw s1) = Srt.connected (Srt.fw s)
            /\ Srt.reconnectCount (Srt.fw s1) = Srt.reconnectCount (Srt.fw s)
            /\ Srt.readers s1 = Srt.readers s) as (H1 & H2 & H3 & H4 & H5 & H6).
    { destruct s as [f run readers stopping fresh].
      destruct f as [rc udp strm rd sc le cn cnt cd]. simpl in *. subst cd sc.
      destruct ev as [st| | |o]; simpl in E.
      - unfold Srt.Start in E; simpl in E. destruct strm; injection E as <-;
          simpl; auto 10.
      - injection E as <-. simpl. auto 10.
      - destruct stopping; [|discriminate]. destruct run; try discriminate.
        injection E as <-. simpl. auto 10.
      - unfold Srt.run_step in E; simpl in E.
        destruct Hrun as [-> | ->]; [discriminate|].
        injection E as <-. simpl. auto 10. }
    destruct (IH s1 s' H1 H2 H3 Hrest) as (G1 & G2 & G3 & G4 & G5 & G6).
    repeat split; auto; congruence.
Qed.

(** X6. An SRT forwarder is single-use: after a completed Stop, Start succeeds
    again (no error, IsRunning() true), but the context stays cancelled, so
    whatever is called afterwards the supervisor never dials: the connection
    stays nil, connected false, no reader is attached, and the supervisor is
    at its loop head or has exited. *)
Theorem srt_forwarder_single_use (s s1 : Srt.sys) (st : nat)
        (evs : list Srt.event) (s2 : Srt.sys) :
  Srt.reachable s -> Srt.exec Srt.EvStopFinish s = Some s1 ->
  Srt.execs (Srt.EvStart st :: evs) s1 = Some s2 ->
  (exists s1', Srt.exec (Srt.EvStart st) s1 = Some s1'
               /\ Srt.Start (Srt.fw s1) (Some st) = (Srt.fw s1', None)
               /\ Srt.IsRunning (Srt.fw s1') = true)
  /\ Srt.sconn (Srt.fw s2) = None /\ Srt.connected (Srt.fw s2) = false
  /\ Srt.readers s2 = []
  /\ (Srt.run s2 = Srt.Exited \/ Srt.run s2 = Srt.LoopHead).
Proof.
  intros Hr Hfin Hrun.
  destruct (srt_StopFinish_clean s s1 Hr Hfin)
    as (Hs & Hrd & Hsc & Hcn & Hrs & _ & Hcd).
  assert (Srt.run s1 = Srt.Exited) as Hex.
  { simpl in Hfin. destruct (Srt.stopping s); [|discriminate].
    destruct (Srt.run s); try discriminate. now injection Hfin as <-. }
  simpl in Hrun. unfold Srt.Start in Hrun. rewrite Hs in Hrun.
  split.
  { eexists. simpl. unfold Srt.Start. rewrite Hs. split; [reflexivity|].
    split; reflexivity. }
  match type of Hrun with Srt.execs evs ?s0 = _ => set (s1' := s0) in * end.
  destruct (srt_cancelled_stays_down evs s1' s2) as (_ & G2 & G3 & G4 & _ & G6);
    subst s1'; simpl; auto.
  simpl in G4, G6. rewrite G4, G6, Hcn, Hrs. auto.
Qed.

Definition srt_stopped_run : list Srt.event :=
  [Srt.EvStart 1%nat; Srt.EvStopCancel; Srt.EvRun Ok].

Lemma srt_forwarder_single_use_witness :
  match Srt.execs srt_stopped_run (Srt.init true 1472) with
  | Some s =>
      match Srt.exec Srt.EvStopFinish s with
      | Some s1 =>
          match Srt.execs [Srt.EvStart 2%nat; Srt.EvRun Ok] s1 with
          | Some s2 => Srt.sconn (Srt.fw s2) = None /\ Srt.readers s2 = []
          | None => False
          end
      | None => False
      end
  | None => False
  end.
Proof.
  destruct (Srt.execs srt_stopped_run (Srt.init true 1472)) as [s|] eqn:E;
    [|discriminate E].
  assert (Srt.reachable s) as Hr by (exists true, 1472, srt_stopped_run; exact E).
  destruct (Srt.exec Srt.EvStopFinish s) as [s1|] eqn:E1;
    [|injection E as <-; discriminate E1].
  destruct (Srt.execs [Srt.EvStart 2%nat; Srt.EvRun Ok] s1) as [s2|] eqn:E2;
    [|injection E as <-; injection E1 as <-; discriminate E2].
  destruct (srt_forwarder_single_use s s1 2%nat [Srt.EvRun Ok] s2 Hr E1 E2)
    as (_ & Hsc & _ & Hrs & _).
  split; [exact Hsc | exact Hrs].
Defined.

(** The reconnect counter is a uint64 and moves only on a retry. *)
Definition srt_counter_ok (rc0 : bool) (s : Srt.sys) : Prop :=
  Srt.Reconnect (Srt.fw s) = rc0
  /\ 0 <= Srt.reconnectCount (Srt.fw s) < 2 ^ 64
  /\ (rc0 = false -> Srt.reconnectCount (Srt.fw s) = 0).

Definition whip_counter_ok (rc0 : bool) (s : Whip.sys) : Prop :=
  Whip.Reconnect (Whip.fw s) = rc0
  /\ 0 <= Whip.reconnectCount (Whip.fw s) < 2 ^ 64
  /\ (rc0 = false -> Whip.reconnectCount (Whip.fw s) = 0)
  /\ (rc0 = false -> Whip.run s <> Whip.Sleeping).

Lemma wrap_uint64_range z : 0 <= wrap_uint64 z < 2 ^ 64.
Proof. unfold wrap_uint64. apply Z.mod_pos_bound. lia. Qed.

Lemma srt_exec_counter rc0 ev s s' :
  srt_counter_ok rc0 s -> Srt.exec ev s = Some s' -> srt_counter_ok rc0 s'.
Proof.
  destruct s as [f run readers stopping fresh].
  destruct f as [rc udp strm rd sc le cn cnt cd].
  unfold srt_counter_ok. simpl. intros (-> & Hr & Hz).
  destruct ev as [st| | |o]; simpl.
  - unfold Srt.Start; simpl. destruct strm; intros [= <-]; simpl; auto.
  - intros [= <-]; simpl; auto.
  - destruct stopping; [|discriminate]. destruct run; try discriminate.
    intros [= <-]; simpl; auto.
  - unfold Srt.run_step; simpl.
    destruct run as [| | |st r|res|res]; simpl; try discriminate.
    + destruct cd; [|destruct o]; try discriminate; intros [= <-]; simpl; auto.
    + destruct o; destruct strm; try discriminate; intros [= <-]; simpl; auto.
    + destruct o; try discriminate; [|destruct cd; try discriminate];
        intros [= <-]; simpl; auto.
    + intros [= <-]; simpl; auto.
    + destruct res; [destruct rc0|]; intros [= <-]; simpl; auto.
      split; [reflexivity|]. split; [apply wrap_uint64_range | discriminate].
Qed.

Lemma whip_exec_counter rc0 ev s s' :
  whip_counter_ok rc0 s -> Whip.exec ev s = Some s' -> whip_counter_ok rc0 s'.
Proof.
  destruct s as [f run readers stopping fresh].
  destruct f as [rc strm rd wc le cn cnt cd].
  unfold whip_counter_ok. simpl. intros (-> & Hr & Hz & Hsl).
  assert (forall p : Whip.pc, p <> Whip.Sleeping -> rc0 = false -> p <> Whip.Sleeping)
    as Hns by auto.
  destruct ev as [st| | |o]; simpl.
  - unfold Whip.Start; simpl. destruct strm; intros [= <-]; simpl; auto.
  - intros [= <-]; simpl; auto.
  - destruct stopping; [|discriminate]. destruct run; try discriminate.
    intros [= <-]; simpl; auto.
  - unfold Whip.run_step; simpl.
    destruct run as [| |r|st r c|st r c|st r res|res|]; simpl; try discriminate.
    + destruct o; try discriminate; intros [= <-]; simpl;
        repeat split; auto; try lia; try (apply Hns; discriminate).
    + destruct o; destruct strm; destruct rd; try discriminate;
        intros [= <-]; simpl; repeat split; auto; try lia; try (apply Hns; discriminate).
    + intros [= <-]; simpl; repeat split; auto; try lia; try (apply Hns; discriminate).
    + destruct o; try discriminate; [|destruct cd; try discriminate];
        intros [= <-]; simpl; repeat split; auto; try lia; try (apply Hns; discriminate).
    + intros [= <-]; simpl; repeat split; auto; try lia; try (apply Hns; discriminate).
    + destruct cd; [|destruct rc0]; destruct res; intros [= <-]; simpl;
        repeat split; auto; try lia; try (apply Hns; discriminate); try discriminate.
    + destruct o; try discriminate; [|destruct cd; try discriminate];
        intros [= <-]; simpl.
      * split; [reflexivity|]. split; [apply wrap_uint64_range|].
        split; intros ->; now contradiction (Hsl eq_refl).
      * repeat split; auto; try lia; try (apply Hns; discriminate).
Qed.

(** X7. The reconnect counter of both forwarders stays within uint64, and
    with Reconnect off it stays 0; the WHIP supervisor with Reconnect off
    never enters its retry pause. *)
Theorem reconnectCount_counts_retries :
  (forall s, Srt.reachable s ->
     0 <= Srt.reconnectCount (Srt.fw s) < 2 ^ 64
     /\ (Srt.Reconnect (Srt.fw s) = false -> Srt.reconnectCount (Srt.fw s) = 0))
  /\ (forall s, Whip.reachable s ->
        0 <= Whip.reconnectCount (Whip.fw s) < 2 ^ 64
        /\ (Whip.Reconnect (Whip.fw s) = false ->
            Whip.reconnectCount (Whip.fw s) = 0 /\ Whip.run s <> Whip.Sleeping)).
Proof.
  split.
  - intros s (rc & udp & evs & H).
    assert (srt_counter_ok rc (Srt.init rc udp)) as Hi
      by (repeat split; simpl; auto; lia).
    assert (srt_counter_ok rc s) as (Hrc & Hr & Hz).
    { revert Hi H. generalize (Srt.init rc udp).
      induction evs as [|ev evs IH]; intros s0 H0; simpl.
      - now intros [= <-].
      - destruct (Srt.exec ev s0) as [s1|] eqn:E; [|discriminate].
        apply IH. eapply srt_exec_counter; eauto. }
    split; [exact Hr|]. rewrite Hrc. exact Hz.
  - intros s (rc & evs & H).
    assert (whip_counter_ok rc (Whip.init rc)) as Hi
      by (repeat split; simpl; auto; try lia; discriminate).
    assert (whip_counter_ok rc s) as (Hrc & Hr & Hz & Hsl).
    { revert Hi H. generalize (Whip.init rc).
      induction evs as [|ev evs IH]; intros s0 H0; simpl.
      - now intros [= <-].
      - destruct (Whip.exec ev s0) as [s1|] eqn:E; [|discriminate].
        apply IH. eapply whip_exec_counter; eauto. }
    split; [exact Hr|]. rewrite Hrc. auto.
Qed.

Lemma reconnectCount_counts_retries_witness :
  match Srt.execs [Srt.EvStart 1%nat; Srt.EvRun (Fail ErrConnect); Srt.EvRun Ok]
                  (Srt.init false 1472) with
  | Some s => Srt.reconnectCount (Srt.fw s) = 0
  | None => False
  end.
Proof.
  destruct (Srt.execs [Srt.EvStart 1%nat; Srt.EvRun (Fail ErrConnect); Srt.EvRun Ok]
                      (Srt.init false 1472)) as [s|] eqn:E; [|discriminate E].
  apply (proj1 reconnectCount_counts_retries s).
  - exists false, 1472, [Srt.EvStart 1%nat; Srt.EvRun (Fail ErrConnect); Srt.EvRun Ok].
    exact E.
  - injection E as <-. reflexivity.
Defined.

End ForwarderLifecycle.

(* ===================================================================== *)
(** ** internal/forwarder/manager.go : NewManager, Manager.Start *)
(* ===================================================================== *)

Module ForwarderManager.
Import Forwarder.
Import TranscoderSource.

(** conf.SRTForwardTarget and conf.WebRTCForwardTarget, the fields read
    here. *)
Record Target : Type := mkTarget {
  t_Enable : bool;
  t_URL : string;
  t_Reconnect : bool
}.

(** [strings.ReplaceAll(s, old, new)] for a non-empty [old]: the occurrences
    are found from left to right and do not overlap.  [skip] counts the bytes
    of an occurrence that are still to be dropped. *)
Fixpoint replace_from (skip : nat) (s old new : string) : string :=
  match s with
  | EmptyString => EmptyString
  | String c rest =>
      match skip with
      | S k => replace_from k rest old new
      | O =>
          if HasPrefix s old
          then new +:+ replace_from (String.length old - 1) rest old new
          else String c (replace_from 0 rest old new)
      end
  end.

Definition ReplaceAll (s old new : string) : string := replace_from 0 s old new.

Definition MTX_PATH : string := "$MTX_PATH".

(** A forwarder of the manager with its target URL ([GetTarget]). *)
Record entry : Type := mkEntry { url : string; fw : forwarder }.

Record Manager : Type := mkManager {
  forwarders : list entry;
  stream : option nat;
  udpMaxPayloadSize : Z
}.

Definition GetTarget (e : entry) : string := url e.

(** The bodies of the two loops of NewManager. *)
Definition add_srt (pathName : string) (udp : Z) (fs : list entry) (target : Target)
  : list entry :=
  if negb (t_Enable target) then fs
  else
    let resolvedURL := ReplaceAll (t_URL target) MTX_PATH pathName in
    fs ++ [mkEntry resolvedURL
                   (SrtForwarder (Srt.newSRTForwarder (t_Reconnect target) udp))].

Definition add_webrtc (pathName : string) (fs : list entry) (target : Target)
  : list entry :=
  if negb (t_Enable target) then fs
  else
    let resolvedURL := ReplaceAll (t_URL target) MTX_PATH pathName in
    fs ++ [mkEntry resolvedURL
                   (WebrtcForwarder (Whip.newWebRTCForwarder (t_Reconnect target)))].

Definition NewManager (srtTargets webrtcTargets : list Target) (strm : option nat)
           (udp : Z) (pathName : string) : Manager :=
  let fs := fold_left (add_srt pathName udp) srtTargets [] in
  let fs := fold_left (add_webrtc pathName) webrtcTargets fs in
  mkManager fs strm udp.

(** A forwarder of a running manager: its fields together with the
    supervisor goroutine that its Start spawns. *)
Inductive fsys : Type :=
| SrtSys (s : Srt.sys)
| WhipSys (s : Whip.sys).




Record slot : Type := mkSlot { s_url : string; s_sys : fsys }.

(** A forwarder as NewManager leaves it: no supervisor runs. *)
Definition deploy (e : entry) : slot :=
  mkSlot (url e)
         (match fw e with
          | SrtForwarder f => SrtSys (Srt.mkSys f Srt.Exited [] false 0)
          | WebrtcForwarder f => WhipSys (Whip.mkSys f Whip.Exited [] false 0)
          end).

(** A goroutine launched by Manager.Start for the forwarder at place [i]:
    it calls forwarder.Start(stream) and, when that returns an error, logs a
    warning that names the forwarder's target. *)
Inductive goroutine : Type :=
| Calls (i : nat) (strm : nat)       (* forwarder.Start(stream) is next *)
| Warns (i : nat).                   (* Start returned an error: the log call is next *)

(** The manager at work: its forwarders, m.stream, the goroutines launched by
    Start that have not finished, and the warnings logged so far, each by the
    place of the forwarder it names. *)
Record world : Type := mkWorld {
  slots : list slot;
  w_stream : option nat;
  goroutines : list goroutine;
  log : list nat
}.

Definition running (m : Manager) : world :=
  mkWorld (map deploy (forwarders m)) (stream m) [] [].


(** The goroutines one Start call launches, in the order of m.forwarders. *)
Definition launch (strm : nat) (n : nat) : list goroutine :=
  map (fun i => Calls i strm) (seq 0 n).

(** Manager.Start(stream) with a non-nil stream: m.stream is set, one
    goroutine per forwarder is launched, and the call returns; no
    forwarder.Start has run by then. *)
Definition Start (w : world) (strm : nat) : world :=
  mkWorld (slots w) (Some strm)
          (goroutines w ++ launch strm (List.length (slots w)))
          (log w).







(** How many entries of a list satisfy a test. *)
Definition count {A} (P : A -> bool) (l : list A) : nat :=
  List.length (List.filter P l).





(* --------------------------------------------------------------------- *)

Lemma HasPrefix_no_byte s old c rest :
  old = String c rest -> ~ contains_byte s c -> HasPrefix s old = false.
Proof.
  intros -> Hno. destruct s as [|a s]; [reflexivity|]. simpl.
  destruct (Ascii.eqb_spec a c) as [->|Hne]; [|reflexivity].
  exfalso. apply Hno. now left.
Qed.

Lemma replace_no_byte old new c rest : old = String c rest -> forall s,
  ~ contains_byte s c -> replace_from 0 s old new = s.
Proof.
  intros Hold. induction s as [|a s IH]; intros Hno; [reflexivity|].
  cbn [replace_from]. rewrite (HasPrefix_no_byte _ _ _ _ Hold Hno).
  f_equal. apply IH. intros H. apply Hno. now right.
Qed.

Lemma replace_skip old new : forall (o : string) (b : string) (k : nat),
  String.length o = k -> replace_from k (o +:+ b) old new = replace_from 0 b old new.
Proof.
  induction o as [|a o IH]; intros b k Hk; simpl in Hk; subst k.
  - now rewrite append_nil.
  - rewrite append_cons. cbn [replace_from String.length]. now apply IH.
Qed.

Lemma replace_occurrence old new c rest : old = String c rest -> forall a b,
  ~ contains_byte a c ->
  replace_from 0 (a +:+ old +:+ b) old new = a +:+ new +:+ replace_from 0 b old new.
Proof.
  intros Hold. induction a as [|x a IH]; intros b Hno.
  - rewrite !append_nil. subst old. rewrite append_cons.
    cbn [replace_from]. rewrite <- append_cons, HasPrefix_app.
    f_equal. cbn [String.length]. replace (S (String.length rest) - 1)%nat
      with (String.length rest) by lia.
    now apply replace_skip.
  - rewrite !append_cons. cbn [replace_from].
    assert (HasPrefix (String x (a +:+ old +:+ b)) old = false) as ->.
    { subst old. simpl. destruct (Ascii.eqb_spec x c) as [->|Hne]; [|reflexivity].
      exfalso. apply Hno. now left. }
    f_equal. apply IH. intros H. apply Hno. now right.
Qed.

Lemma fold_add_srt pathName udp ts : forall fs,
  fold_left (add_srt pathName udp) ts fs
  = fs ++ map (fun t => mkEntry (ReplaceAll (t_URL t) MTX_PATH pathName)
                          (SrtForwarder (Srt.newSRTForwarder (t_Reconnect t) udp)))
              (filter (fun t => t_Enable t = true) ts).
Proof.
  induction ts as [|t ts IH]; intros fs; simpl; [now rewrite app_nil_r|].
  rewrite IH. unfold add_srt. rewrite filter_cons.
  destruct (t_Enable t); simpl; [now rewrite <- app_assoc | reflexivity].
Qed.

Lemma fold_add_webrtc pathName ts : forall fs,
  fold_left (add_webrtc pathName) ts fs
  = fs ++ map (fun t => mkEntry (ReplaceAll (t_URL t) MTX_PATH pathName)
                          (WebrtcForwarder (Whip.newWebRTCForwarder (t_Reconnect t))))
              (filter (fun t => t_Enable t = true) ts).
Proof.
  induction ts as [|t ts IH]; intros fs; simpl; [now rewrite app_nil_r|].
  rewrite IH. unfold add_webrtc. rewrite filter_cons.
  destruct (t_Enable t); simpl; [now rewrite <- app_assoc | reflexivity].
Qed.

Definition dollar : ascii := "$"%char.

(** X8. NewManager creates one forwarder per enabled target, the SRT targets
    first, then the WebRTC targets, each group in configuration order; the
    target of each is the configured URL with $MTX_PATH replaced by the path
    name (a URL without '$' is unchanged; an occurrence after a '$'-free
    prefix is replaced and the replacement goes on behind it); no forwarder is
    started or running. *)
Theorem NewManager_forwarders
        (srtTargets webrtcTargets : list Target) (strm : option nat) (udp : Z)
        (pathName : string) :
  let m := NewManager srtTargets webrtcTargets strm udp pathName in
  map GetTarget (forwarders m)
  = map (fun t => ReplaceAll (t_URL t) MTX_PATH pathName)
        (filter (fun t => t_Enable t = true) srtTargets
         ++ filter (fun t => t_Enable t = true) webrtcTargets)
  /\ (forall e, In e (forwarders m) ->
        ~ started (fw e) /\ Forwarder.IsRunning (fw e) = false)
  /\ (forall a : string, ~ contains_byte a dollar ->
        ReplaceAll a MTX_PATH pathName = a)
  /\ (forall a b : string, ~ contains_byte a dollar ->
        ReplaceAll (a +:+ MTX_PATH +:+ b) MTX_PATH pathName
        = a +:+ pathName +:+ ReplaceAll b MTX_PATH pathName).
Proof.
  cbv zeta. unfold NewManager. cbn [forwarders].
  rewrite fold_add_webrtc, fold_add_srt. cbn [app].
  split; [|split; [|split]].
  - rewrite !map_app, !map_map. reflexivity.
  - intros e Hin. apply in_app_or in Hin as [Hin|Hin];
      apply in_map_iff in Hin as (t & <- & _); simpl; split; auto.
  - intros a Hno. exact (replace_no_byte MTX_PATH pathName dollar "MTX_PATH" eq_refl a Hno).
  - intros a b Hno.
    exact (replace_occurrence MTX_PATH pathName dollar "MTX_PATH" eq_refl a b Hno).
Qed.

Lemma NewManager_forwarders_witness :
  ~ contains_byte "srt://host:8890?streamid=publish:" dollar
  /\ ReplaceAll "srt://host:8890?streamid=publish:$MTX_PATH" MTX_PATH "live/cam"
     = "srt://host:8890?streamid=publish:live/cam"%string.
Proof.
  assert (~ contains_byte "srt://host:8890?streamid=publish:" dollar) as Hno.
  { unfold dollar. simpl. intuition discriminate. }
  split; [exact Hno|].
  exact (proj2 (proj2 (proj2 (NewManager_forwarders [] [] None 0 "live/cam")))
           "srt://host:8890?streamid=publish:"%string EmptyString Hno).
Defined.

























End ForwarderManager.

(* ===================================================================== *)
(** ** internal/forwarder/manager.go : OutgoingTrack *)
(* ===================================================================== *)

Module OutgoingTrack.
Import TranscoderSource.

(** webrtc.RTPEncodingParameters, the fields read here. *)
Record RTPEncodingParameters : Type := mkEncoding {
  RID : string;
  SSRC : Z
}.

(** [uint32(x)] *)
Definition uint32 (x : Z) : Z := x mod 2 ^ 32.

Record OutgoingTrack : Type := mk {
  MimeType : string;                       (* Caps.MimeType *)
  track : option nat;                      (* *webrtc.TrackLocalStaticRTP *)
  sender : option nat;
  ssrc : Z;                                (* uint32 *)
  rtcpSender : option nat;
  simulcastEncodings : list RTPEncodingParameters;
  ridToSSRC : option (gmap string Z)       (* None = nil map *)
}.

(** [strings.Split(s, "/")[0]]: what precedes the first slash. *)
Fixpoint before_slash (s : string) : string :=
  match s with
  | EmptyString => EmptyString
  | String c rest =>
      if Ascii.eqb c "/"%char then EmptyString else String c (before_slash rest)
  end.

Definition isVideo (t : OutgoingTrack) : bool :=
  String.eqb (before_slash (MimeType t)) "video".

(** The track id chosen by setup. *)
Definition trackID (t : OutgoingTrack) : string :=
  if isVideo t then "video" else "audio".

(** What the peer connection answers to setup. *)
Inductive setup_env : Type :=
| NewTrackFails
| AddTrackFails (trk : nat)
| TrackAdded (trk snd : nat) (senderSSRC : Z) (rtcp : nat).

Inductive error : Type :=
| ErrEmptyEncodings        (* "encodings cannot be empty" *)
| ErrNewTrack
| ErrAddTrack
| ErrWrite.                (* the error of track.WriteRTP *)

(** setup (and its public wrapper Setup). *)
Definition setup (t : OutgoingTrack) (env : setup_env) : OutgoingTrack * option error :=
  match env with
  | NewTrackFails =>
      (mk (MimeType t) None (sender t) (ssrc t) (rtcpSender t)
          (simulcastEncodings t) (ridToSSRC t), Some ErrNewTrack)
  | AddTrackFails trk =>
      (mk (MimeType t) (Some trk) (sender t) (ssrc t) (rtcpSender t)
          (simulcastEncodings t) (ridToSSRC t), Some ErrAddTrack)
  | TrackAdded trk snd senderSSRC rtcp =>
      (mk (MimeType t) (Some trk) (Some snd) (uint32 senderSSRC) (Some rtcp)
          (simulcastEncodings t) (ridToSSRC t), None)
  end.

Definition Setup := setup.

(** The loop of ConfigureSimulcast that fills the new map. *)
Definition add_rid (m : gmap string Z) (enc : RTPEncodingParameters) : gmap string Z :=
  if String.eqb (RID enc) "" then m else <[RID enc := uint32 (SSRC enc)]> m.

Definition ConfigureSimulcast (t : OutgoingTrack) (encodings : list RTPEncodingParameters)
  : OutgoingTrack * option error :=
  match encodings with
  | [] => (t, Some ErrEmptyEncodings)
  | first :: _ =>
      (mk (MimeType t) (track t) (sender t) (uint32 (SSRC first)) (rtcpSender t)
          encodings (Some (fold_left add_rid encodings ∅)),
       None)
  end.

Definition GetSimulcastEncodings (t : OutgoingTrack) : list RTPEncodingParameters :=
  simulcastEncodings t.

Definition GetSSRCForRID (t : OutgoingTrack) (rid : string) : Z * bool :=
  match ridToSSRC t with
  | None => (0, false)
  | Some m => match m !! rid with
              | Some v => (v, true)
              | None => (0, false)
              end
  end.

(** What WriteRTPWithRID does besides changing the packet. *)
Inductive effect : Type :=
| ProcessPacket (rtcp : nat) (pkt : Simulcast.Packet)    (* rtcpSender.ProcessPacket *)
| TrackWriteRTP (trk : nat) (pkt : Simulcast.Packet).    (* track.WriteRTP *)

(** WriteRTPWithRID: the packet of the caller after the call (its SSRC is
    assigned in place), the calls made, and the returned error; [writeOk]
    says whether track.WriteRTP succeeds. *)
Definition WriteRTPWithRID (t : OutgoingTrack) (pkt : Simulcast.Packet)
           (rid : string) (writeOk : bool)
  : Simulcast.Packet * list effect * option error :=
  let pkt' :=
    if negb (String.eqb rid "") && bool_decide (ridToSSRC t <> None)
    then match GetSSRCForRID t rid with
         | (v, true) => Simulcast.set_SSRC v pkt
         | (_, false) => Simulcast.set_SSRC (ssrc t) pkt
         end
    else Simulcast.set_SSRC (ssrc t) pkt in
  let e1 := match rtcpSender t with
            | Some r => [ProcessPacket r pkt']
            | None => []
            end in
  match track t with
  | Some trk =>
      (pkt', e1 ++ [TrackWriteRTP trk pkt'], if writeOk then None else Some ErrWrite)
  | None => (pkt', e1, None)
  end.

Definition WriteRTPWithNTP (t : OutgoingTrack) (pkt : Simulcast.Packet) (writeOk : bool) :=
  WriteRTPWithRID t pkt "" writeOk.

Definition WriteRTP (t : OutgoingTrack) (pkt : Simulcast.Packet) (writeOk : bool) :=
  WriteRTPWithNTP t pkt writeOk.

(** The last encoding of the list that carries the RID. *)
Fixpoint last_with_rid (rid : string) (encodings : list RTPEncodingParameters)
  : option RTPEncodingParameters :=
  match encodings with
  | [] => None
  | enc :: rest =>
      match last_with_rid rid rest with
      | Some e => Some e
      | None => if String.eqb (RID enc) rid then Some enc else None
      end
  end.

(* --------------------------------------------------------------------- *)

Lemma fold_add_rid_lookup rid : rid <> EmptyString -> forall encodings m,
  fold_left add_rid encodings m !! rid
  = match last_with_rid rid encodings with
    | Some e => Some (uint32 (SSRC e))
    | None => m !! rid
    end.
Proof.
  intros Hrid. induction encodings as [|enc rest IH]; intros m; simpl; [reflexivity|].
  rewrite IH. destruct (last_with_rid rid rest) as [e|]; [reflexivity|].
  unfold add_rid. destruct (String.eqb_spec (RID enc) "") as [E|E].
  - destruct (String.eqb_spec (RID enc) rid) as [E'|E']; [congruence | reflexivity].
  - destruct (String.eqb_spec (RID enc) rid) as [E'|E'].
    + rewrite E'. apply lookup_insert_eq.
    + now apply lookup_insert_ne.
Qed.

Lemma fold_add_rid_empty : forall encodings m,
  m !! EmptyString = None -> fold_left add_rid encodings m !! EmptyString = None.
Proof.
  induction encodings as [|enc rest IH]; intros m Hm; simpl; [exact Hm|].
  apply IH. unfold add_rid. destruct (String.eqb_spec (RID enc) "") as [E|E];
    [exact Hm|]. rewrite lookup_insert_ne; [exact Hm | exact E].
Qed.

Lemma ConfigureSimulcast_ok (t : OutgoingTrack) (encodings : list RTPEncodingParameters) :
  encodings <> [] ->
  exists t',
    ConfigureSimulcast t encodings = (t', None)
    /\ GetSimulcastEncodings t' = encodings
    /\ Some (ssrc t') = (fun e => uint32 (SSRC e)) <$> head encodings
    /\ GetSSRCForRID t' "" = (0, false)
    /\ (forall rid, rid <> EmptyString ->
          GetSSRCForRID t' rid
          = match last_with_rid rid encodings with
            | Some e => (uint32 (SSRC e), true)
            | None => (0, false)
            end).
Proof.
  intros Hne. destruct encodings as [|first rest]; [contradiction|].
  eexists. split; [reflexivity|]. split; [reflexivity|]. split; [reflexivity|].
  unfold GetSSRCForRID. cbn [ridToSSRC]. split.
  - rewrite fold_add_rid_empty; [reflexivity | apply lookup_empty].
  - intros rid Hrid. rewrite (fold_add_rid_lookup rid Hrid).
    destruct (last_with_rid rid (first :: rest)); [reflexivity|].
    now rewrite lookup_empty.
Qed.

(** X10. ConfigureSimulcast rejects an empty list; for a non-empty list it
    stores the encodings, takes the SSRC of the first one as the track's SSRC
    and builds the RID table: GetSSRCForRID(rid) is the SSRC of the last
    encoding with that RID, and (0, false) for the empty RID, for a RID no
    encoding has, and on a track that was never configured. *)
Theorem ConfigureSimulcast_rid_table
        (t : OutgoingTrack) (encodings : list RTPEncodingParameters) :
  ConfigureSimulcast t [] = (t, Some ErrEmptyEncodings)
  /\ (forall rid, ridToSSRC t = None -> GetSSRCForRID t rid = (0, false))
  /\ (encodings <> [] ->
      exists t',
        ConfigureSimulcast t encodings = (t', None)
        /\ GetSimulcastEncodings t' = encodings
        /\ Some (ssrc t') = (fun e => uint32 (SSRC e)) <$> head encodings
        /\ GetSSRCForRID t' "" = (0, false)
        /\ (forall rid, rid <> EmptyString ->
              GetSSRCForRID t' rid
              = match last_with_rid rid encodings with
                | Some e => (uint32 (SSRC e), true)
                | None => (0, false)
                end)).
Proof.
  split; [reflexivity|]. split.
  { intros rid H. unfold GetSSRCForRID. now rewrite H. }
  apply ConfigureSimulcast_ok.
Qed.

Definition three_layers : list RTPEncodingParameters :=
  [mkEncoding "h" 1111; mkEncoding "m" 2222; mkEncoding "l" 3333].

Definition new_track : OutgoingTrack := mk "video/H264" None None 0 None [] None.

Lemma ConfigureSimulcast_rid_table_witness :
  three_layers <> []
  /\ exists t', ConfigureSimulcast new_track three_layers = (t', None)
                /\ GetSSRCForRID t' "m" = (2222, true)
                /\ GetSSRCForRID t' "x" = (0, false).
Proof.
  assert (three_layers <> []) as Hne by discriminate.
  split; [exact Hne|].
  destruct (proj2 (proj2 (ConfigureSimulcast_rid_table new_track three_layers)) Hne)
    as (t' & Hc & _ & _ & _ & Hl).
  exists t'. split; [exact Hc|].
  split; [rewrite (Hl "m"%string) by discriminate|rewrite (Hl "x"%string) by discriminate];
    reflexivity.
Defined.

Lemma last_with_rid_unique rid : forall encodings (i : nat) e,
  encodings !! i = Some e -> RID e = rid ->
  (forall (j : nat) e', encodings !! j = Some e' -> RID e' = RID e -> j = i) ->
  last_with_rid rid encodings = Some e.
Proof.
  induction encodings as [|enc rest IH]; intros i e Hi Hr Huniq; [discriminate Hi|].
  simpl. destruct i as [|i]; simpl in Hi.
  - injection Hi as ->.
    destruct (last_with_rid rid rest) as [e'|] eqn:El.
    + exfalso.
      assert (exists j : nat, rest !! j = Some e' /\ RID e' = rid) as (j & Hj & Hrj).
      { clear -El. revert e' El. induction rest as [|x rest IH]; intros e' El;
          [discriminate El|]. simpl in El.
        destruct (last_with_rid rid rest) as [e0|] eqn:E0.
        - injection El as <-. destruct (IH e0 eq_refl) as (j & Hj & Hr).
          exists (S j). auto.
        - destruct (String.eqb_spec (RID x) rid) as [E|E]; [|discriminate El].
          injection El as <-. exists O. auto. }
      specialize (Huniq (S j) e' Hj). rewrite Hrj, Hr in Huniq.
      specialize (Huniq eq_refl). discriminate.
    + rewrite Hr, String.eqb_refl. reflexivity.
  - rewrite (IH i e Hi Hr); [reflexivity|].
    intros j e' Hj Hrj. specialize (Huniq (S j) e' Hj Hrj). lia.
Qed.

(** X11. On a track configured for simulcast, WriteRTPWithRID writes the
    packet with the SSRC of the encoding that has the RID (for a RID that one
    encoding has), and with the SSRC of the first encoding for the empty RID
    and for an unknown RID, which is also what WriteRTP does.  After a setup
    that succeeded the RID table is unchanged, and WriteRTP stamps the SSRC of
    the sender, hands the packet to the RTCP sender and then to the track. *)
Theorem WriteRTPWithRID_stamps_layer
        (t t' : OutgoingTrack) (encodings : list RTPEncodingParameters)
        (pkt : Simulcast.Packet) (writeOk : bool) :
  ConfigureSimulcast t encodings = (t', None) ->
  (forall (i : nat) e,
      encodings !! i = Some e -> RID e <> EmptyString ->
      (forall (j : nat) e', encodings !! j = Some e' -> RID e' = RID e -> j = i) ->
      fst (fst (WriteRTPWithRID t' pkt (RID e) writeOk))
      = Simulcast.set_SSRC (uint32 (SSRC e)) pkt)
  /\ (forall rid first,
        head encodings = Some first ->
        rid = EmptyString \/ last_with_rid rid encodings = None ->
        fst (fst (WriteRTPWithRID t' pkt rid writeOk))
        = Simulcast.set_SSRC (uint32 (SSRC first)) pkt)
  /\ (forall first, head encodings = Some first ->
        fst (fst (WriteRTP t' pkt writeOk))
        = Simulcast.set_SSRC (uint32 (SSRC first)) pkt)
  /\ (forall rid env t2,
        setup t' env = (t2, None) ->
        GetSSRCForRID t2 rid = GetSSRCForRID t' rid
        /\ exists trk snd s rtcp,
             env = TrackAdded trk snd s rtcp
             /\ WriteRTP t2 pkt writeOk
                = (Simulcast.set_SSRC (uint32 s) pkt,
                   [ProcessPacket rtcp (Simulcast.set_SSRC (uint32 s) pkt);
                    TrackWriteRTP trk (Simulcast.set_SSRC (uint32 s) pkt)],
                   if writeOk then None else Some ErrWrite)).
Proof.
  intros Hc.
  assert (encodings <> []) as Hne.
  { intros ->. discriminate Hc. }
  destruct (ConfigureSimulcast_ok t encodings Hne)
    as (t0 & Hc0 & _ & Hs & He & Hl).
  rewrite Hc in Hc0. injection Hc0 as <-.
  assert (ridToSSRC t' <> None) as Hmap.
  { destruct encodings; [contradiction|]. injection Hc as <-. discriminate. }
  split; [|split; [|split]].
  - intros i e Hi Hrid Huniq. unfold WriteRTPWithRID.
    rewrite (Hl (RID e) Hrid), (last_with_rid_unique (RID e) encodings i e Hi eq_refl Huniq).
    destruct (String.eqb_spec (RID e) "") as [E|_]; [contradiction|].
    rewrite bool_decide_eq_true_2 by exact Hmap. cbn [negb andb].
    destruct (track t'); reflexivity.
  - intros rid first Hh Hcase. unfold WriteRTPWithRID.
    rewrite Hh in Hs. injection Hs as Hs.
    destruct (String.eqb_spec rid "") as [->|Hr]; cbn [negb andb].
    + rewrite Hs. destruct (track t'); reflexivity.
    + rewrite bool_decide_eq_true_2 by exact Hmap.
      destruct Hcase as [E|E]; [contradiction|].
      rewrite (Hl rid Hr), E, Hs. destruct (track t'); reflexivity.
  - intros first Hh. unfold WriteRTP, WriteRTPWithNTP, WriteRTPWithRID.
    rewrite Hh in Hs. injection Hs as Hs. cbn [String.eqb negb andb].
    rewrite Hs. destruct (track t'); reflexivity.
  - intros rid env t2 Hsetup. unfold setup in Hsetup.
    destruct env as [|trk|trk snd s rtcp]; try discriminate.
    injection Hsetup as <-. split; [reflexivity|].
    exists trk, snd, s, rtcp. split; reflexivity.
Qed.

Lemma WriteRTPWithRID_stamps_layer_witness :
  exists t',
    ConfigureSimulcast new_track three_layers = (t', None)
    /\ Simulcast.SSRC
         (fst (fst (WriteRTPWithRID t' (Simulcast.mkPacket true 96 1 90000 5 [9]) "l" true)))
       = 3333.
Proof.
  eexists. split; [reflexivity|].
  match goal with
  | |- Simulcast.SSRC (fst (fst (WriteRTPWithRID ?t' ?p _ _))) = _ =>
      pose proof (proj1 (WriteRTPWithRID_stamps_layer new_track t' three_layers p true
                           eq_refl) 2%nat (mkEncoding "l" 3333) eq_refl) as H
  end.
  cbn [RID] in H. rewrite H.
  - reflexivity.
  - discriminate.
  - intros [|[|[|j]]] e' Hj Hr; try reflexivity; simpl in Hj;
      try (injection Hj as <-; discriminate Hr); discriminate Hj.
Defined.

Lemma before_slash_app (a b : string) :
  ~ contains_byte a "/"%char -> before_slash (a +:+ String "/"%char b) = a.
Proof.
  induction a as [|c a IH]; intros Hno.
  - reflexivity.
  - rewrite append_cons. simpl.
    destruct (Ascii.eqb_spec c "/"%char) as [->|Hne]; [exfalso; apply Hno; now left|].
    f_equal. apply IH. intros H. apply Hno. now right.
Qed.

Lemma before_slash_none (a : string) :
  ~ contains_byte a "/"%char -> before_slash a = a.
Proof.
  induction a as [|c a IH]; intros Hno; [reflexivity|]. simpl.
  destruct (Ascii.eqb_spec c "/"%char) as [->|Hne]; [exfalso; apply Hno; now left|].
  f_equal. apply IH. intros H. apply Hno. now right.
Qed.

Lemma before_slash_spec : forall s,
  (s = before_slash s /\ ~ contains_byte s "/"%char)
  \/ (exists rest, s = before_slash s +:+ String "/"%char rest).
Proof.
  induction s as [|c s IH]; [left; split; [reflexivity | simpl; tauto]|].
  simpl. destruct (Ascii.eqb_spec c "/"%char) as [->|Hne].
  - right. exists s. reflexivity.
  - destruct IH as [[IH Hno]|[rest IH]].
    + left. split; [now f_equal|]. simpl. intros [H|H]; [congruence | contradiction].
    + right. exists rest. rewrite append_cons. now f_equal.
Qed.

(** X12. isVideo is true exactly when the MIME type is "video" or starts with
    "video/". *)
Theorem isVideo_by_mime_prefix (t : OutgoingTrack) :
  isVideo t = true <->
  MimeType t = "video"%string \/ exists rest, MimeType t = "video/"%string +:+ rest.
Proof.
  unfold isVideo. split.
  - intros H. apply String.eqb_eq in H.
    destruct (before_slash_spec (MimeType t)) as [[Hs _]|[rest Hs]]; rewrite H in Hs.
    + now left.
    + right. exists rest. rewrite Hs. reflexivity.
  - intros [H|[rest H]]; rewrite H; reflexivity.
Qed.

End OutgoingTrack.

(* ===================================================================== *)
(** ** the simulcast source : randUint32, Run, createStreamDescription *)
(* ===================================================================== *)

Module SimulcastRun.
Import Simulcast.

(** The medias createStreamDescription appends for one upstream description:
    for every media of type [t], in order, one media holding the first format
    picked by [pick], if there is one. *)
Definition single_format_medias (t : MediaType) (pick : list Format -> option Format)
           (ms : list Media) : list Media :=
  flat_map (fun media =>
              if MediaType_eqb (mType media) t
              then match pick (Formats media) with
                   | Some f => [mkMedia t [f]]
                   | None => []
                   end
              else [])
           ms.

(** The first configured input of the given type (the loops break at it). *)
Fixpoint first_typed (ty : string) (inputs : list SimulcastInput)
  : option SimulcastInput :=
  match inputs with
  | [] => None
  | input :: rest =>
      if String.eqb (Type_ input) ty then Some input else first_typed ty rest
  end.

Definition medias_of (s : Source) (t : MediaType) (pick : list Format -> option Format)
           (input : option SimulcastInput) : list Media :=
  match input with
  | Some input =>
      match inputStreams s !! Path input with
      | Some (_, desc) => single_format_medias t pick desc
      | None => []
      end
  | None => []
  end.

(** createStreamDescription: the Medias of the session it returns. *)
Definition createStreamDescription (s : Source) (inputs : list SimulcastInput)
  : list Media :=
  medias_of s MediaTypeVideo first_h264 (first_typed "video" inputs)
  ++ medias_of s MediaTypeAudio first_opus (first_typed "audio" inputs).

(** The calls disconnectInputs makes. *)
Inductive release : Type :=
| StreamRemoveReader (strm reader : nat)       (* strm.RemoveReader(reader) *)
| PMRemoveReader (path : string).              (* s.PathManager.RemoveReader(...) *)

(** disconnectInputs: the two loops over s.readers (in the order of the map),
    then the two maps are replaced by empty ones; layerMapping is kept. *)
Definition disconnectInputs (s : Source) : Source * list release :=
  (mkSource ∅ ∅ (layerMapping s) (nextReader s),
   flat_map (fun '(path, reader) =>
               match inputStreams s !! path with
               | Some (strm, _) => [StreamRemoveReader strm reader]
               | None => []
               end)
            (map_to_list (readers s))
   ++ map (fun '(path, _) => PMRemoveReader path) (map_to_list (readers s))).

Inductive run_error : Type :=
| ErrConnectInputs (e : connect_error)   (* "failed to connect inputs" *)
| ErrSetReady.                           (* "failed to set ready" *)

(** Run: [setReady] is the description handed to Parent.SetReady when it is
    called and whether it succeeded; the result is the Source at the return,
    the releases made by the deferred disconnectInputs, and the error. *)
Definition Run (s : Source) (inputs : list (SimulcastInput * attach_env))
           (setReadyOk : bool)
  : Source * option (list Media) * list release * option run_error :=
  match connectInputs s inputs with
  | (s', Some e) => (s', None, [], Some (ErrConnectInputs e))
  | (s', None) =>
      (* defer s.disconnectInputs() *)
      let desc := createStreamDescription s' (map fst inputs) in
      let '(s'', rel) := disconnectInputs s' in
      (s'', Some desc, rel, if setReadyOk then None else Some ErrSetReady)
  end.

(* --------------------------------------------------------------------- *)

Lemma land_shifted_low a b n :
  0 <= n -> 0 <= b < 2 ^ n -> Z.land (a * 2 ^ n) b = 0.
Proof.
  intros Hn Hb. apply Z.bits_inj'. intros k Hk.
  rewrite Z.land_spec, Z.bits_0.
  destruct (Z.lt_ge_cases k n) as [Hlt|Hge].
  - rewrite Z.mul_pow2_bits_low by lia. reflexivity.
  - rewrite <- (Z.mod_small b (2 ^ n)) by lia.
    rewrite Z.mod_pow2_bits_high by lia. apply andb_false_r.
Qed.

Lemma lor_shifted_low a b n :
  0 <= n -> 0 <= b < 2 ^ n -> Z.lor (a * 2 ^ n) b = a * 2 ^ n + b.
Proof.
  intros Hn Hb. rewrite <- Z.add_lor_land, land_shifted_low by assumption. lia.
Qed.

Ltac pow_lia :=
  change (2 ^ 32) with 4294967296 in *; change (2 ^ 24) with 16777216 in *;
  change (2 ^ 16) with 65536 in *; change (2 ^ 8) with 256 in *; lia.

Lemma uint32_of_bytes_value b0 b1 b2 b3 :
  is_byte b0 -> is_byte b1 -> is_byte b2 -> is_byte b3 ->
  uint32_of_bytes b0 b1 b2 b3 = b0 * 2 ^ 24 + b1 * 2 ^ 16 + b2 * 2 ^ 8 + b3.
Proof.
  unfold is_byte, uint32_of_bytes. intros H0 H1 H2 H3.
  rewrite !Z.shiftl_mul_pow2 by lia.
  rewrite (Z.mod_small (b0 * 2 ^ 24)) by pow_lia.
  rewrite (Z.mod_small (b1 * 2 ^ 16)) by pow_lia.
  rewrite (Z.mod_small (b2 * 2 ^ 8)) by pow_lia.
  rewrite (lor_shifted_low b0 (b1 * 2 ^ 16) 24) by pow_lia.
  replace (b0 * 2 ^ 24 + b1 * 2 ^ 16) with ((b0 * 2 ^ 8 + b1) * 2 ^ 16) by pow_lia.
  rewrite (lor_shifted_low (b0 * 2 ^ 8 + b1) (b2 * 2 ^ 8) 16) by pow_lia.
  replace ((b0 * 2 ^ 8 + b1) * 2 ^ 16 + b2 * 2 ^ 8)
    with ((b0 * 2 ^ 16 + b1 * 2 ^ 8 + b2) * 2 ^ 8) by pow_lia.
  rewrite (lor_shifted_low _ b3 8) by pow_lia. pow_lia.
Qed.

(** X13. randUint32 reads the four bytes big-endian: the value is
    b0 * 2^24 + b1 * 2^16 + b2 * 2^8 + b3, distinct byte quadruples give
    distinct values, and every 32-bit value is the value of its own four
    bytes. *)
Theorem randUint32_big_endian :
  (forall b0 b1 b2 b3,
      is_byte b0 -> is_byte b1 -> is_byte b2 -> is_byte b3 ->
      uint32_of_bytes b0 b1 b2 b3 = b0 * 2 ^ 24 + b1 * 2 ^ 16 + b2 * 2 ^ 8 + b3)
  /\ (forall b0 b1 b2 b3 c0 c1 c2 c3,
        is_byte b0 -> is_byte b1 -> is_byte b2 -> is_byte b3 ->
        is_byte c0 -> is_byte c1 -> is_byte c2 -> is_byte c3 ->
        uint32_of_bytes b0 b1 b2 b3 = uint32_of_bytes c0 c1 c2 c3 ->
        b0 = c0 /\ b1 = c1 /\ b2 = c2 /\ b3 = c3)
  /\ (forall v, 0 <= v < 2 ^ 32 ->
        is_byte (v / 2 ^ 24) /\ is_byte (v / 2 ^ 16 mod 256)
        /\ is_byte (v / 2 ^ 8 mod 256) /\ is_byte (v mod 256)
        /\ uint32_of_bytes (v / 2 ^ 24) (v / 2 ^ 16 mod 256)
                           (v / 2 ^ 8 mod 256) (v mod 256) = v).
Proof.
  split; [exact uint32_of_bytes_value|]. split.
  - intros b0 b1 b2 b3 c0 c1 c2 c3 Hb0 Hb1 Hb2 Hb3 Hc0 Hc1 Hc2 Hc3.
    rewrite !uint32_of_bytes_value by assumption.
    unfold is_byte in *. pow_lia.
  - intros v Hv.
    assert (is_byte (v / 2 ^ 24)) as H0.
    { unfold is_byte. split; [apply Z.div_pos; pow_lia|].
      apply Z.div_lt_upper_bound; pow_lia. }
    assert (forall x, is_byte (x mod 256)) as Hm
      by (intros x; unfold is_byte; apply Z.mod_pos_bound; lia).
    repeat (split; [first [exact H0 | apply Hm]|]).
    rewrite uint32_of_bytes_value by first [exact H0 | apply Hm].
    assert (v / 2 ^ 8 / 2 ^ 8 = v / 2 ^ 16) as D2
      by (rewrite Z.div_div by lia; reflexivity).
    assert (v / 2 ^ 16 / 2 ^ 8 = v / 2 ^ 24) as D3
      by (rewrite Z.div_div by lia; reflexivity).
    pose proof (Z.div_mod v (2 ^ 8) ltac:(lia)) as E1.
    pose proof (Z.div_mod (v / 2 ^ 8) (2 ^ 8) ltac:(lia)) as E2.
    pose proof (Z.div_mod (v / 2 ^ 16) (2 ^ 8) ltac:(lia)) as E3.
    rewrite D2 in E2. rewrite D3 in E3. pow_lia.
Qed.

Lemma randUint32_big_endian_witness :
  is_byte 1 /\ is_byte 2 /\ is_byte 3 /\ is_byte 4
  /\ uint32_of_bytes 1 2 3 4 = 16909060.
Proof.
  assert (is_byte 1 /\ is_byte 2 /\ is_byte 3 /\ is_byte 4) as (H1 & H2 & H3 & H4)
    by (unfold is_byte; lia).
  repeat (split; [assumption|]).
  rewrite (proj1 randUint32_big_endian 1 2 3 4 H1 H2 H3 H4). reflexivity.
Defined.

Lemma first_h264_Some fs f : first_h264 fs = Some f -> exists pt, f = H264 pt.
Proof.
  induction fs as [|x fs IH]; [discriminate|]. simpl.
  destruct x; [intros [= <-]; eauto | exact IH | exact IH].
Qed.

Lemma first_opus_Some fs f : first_opus fs = Some f -> exists pt, f = Opus pt.
Proof.
  induction fs as [|x fs IH]; [discriminate|]. simpl.
  destruct x; [exact IH | intros [= <-]; eauto | exact IH].
Qed.

Lemma MediaType_eqb_eq a b : MediaType_eqb a b = true <-> a = b.
Proof. destruct a, b; simpl; split; congruence. Qed.

Lemma single_format_medias_In t pick ms m :
  In m (single_format_medias t pick ms) ->
  mType m = t /\ exists media f, In media ms /\ mType media = t
                                 /\ pick (Formats media) = Some f /\ Formats m = [f].
Proof.
  unfold single_format_medias. intros H. apply in_flat_map in H as (media & Hin & H).
  destruct (MediaType_eqb (mType media) t) eqn:E; [|destruct H].
  destruct (pick (Formats media)) as [f|] eqn:Ep; [|destruct H].
  destruct H as [<-|[]]. split; [reflexivity|].
  exists media, f. apply MediaType_eqb_eq in E. auto.
Qed.

Lemma medias_of_In s t pick input m :
  In m (medias_of s t pick input) ->
  mType m = t /\ exists f, Formats m = [f]
                           /\ exists fs, pick fs = Some f.
Proof.
  unfold medias_of. destruct input as [input|]; [|intros []].
  destruct (inputStreams s !! Path input) as [[strm desc]|]; [|intros []].
  intros H. apply single_format_medias_In in H as (Ht & media & f & _ & _ & Hp & Hf).
  split; [exact Ht|]. exists f. split; [exact Hf|]. eauto.
Qed.

Lemma createStreamDescription_parts (s : Source) (inputs : list SimulcastInput) :
  exists video audio,
    createStreamDescription s inputs = video ++ audio
    /\ (forall m, In m video ->
          mType m = MediaTypeVideo /\ exists pt, Formats m = [H264 pt])
    /\ (forall m, In m audio ->
          mType m = MediaTypeAudio /\ exists pt, Formats m = [Opus pt])
    /\ ((forall input, In input inputs -> Type_ input <> "video"%string) -> video = [])
    /\ ((forall input, In input inputs -> Type_ input <> "audio"%string) -> audio = []).
Proof.
  assert (forall ty, (forall input, In input inputs -> Type_ input <> ty) ->
                     first_typed ty inputs = None) as Hnone.
  { intros ty. induction inputs as [|input rest IH]; intros H; [reflexivity|].
    simpl. destruct (String.eqb_spec (Type_ input) ty) as [E|E].
    - exfalso. exact (H input (or_introl eq_refl) E).
    - apply IH. intros i Hi. apply H. now right. }
  exists (medias_of s MediaTypeVideo first_h264 (first_typed "video" inputs)),
         (medias_of s MediaTypeAudio first_opus (first_typed "audio" inputs)).
  split; [reflexivity|]. split; [|split; [|split]].
  - intros m Hm. apply medias_of_In in Hm as (Ht & f & Hf & fs & Hp).
    split; [exact Ht|]. apply first_h264_Some in Hp as (pt & ->). eauto.
  - intros m Hm. apply medias_of_In in Hm as (Ht & f & Hf & fs & Hp).
    split; [exact Ht|]. apply first_opus_Some in Hp as (pt & ->). eauto.
  - intros H. now rewrite (Hnone _ H).
  - intros H. now rewrite (Hnone _ H).
Qed.

(** X14. The description of the simulcast output lists video medias first and
    audio medias after them; every video media has exactly one format, an
    H.264 one, and every audio media exactly one, an Opus one; without a
    video-typed input there is no video media, without an audio-typed input
    no audio media. *)
Theorem createStreamDescription_shape (s : Source) (inputs : list SimulcastInput) :
  exists video audio,
    createStreamDescription s inputs = video ++ audio
    /\ (forall m, In m video ->
          mType m = MediaTypeVideo /\ exists pt, Formats m = [H264 pt])
    /\ (forall m, In m audio ->
          mType m = MediaTypeAudio /\ exists pt, Formats m = [Opus pt])
    /\ ((forall input, In input inputs -> Type_ input <> "video"%string) -> video = [])
    /\ ((forall input, In input inputs -> Type_ input <> "audio"%string) -> audio = []).
Proof. apply createStreamDescription_parts. Qed.

Lemma first_typed_Some ty inputs input :
  first_typed ty inputs = Some input -> In input inputs /\ Type_ input = ty.
Proof.
  induction inputs as [|x rest IH]; [discriminate|]. simpl.
  destruct (String.eqb_spec (Type_ x) ty) as [E|E].
  - intros [= <-]. auto.
  - intros H. destruct (IH H). auto.
Qed.

(** The description built from a description in which a track is found
    begins with that track's media reduced to the found format. *)
Lemma single_format_medias_head t pick desc m f :
  find_track t pick desc = Some (m, f) ->
  exists rest, single_format_medias t pick desc = mkMedia t [f] :: rest.
Proof.
  unfold find_track, single_format_medias.
  induction desc as [|x desc IH]; simpl; [discriminate|].
  destruct (MediaType_eqb (mType x) t) eqn:E.
  - destruct (pick (Formats x)) as [f0|]; [|discriminate].
    intros [= <- <-]. simpl. eauto.
  - intros H. destruct (IH H) as (rest & ->). simpl. eauto.
Qed.

Lemma find_track_video_head pt rest :
  find_track MediaTypeVideo first_h264 (mkMedia MediaTypeVideo [H264 pt] :: rest)
  = Some (mkMedia MediaTypeVideo [H264 pt], H264 pt).
Proof. reflexivity. Qed.

(** X15. The forwarder of the first video-typed input writes, for a unit with
    a payload, every RTP packet of the unit, in order, to the H.264 media of
    the output, with the SSRC of the layer, the unit's NTP and the packet's
    timestamp; once the context is done it writes nothing and returns an
    error. *)
Theorem first_video_layer_is_written
        (s : Source) (inputs : list SimulcastInput) (input : SimulcastInput)
        (cb : bool -> Unit -> option (list Written)) (u : Unit) :
  first_typed "video" inputs = Some input ->
  forwardInput s (createStreamDescription s inputs) input = Some cb ->
  NilPayload u = false ->
  exists li pt ntp_media,
    layerMapping s !! Path input = Some li
    /\ ntp_media = mkMedia MediaTypeVideo [H264 pt]
    /\ cb false u
       = Some (map (fun p => mkWritten ntp_media (H264 pt) (set_SSRC (li_SSRC li) p)
                                       (NTP u) (Timestamp p))
                   (RTPPackets u))
    /\ cb true u = None.
Proof.
  intros Hfirst Hf Hnil.
  destruct (first_typed_Some _ _ _ Hfirst) as [_ Hty].
  unfold forwardInput in Hf.
  destruct (inputStreams s !! Path input) as [[strm desc]|] eqn:Hs; [|discriminate].
  destruct (readers s !! Path input) as [r|]; [|discriminate].
  destruct (layerMapping s !! Path input) as [li|]; [|discriminate].
  rewrite Hty in Hf. cbn [String.eqb Ascii.eqb Bool.eqb andb] in Hf.
  unfold forwardVideo in Hf.
  destruct (find_track MediaTypeVideo first_h264 desc) as [[m f]|] eqn:Hft;
    [|discriminate].
  injection Hf as <-.
  destruct (single_format_medias_head _ _ _ _ _ Hft) as (rest & Hhead).
  assert (exists pt, f = H264 pt) as (pt & ->).
  { unfold find_track in Hft. destruct (first_media MediaTypeVideo desc); [|discriminate].
    destruct (first_h264 (Formats m0)) eqn:E; [|discriminate].
    injection Hft as _ <-. eapply first_h264_Some; eauto. }
  exists li, pt, (mkMedia MediaTypeVideo [H264 pt]).
  split; [reflexivity|]. split; [reflexivity|]. split; [|reflexivity].
  unfold forwardVideo_OnData. rewrite Hnil.
  unfold createStreamDescription. rewrite Hfirst. unfold medias_of at 1.
  rewrite Hs, Hhead. cbn [app]. rewrite find_track_video_head.
  reflexivity.
Qed.

Definition one_video : list (SimulcastInput * attach_env) := [(video_layer, video_env)].

Lemma first_video_layer_is_written_witness :
  let s := fst (connectInputs New one_video) in
  exists cb,
    forwardInput s (createStreamDescription s [video_layer]) video_layer = Some cb
    /\ (List.length <$> cb false video_unit) = Some 2%nat.
Proof.
  intros s.
  destruct (forwardInput s (createStreamDescription s [video_layer]) video_layer)
    as [cb|] eqn:Hf; [|discriminate Hf].
  exists cb. split; [reflexivity|].
  destruct (first_video_layer_is_written s [video_layer] video_layer cb video_unit
              eq_refl Hf eq_refl) as (li & pt & m & _ & _ & -> & _).
  simpl. reflexivity.
Defined.

Lemma first_media_none t ms :
  (forall m, In m ms -> mType m <> t) -> first_media t ms = None.
Proof.
  induction ms as [|m ms IH]; intros H; [reflexivity|]. simpl.
  destruct (MediaType_eqb (mType m) t) eqn:E.
  - apply MediaType_eqb_eq in E. exfalso. exact (H m (or_introl eq_refl) E).
  - apply IH. intros m' Hm'. apply H. now right.
Qed.

(** X16. An input whose type is not "video" is forwarded as audio; when no
    input is typed "audio" the output has no Opus track, and the forwarder of
    such an input writes nothing, whatever the unit. *)
Theorem untyped_layer_is_dropped
        (s : Source) (inputs : list SimulcastInput) (input : SimulcastInput)
        (cb : bool -> Unit -> option (list Written)) (ctxDone : bool) (u : Unit)
        (ws : list Written) :
  (forall i, In i inputs -> Type_ i <> "audio"%string) ->
  Type_ input <> "video"%string ->
  forwardInput s (createStreamDescription s inputs) input = Some cb ->
  cb ctxDone u = Some ws ->
  ws = [].
Proof.
  intros Hnoaudio Hty Hf Hcb.
  destruct (createStreamDescription_parts s inputs) as (video & audio & Hd & Hv & _ & _ & Ha).
  rewrite (Ha Hnoaudio), app_nil_r in Hd.
  unfold forwardInput in Hf.
  destruct (inputStreams s !! Path input) as [[strm desc]|]; [|discriminate].
  destruct (readers s !! Path input) as [r|]; [|discriminate].
  destruct (layerMapping s !! Path input) as [li|]; [|discriminate].
  destruct (String.eqb_spec (Type_ input) "video") as [E|_]; [contradiction|].
  unfold forwardAudio in Hf.
  destruct (find_track MediaTypeAudio first_opus desc); [|discriminate].
  injection Hf as <-. unfold forwardAudio_OnData in Hcb.
  destruct ctxDone; [discriminate|].
  destruct (NilPayload u); [now injection Hcb as <-|].
  injection Hcb as <-. rewrite Hd. unfold find_track.
  rewrite first_media_none.
  - induction (RTPPackets u) as [|pk ps IH]; [reflexivity | exact IH].
  - intros m Hm. destruct (Hv m Hm) as [-> _]. discriminate.
Qed.

Definition data_layer : SimulcastInput := mkInput "live/d" "low" "" 64000 "data".

Lemma untyped_layer_is_dropped_witness :
  let s := fst (connectInputs New [(data_layer, audio_env)]) in
  exists cb,
    forwardInput s (createStreamDescription s [data_layer]) data_layer = Some cb
    /\ cb false audio_unit = Some [].
Proof.
  intros s.
  destruct (forwardInput s (createStreamDescription s [data_layer]) data_layer)
    as [cb|] eqn:Hf; [|discriminate Hf].
  exists cb. split; [reflexivity|].
  destruct (cb false audio_unit) as [ws|] eqn:Hcb;
    [|injection Hf as <-; discriminate Hcb].
  f_equal.
  apply (untyped_layer_is_dropped s [data_layer] data_layer cb false audio_unit ws);
    [| discriminate | exact Hf | exact Hcb].
  intros i [<-|[]]. discriminate.
Defined.

(** The entries one connectInput leaves are those it found, possibly with
    the input's own. *)
Lemma connectInput_keeps s input env s' r (p : string) :
  connectInput s input env = (s', r) ->
  (is_Some (readers s !! p) -> is_Some (readers s' !! p))
  /\ (is_Some (inputStreams s !! p) -> is_Some (inputStreams s' !! p)).
Proof.
  unfold connectInput.
  destruct env as [| | |strm desc rand]; try (intros [= <- <-]; auto).
  destruct desc as [|m desc]; [intros [= <- <-]; auto|].
  destruct rand as [[[[b0 b1] b2] b3]|]; intros [= <- <-]; simpl;
    (split; intros H;
     (destruct (decide (Path input = p)) as [<-|Hne];
      [rewrite lookup_insert_eq; eauto | rewrite lookup_insert_ne by exact Hne; exact H])).
Qed.

Lemma connectInput_registers s input env s' :
  connectInput s input env = (s', None) ->
  is_Some (readers s' !! Path input) /\ is_Some (inputStreams s' !! Path input).
Proof.
  intros H. apply connectInput_ok in H as (strm & desc & b0 & b1 & b2 & b3 & _ & _ & -> & ->).
  rewrite !lookup_insert_eq. eauto.
Qed.

(** Where connectInputs stops, the inputs before the failing one are
    registered. *)
Lemma connectInputs_failure inputs : forall s s' e,
  connectInputs s inputs = (s', Some e) ->
  exists (k : nat) input env sk,
    inputs !! k = Some (input, env)
    /\ connectInput sk input env = (s', Some e)
    /\ (forall (j : nat) ij ej, (j < k)%nat -> inputs !! j = Some (ij, ej) ->
          is_Some (readers s' !! Path ij) /\ is_Some (inputStreams s' !! Path ij)).
Proof.
  induction inputs as [|[input env] rest IH]; intros s s' e; simpl; [discriminate|].
  destruct (connectInput s input env) as [s1 [e1|]] eqn:E.
  - intros [= <- <-]. exists O, input, env, s. split; [reflexivity|].
    split; [exact E|]. intros j ij ej Hj. lia.
  - intros Hrest. destruct (IH s1 s' e Hrest) as (k & ik & ek & sk & Hk & Hfail & Hpre).
    exists (S k), ik, ek, sk. split; [exact Hk|]. split; [exact Hfail|].
    intros [|j] ij ej Hj Hl; simpl in Hl.
    + injection Hl as <- <-.
      destruct (connectInput_registers _ _ _ _ E) as [Hr Hi].
      clear IH Hpre. revert Hr Hi. revert Hrest. generalize s1. clear.
      induction rest as [|[i2 e2] rest IH]; intros s1; simpl; [discriminate|].
      destruct (connectInput s1 i2 e2) as [s2 [e3|]] eqn:E2.
      * intros [= <- <-] Hr Hi.
        destruct (connectInput_keeps _ _ _ _ _ (Path input) E2). auto.
      * intros Hrest Hr Hi.
        destruct (connectInput_keeps _ _ _ _ _ (Path input) E2).
        apply (IH s2); auto.
    + apply (Hpre j ij ej); [lia | exact Hl].
Qed.

Lemma connectInputs_success inputs : forall s s',
  connectInputs s inputs = (s', None) ->
  forall (j : nat) ij ej, inputs !! j = Some (ij, ej) ->
    is_Some (readers s' !! Path ij) /\ is_Some (inputStreams s' !! Path ij).
Proof.
  induction inputs as [|[input env] rest IH]; intros s s'; simpl.
  - intros _ j ij ej Hj. discriminate Hj.
  - destruct (connectInput s input env) as [s1 [e1|]] eqn:E; [discriminate|].
    intros Hrest [|j] ij ej Hl; simpl in Hl.
    + injection Hl as <- <-.
      destruct (connectInput_registers _ _ _ _ E) as [Hr Hi].
      revert Hr Hi. revert Hrest. generalize s1. clear.
      induction rest as [|[i2 e2] rest IH]; intros s1; simpl.
      * intros [= <-]. auto.
      * destruct (connectInput s1 i2 e2) as [s2 [e3|]] eqn:E2; [discriminate|].
        intros Hrest Hr Hi.
        destruct (connectInput_keeps _ _ _ _ _ (Path input) E2).
        apply (IH s2); auto.
    + exact (IH s1 s' Hrest j ij ej Hl).
Qed.

(** X17. When connectInputs fails, Run returns that error without calling
    SetReady and without disconnecting: the inputs before the failing one stay
    registered with their readers and streams, and so does the failing input
    itself when the failure is the SSRC draw. *)
Theorem Run_connect_failure_keeps_readers
        (s : Source) (inputs : list (SimulcastInput * attach_env)) (setReadyOk : bool)
        (s' : Source) (e : connect_error) :
  connectInputs s inputs = (s', Some e) ->
  Run s inputs setReadyOk = (s', None, [], Some (ErrConnectInputs e))
  /\ exists (k : nat) input env,
       inputs !! k = Some (input, env)
       /\ (forall (j : nat) ij ej, (j < k)%nat -> inputs !! j = Some (ij, ej) ->
             is_Some (readers s' !! Path ij) /\ is_Some (inputStreams s' !! Path ij))
       /\ (e = ErrSSRC (Path input) ->
             is_Some (readers s' !! Path input)
             /\ is_Some (inputStreams s' !! Path input)).
Proof.
  intros Hc. split; [unfold Run; now rewrite Hc|].
  destruct (connectInputs_failure inputs s s' e Hc) as (k & input & env & sk & Hk & Hf & Hpre).
  exists k, input, env. split; [exact Hk|]. split; [exact Hpre|].
  intros ->. unfold connectInput in Hf.
  destruct env as [| | |strm desc rand]; try discriminate.
  destruct desc as [|m desc]; [discriminate|].
  destruct rand as [[[[b0 b1] b2] b3]|]; [discriminate|].
  injection Hf as <-. simpl. rewrite !lookup_insert_eq. eauto.
Qed.

Definition second_never_ready : list (SimulcastInput * attach_env) :=
  [(video_layer, video_env); (audio_layer, NeverReady)].

Lemma Run_connect_failure_keeps_readers_witness :
  exists s',
    connectInputs New second_never_ready = (s', Some (ErrNotReady "live/a"))
    /\ Run New second_never_ready true
       = (s', None, [], Some (ErrConnectInputs (ErrNotReady "live/a")))
    /\ readers s' !! Path video_layer = Some 0%nat.
Proof.
  eexists. split; [reflexivity|].
  split; [|reflexivity].
  match goal with
  | |- Run _ _ _ = (?s', _, _, _) =>
      exact (proj1 (Run_connect_failure_keeps_readers
                      New second_never_ready true s' (ErrNotReady "live/a") eq_refl))
  end.
Defined.

(** X18. When connectInputs succeeds, Run hands the stream description to
    SetReady and, whether SetReady succeeds or not, disconnects on its way
    out: for every input, the reader registered under its path is removed
    from its stream and the path manager is told to remove the reader of that
    path; the reader and stream maps are empty afterwards (the layer mapping
    is kept), so no input can be forwarded any more. *)
Theorem Run_disconnects_inputs
        (s : Source) (inputs : list (SimulcastInput * attach_env)) (setReadyOk : bool)
        (s' : Source) :
  connectInputs s inputs = (s', None) ->
  exists s'' rel,
    Run s inputs setReadyOk
    = (s'', Some (createStreamDescription s' (map fst inputs)), rel,
       if setReadyOk then None else Some ErrSetReady)
    /\ readers s'' = ∅ /\ inputStreams s'' = ∅
    /\ layerMapping s'' = layerMapping s'
    /\ (forall (j : nat) ij ej, inputs !! j = Some (ij, ej) ->
          In (PMRemoveReader (Path ij)) rel
          /\ exists strm reader, In (StreamRemoveReader strm reader) rel
                                 /\ readers s' !! Path ij = Some reader)
    /\ (forall outDesc input, forwardInput s'' outDesc input = None).
Proof.
  intros Hc. unfold Run. rewrite Hc. unfold disconnectInputs.
  eexists. eexists. split; [reflexivity|]. cbn [readers inputStreams layerMapping].
  split; [reflexivity|]. split; [reflexivity|]. split; [reflexivity|]. split.
  - intros j ij ej Hj.
    destruct (connectInputs_success inputs s s' Hc j ij ej Hj) as [[r Hr] [[strm d] Hi]].
    split.
    + apply in_or_app. right. apply in_map_iff. exists (Path ij, r).
      split; [reflexivity|]. apply list_elem_of_In, elem_of_map_to_list. exact Hr.
    + exists strm, r. split; [|exact Hr].
      apply in_or_app. left. apply in_flat_map. exists (Path ij, r).
      split; [apply list_elem_of_In, elem_of_map_to_list; exact Hr|].
      rewrite Hi. now left.
  - intros outDesc input. unfold forwardInput. cbn [inputStreams].
    now rewrite lookup_empty.
Qed.

Lemma Run_disconnects_inputs_witness :
  exists s' s'' rel desc,
    connectInputs New one_video = (s', None)
    /\ Run New one_video true = (s'', Some desc, rel, None)
    /\ readers s'' = ∅ /\ In (PMRemoveReader "live/h") rel.
Proof.
  destruct (Run_disconnects_inputs New one_video true
              (fst (connectInputs New one_video)) eq_refl)
    as (s'' & rel & HR & Hr & _ & _ & Hrel & _).
  exists (fst (connectInputs New one_video)), s'', rel.
  eexists.
  split; [reflexivity|]. split; [exact HR|]. split; [exact Hr|].
  exact (proj1 (Hrel 0%nat video_layer video_env eq_refl)).
Defined.

End SimulcastRun.

(* ===================================================================== *)
(** ** internal/transcoder/manager.go : Manager.Stop, buildFFmpegArgs *)
(* ===================================================================== *)

Module TranscoderOutputs.
Import Transcoder.

(** GetOutputStream: the output whose stream is returned ([None] = nil).  An
    output owns one stream, so the output's place on the heap names it. *)
Definition GetOutputStream (m : Manager) (outputPath : string) : option nat :=
  outputs m !! outputPath.

Definition IsActive (m : Manager) : bool := active m.

(** Output.Stop: the flag; the context, the pipes and the process are the
    output's own. *)
Definition Output_Stop (o : Output) : Output :=
  if negb (o_active o) then o
  else mkOutput (o_config o) (o_desc o) false.

(** The loop of Manager.Stop over the map: each entry's output is stopped. *)
Definition stop_outputs (outs : gmap string nat) (heap : list Output) : list Output :=
  foldr (fun '(_, ptr) h => alter Output_Stop ptr h) heap (map_to_list outs).

Definition Stop (m : Manager) (heap : list Output) : Manager * list Output :=
  if negb (active m) then (m, heap)
  else (mkManager (config m) (inputStream m) ∅ false, stop_outputs (outputs m) heap).

(** [uint] arithmetic of Go. *)
Definition uint_mul (a b : Z) : Z := (a * b) mod 2 ^ 64.
Definition uint_div (a b : Z) : Z := a / b.

(** [fmt.Sprintf("%d", n)] for an unsigned [n]. *)
Definition itoa (n : Z) : string := pretty (Z.to_N n).

(** buildFFmpegArgs *)
Definition buildFFmpegArgs (config : OutputConfig) : list string :=
  let args := ["-f"; "mpegts"; "-i"; "pipe:0"]%string in
  let args :=
    match String.eqb (Type_ config) "video", Video config with
    | true, Some v =>
        args ++ ["-c:v"; "libx264";
                 "-preset"; v_Preset v;
                 "-tune"; "zerolatency";
                 "-b:v"; itoa (uint_div (v_Bitrate v) 1000) +:+ "k";
                 "-s"; v_Resolution v;
                 "-r"; itoa (v_Framerate v);
                 "-g"; itoa (uint_mul (v_Framerate v) 2);
                 "-keyint_min"; itoa (uint_mul (v_Framerate v) 2);
                 "-bf"; "0";
                 "-pix_fmt"; "yuv420p"]%string
    | _, _ => args ++ ["-vn"]%string
    end in
  let args :=
    match String.eqb (Type_ config) "audio", Audio config with
    | true, Some a =>
        args ++ ["-c:a"; "libopus";
                 "-b:a"; itoa (uint_div (a_Bitrate a) 1000) +:+ "k";
                 "-ar"; itoa (a_Samplerate a);
                 "-ac"; "2"]%string
    | _, _ =>
        if String.eqb (Type_ config) "video"
        then args ++ ["-c:a"; "libopus"; "-b:a"; "64k"; "-ar"; "48000"; "-ac"; "2"]%string
        else args
    end in
  args ++ ["-f"; "mpegts";
           "-fflags"; "+discardcorrupt+genpts+nobuffer";
           "-max_delay"; "100000";
           "-avoid_negative_ts"; "make_zero";
           "pipe:1"]%string.

(* --------------------------------------------------------------------- *)

Lemma start_outputs_all env : forall cfgs (i : nat) outs heap,
  (forall j : nat, (j < List.length cfgs)%nat -> env (i + j)%nat = Started) ->
  start_outputs env i cfgs outs heap
  = (register cfgs (List.length heap) outs,
     heap ++ map (fun c => started (NewOutput c)) cfgs, None).
Proof.
  induction cfgs as [|c cfgs IH]; intros i outs heap Hall; simpl.
  - now rewrite app_nil_r.
  - rewrite <- (Nat.add_0_r i) at 1. rewrite (Hall O) by (simpl; lia).
    rewrite IH.
    + rewrite length_app. simpl List.length.
      replace (List.length heap + 1)%nat with (S (List.length heap)) by lia.
      rewrite <- app_assoc. reflexivity.
    + intros j Hj. replace (S i + j)%nat with (i + S j)%nat by lia.
      apply Hall. simpl. lia.
Qed.

Lemma Start_all_started m heap strm env cfg :
  active m = false -> outputs m = ∅ -> config m = Some cfg -> Enable cfg = true ->
  (forall j : nat, (j < List.length (Outputs cfg))%nat -> env j = Started) ->
  Start m heap strm env
  = (mkManager (config m) (Some strm) (register (Outputs cfg) (List.length heap) ∅) true,
     heap ++ map (fun c => started (NewOutput c)) (Outputs cfg), None).
Proof.
  intros Hact Houts Hcfg Hen Hall. unfold Start.
  rewrite Hact, Hcfg, Hen, Houts. simpl.
  rewrite start_outputs_all by exact Hall. reflexivity.
Qed.

(** X19. Manager.Start on an inactive manager with an enabled configuration,
    all of whose outputs start: it returns nil, the manager is active, one
    started output per configured output is created, in order, and
    GetOutputStream(path) is the stream of the last configured output with
    that path, nil for a path that no output has. *)
Theorem Start_registers_every_path
        (m : Manager) (heap : list Output) (strm : nat) (env : nat -> start_env)
        (cfg : Config) :
  active m = false -> outputs m = ∅ -> config m = Some cfg -> Enable cfg = true ->
  (forall j : nat, (j < List.length (Outputs cfg))%nat -> env j = Started) ->
  exists m' heap',
    Start m heap strm env = (m', heap', None)
    /\ IsActive m' = true
    /\ heap' = heap ++ map (fun c => started (NewOutput c)) (Outputs cfg)
    /\ (forall (j : nat) c, Outputs cfg !! j = Some c ->
          exists (j' : nat) c',
            (j <= j')%nat /\ Outputs cfg !! j' = Some c' /\ Path c' = Path c
            /\ GetOutputStream m' (Path c) = Some (List.length heap + j')%nat
            /\ heap' !! (List.length heap + j')%nat = Some (started (NewOutput c')))
    /\ (forall p : string,
          (forall c, In c (Outputs cfg) -> Path c <> p) -> GetOutputStream m' p = None).
Proof.
  intros Hact Houts Hcfg Hen Hall.
  eexists. eexists. split; [apply Start_all_started; eassumption|].
  split; [reflexivity|]. split; [reflexivity|]. unfold GetOutputStream. simpl. split.
  - intros j c Hj.
    destruct (register_key (Outputs cfg) (List.length heap) ∅ j c Hj)
      as (j' & c' & Hle & Hj' & Hp & Hl).
    exists j', c'. repeat split; auto.
    rewrite lookup_app_r by lia.
    replace (List.length heap + j' - List.length heap)%nat with j' by lia.
    rewrite list_lookup_fmap, Hj'. reflexivity.
  - intros p Hno.
    destruct (register (Outputs cfg) (List.length heap) ∅ !! p) as [ptr|] eqn:E;
      [|reflexivity].
    apply register_values in E as [E|(j & c & Hj & Hp & _)].
    + rewrite lookup_empty in E. discriminate.
    + exfalso. apply (Hno c); [|exact Hp].
      apply list_elem_of_In. eapply list_elem_of_lookup_2. exact Hj.
Qed.

Definition all_start (i : nat) : start_env := Started.

Lemma Start_registers_every_path_witness :
  exists m' heap',
    Start (NewManager (Some two_outputs)) [] 7%nat all_start = (m', heap', None)
    /\ GetOutputStream m' "live/in-audio" = Some 1%nat
    /\ GetOutputStream m' "live/other" = None.
Proof.
  destruct (Start_registers_every_path (NewManager (Some two_outputs)) [] 7%nat
              all_start two_outputs eq_refl eq_refl eq_refl eq_refl
              (fun j _ => eq_refl))
    as (m' & heap' & HS & _ & _ & Hget & Hnone).
  exists m', heap'. split; [exact HS|]. split.
  - injection HS as <- _. reflexivity.
  - apply Hnone. intros c [<-|[<-|[]]]; discriminate.
Defined.

Lemma Output_Stop_idemp o : Output_Stop (Output_Stop o) = Output_Stop o.
Proof. unfold Output_Stop. destruct (o_active o) eqn:E; simpl; [reflexivity|]. now rewrite E. Qed.

Lemma stop_list_lookup (l : list (string * nat)) : forall (heap : list Output) (i : nat),
  foldr (fun '(_, ptr) h => alter Output_Stop ptr h) heap l !! i
  = if decide (i ∈ l.*2) then Output_Stop <$> heap !! i else heap !! i.
Proof.
  induction l as [|[p ptr] l IH]; intros heap i.
  - cbn [foldr]. destruct (decide (i ∈ ([] : list (string * nat)).*2)) as [H|H];
      [|reflexivity]. now apply elem_of_nil in H.
  - cbn [foldr]. rewrite list_lookup_alter, !IH.
    destruct (decide (ptr = i)) as [->|Hne].
    + destruct (decide (i ∈ ((p, i) :: l).*2)) as [_|H];
        [|exfalso; apply H; rewrite fmap_cons; apply list_elem_of_here].
      destruct (decide (i ∈ l.*2)); [|reflexivity].
      destruct (heap !! i) as [o|]; [|reflexivity]. simpl. f_equal.
      apply Output_Stop_idemp.
    + destruct (decide (i ∈ l.*2)) as [Hin|Hnin];
        destruct (decide (i ∈ ((p, ptr) :: l).*2)) as [H|H]; try reflexivity.
      * exfalso. apply H. rewrite fmap_cons. now apply list_elem_of_further.
      * exfalso. rewrite fmap_cons in H. apply elem_of_cons in H as [H|H];
          [simpl in H; congruence | contradiction].
Qed.

Lemma stop_outputs_lookup (outs : gmap string nat) (heap : list Output) (i : nat) :
  ((exists p : string, outs !! p = Some i) ->
   stop_outputs outs heap !! i = Output_Stop <$> heap !! i)
  /\ ((forall p : string, outs !! p <> Some i) ->
      stop_outputs outs heap !! i = heap !! i).
Proof.
  unfold stop_outputs. rewrite stop_list_lookup.
  destruct (decide (i ∈ (map_to_list outs).*2)) as [Hin|Hnin].
  - split; [reflexivity|]. intros Hno. exfalso.
    apply list_elem_of_fmap in Hin as ([p ptr] & -> & Hin).
    apply elem_of_map_to_list in Hin. exact (Hno p Hin).
  - split; [|reflexivity]. intros (p & Hp). exfalso. apply Hnin.
    apply list_elem_of_fmap. exists (p, i). split; [reflexivity|].
    now apply elem_of_map_to_list.
Qed.

(** The j-th configured output has its path again further down the list. *)
Definition shadowed (cfgs : list OutputConfig) (j : nat) : Prop :=
  exists (j' : nat) c c', (j < j')%nat /\ cfgs !! j = Some c /\ cfgs !! j' = Some c'
                          /\ Path c' = Path c.

Lemma register_points cfgs (base : nat) (j : nat) c :
  cfgs !! j = Some c ->
  (exists p : string, register cfgs base ∅ !! p = Some (base + j)%nat)
  <-> ~ shadowed cfgs j.
Proof.
  intros Hj. split.
  - intros (p & Hp) (j' & c0 & c' & Hlt & Hj0 & Hj' & Hpath).
    rewrite Hj in Hj0. injection Hj0 as <-.
    apply register_values in Hp as Hv.
    destruct Hv as [Hv|(j0 & c0 & Hj0 & Hp0 & Heq)];
      [rewrite lookup_empty in Hv; discriminate|].
    assert (j0 = j) as -> by lia. rewrite Hj in Hj0. injection Hj0 as <-. subst p.
    destruct (register_key cfgs base ∅ j' c' Hj') as (j2 & c2 & Hle & _ & _ & Hl).
    rewrite Hpath, Hp in Hl. injection Hl as Hl. lia.
  - intros Hns. exists (Path c). apply register_last; [exact Hj|].
    intros j' c' Hlt Hj' Hp. apply Hns. exists j', c, c'. auto.
Qed.

(** X20. Manager.Stop after such a Start: the manager is inactive and its
    output map empty, a second Stop changes nothing, outputs that existed
    before are untouched, and an output created by Start is stopped exactly
    when no later output of the configuration has the same path (an output
    shadowed by a later one keeps running); Start no longer answers "already
    active". *)
Theorem Stop_stops_registered_outputs
        (m : Manager) (heap : list Output) (strm : nat) (env : nat -> start_env)
        (cfg : Config) (m' : Manager) (heap' : list Output) :
  active m = false -> outputs m = ∅ -> config m = Some cfg -> Enable cfg = true ->
  (forall j : nat, (j < List.length (Outputs cfg))%nat -> env j = Started) ->
  Start m heap strm env = (m', heap', None) ->
  exists m'' heap'',
    Stop m' heap' = (m'', heap'')
    /\ IsActive m'' = false /\ outputs m'' = ∅
    /\ Stop m'' heap'' = (m'', heap'')
    /\ (forall (i : nat), (i < List.length heap)%nat -> heap'' !! i = heap !! i)
    /\ (forall (j : nat) c, Outputs cfg !! j = Some c ->
          exists o, heap'' !! (List.length heap + j)%nat = Some o
                    /\ o_config o = c
                    /\ (o_active o = false <-> ~ shadowed (Outputs cfg) j))
    /\ (forall heap3 strm3 env3,
          snd (Start m'' heap3 strm3 env3) <> Some ErrAlreadyActive).
Proof.
  intros Hact Houts Hcfg Hen Hall HS.
  rewrite (Start_all_started m heap strm env cfg Hact Houts Hcfg Hen Hall) in HS.
  injection HS as <- <-.
  eexists. eexists. split; [reflexivity|]. simpl.
  split; [reflexivity|]. split; [reflexivity|]. split; [reflexivity|].
  split; [|split].
  - intros i Hi.
    rewrite (proj2 (stop_outputs_lookup _ _ i)).
    + now rewrite lookup_app_l by exact Hi.
    + intros p Hp.
      apply register_values in Hp as [Hp|(j & c & _ & _ & Hp)];
        [rewrite lookup_empty in Hp; discriminate | lia].
  - intros j c Hj.
    pose proof (register_points (Outputs cfg) (List.length heap) j c Hj) as Hpt.
    assert ((heap ++ map (fun c0 => started (NewOutput c0)) (Outputs cfg))
              !! (List.length heap + j)%nat = Some (started (NewOutput c))) as Hl.
    { rewrite lookup_app_r by lia.
      replace (List.length heap + j - List.length heap)%nat with j by lia.
      now rewrite list_lookup_fmap, Hj. }
    destruct (register (Outputs cfg) (List.length heap) ∅ !! Path c) as [ptr|] eqn:Ep.
    2:{ exfalso.
        destruct (register_key (Outputs cfg) (List.length heap) ∅ j c Hj)
          as (j' & c' & _ & _ & _ & Hk). congruence. }
    destruct (decide (ptr = (List.length heap + j)%nat)) as [->|Hne].
    + rewrite (proj1 (stop_outputs_lookup _ _ _)) by eauto.
      rewrite Hl. eexists. split; [reflexivity|]. split; [reflexivity|]. simpl.
      split; [intros _; apply Hpt; eauto | reflexivity].
    + rewrite (proj2 (stop_outputs_lookup _ _ _)).
      * rewrite Hl. eexists. split; [reflexivity|]. split; [reflexivity|]. simpl.
        split; [discriminate|]. intros Hns. exfalso.
        apply Hpt in Hns as (p & Hp).
        apply register_values in Hp as Hv.
        destruct Hv as [Hv|(j0 & c0 & Hj0 & Hp0 & Heq)];
          [rewrite lookup_empty in Hv; discriminate|].
        assert (j0 = j) as -> by lia. rewrite Hj in Hj0. injection Hj0 as <-.
        subst p. congruence.
      * intros p Hp. apply Hne.
        apply register_values in Hp as Hv.
        destruct Hv as [Hv|(j0 & c0 & Hj0 & Hp0 & Heq)];
          [rewrite lookup_empty in Hv; discriminate|].
        assert (j0 = j) as -> by lia. rewrite Hj in Hj0. injection Hj0 as <-.
        subst p. congruence.
  - intros heap3 strm3 env3. unfold Start. simpl. rewrite Hcfg, Hen. simpl.
    destruct (start_outputs env3 0 (Outputs cfg) ∅ heap3) as [[o h] r] eqn:E.
    simpl. intros ->.
    clear -E. revert E. generalize 0%nat (∅ : gmap string nat) heap3.
    induction (Outputs cfg) as [|c cfgs IH]; intros i outs hp; simpl; [discriminate|].
    destruct (env3 i); try discriminate. apply IH.
Qed.

Definition same_path_twice : Config :=
  mkCfg true [mkConfig "live/out" "video" None None;
              mkConfig "live/out" "audio" None None].

Lemma Stop_stops_registered_outputs_witness :
  exists m' heap' m'' heap'' o0 o1,
    Start (NewManager (Some same_path_twice)) [] 7%nat all_start = (m', heap', None)
    /\ Stop m' heap' = (m'', heap'')
    /\ heap'' !! 0%nat = Some o0 /\ o_active o0 = true
    /\ heap'' !! 1%nat = Some o1 /\ o_active o1 = false
    /\ outputs m'' = ∅.
Proof.
  pose proof (Start_all_started (NewManager (Some same_path_twice)) [] 7%nat all_start
                same_path_twice eq_refl eq_refl eq_refl eq_refl (fun j _ => eq_refl))
    as HS.
  destruct (Stop_stops_registered_outputs (NewManager (Some same_path_twice)) [] 7%nat
              all_start same_path_twice _ _ eq_refl eq_refl eq_refl eq_refl
              (fun j _ => eq_refl) HS)
    as (m'' & heap'' & Hstop & _ & Houts & _ & _ & Hout & _).
  destruct (Hout 0%nat (mkConfig "live/out" "video" None None) eq_refl)
    as (o0 & Ho0 & _ & Hact0).
  destruct (Hout 1%nat (mkConfig "live/out" "audio" None None) eq_refl)
    as (o1 & Ho1 & _ & Hact1).
  eexists. eexists. exists m'', heap'', o0, o1.
  split; [exact HS|]. split; [exact Hstop|].
  split; [exact Ho0|]. split.
  - destruct (o_active o0); [reflexivity|]. exfalso.
    apply (proj1 Hact0 eq_refl).
    exists 1%nat, (mkConfig "live/out" "video" None None),
           (mkConfig "live/out" "audio" None None).
    repeat split; auto.
  - split; [exact Ho1|]. split; [|exact Houts].
    apply Hact1. intros (j' & c & c' & Hlt & _ & Hj' & _).
    destruct j' as [|[|j']]; try lia; discriminate Hj'.
Defined.

Definition input_args : list string := ["-f"; "mpegts"; "-i"; "pipe:0"]%string.

Definition output_args : list string :=
  ["-f"; "mpegts"; "-fflags"; "+discardcorrupt+genpts+nobuffer";
   "-max_delay"; "100000"; "-avoid_negative_ts"; "make_zero"; "pipe:1"]%string.

Definition default_audio_args : list string :=
  ["-c:a"; "libopus"; "-b:a"; "64k"; "-ar"; "48000"; "-ac"; "2"]%string.

(** X21. buildFFmpegArgs: the configured channel count is not used; a video
    output without video settings is encoded with -vn and the default audio
    arguments, although its stream description announces a video track; an
    output that is neither video nor audio with audio settings gets -vn and no
    audio arguments; an audio bitrate below 1000 is passed as "0k". *)
Theorem buildFFmpegArgs_edge_cases (config : OutputConfig) :
  (forall a channels,
      Audio config = Some a ->
      buildFFmpegArgs (mkConfig (Path config) (Type_ config) (Video config)
                                (Some (mkAudio (a_Bitrate a) (a_Samplerate a) channels)))
      = buildFFmpegArgs config)
  /\ (Type_ config = "video"%string -> Video config = None ->
      buildFFmpegArgs config
      = input_args ++ ["-vn"%string] ++ default_audio_args ++ output_args
      /\ createStreamDescription config = [videoTrack; audioTrack])
  /\ (Type_ config <> "video"%string ->
      Type_ config <> "audio"%string \/ Audio config = None ->
      buildFFmpegArgs config = input_args ++ ["-vn"%string] ++ output_args)
  /\ (forall a, Type_ config = "audio"%string -> Audio config = Some a ->
        0 <= a_Bitrate a < 1000 ->
        buildFFmpegArgs config
        = input_args
          ++ ["-vn"; "-c:a"; "libopus"; "-b:a"; "0k"; "-ar"; itoa (a_Samplerate a);
              "-ac"; "2"]%string
          ++ output_args).
Proof.
  destruct config as [p ty v a0]. cbn [Path Type_ Video Audio].
  split; [|split; [|split]].
  - intros a ch ->. unfold buildFFmpegArgs. cbn [Type_ Video Audio a_Bitrate a_Samplerate].
    reflexivity.
  - intros -> ->. split; reflexivity.
  - intros Hv Ha. unfold buildFFmpegArgs. cbn [Type_ Video Audio].
    destruct (String.eqb_spec ty "video") as [E|_]; [contradiction|].
    destruct (String.eqb_spec ty "audio") as [E|_].
    + destruct Ha as [Ha| ->]; [contradiction | reflexivity].
    + destruct a0; reflexivity.
  - intros a -> -> Hb. unfold buildFFmpegArgs. cbn [Type_ Video Audio String.eqb].
    cbn -[itoa uint_div].
    unfold uint_div. rewrite Z.div_small by lia. reflexivity.
Qed.

Lemma buildFFmpegArgs_edge_cases_witness :
  let config := mkConfig "live/in-720p" "video" None None in
  Type_ config = "video"%string /\ Video config = None
  /\ In "-vn"%string (buildFFmpegArgs config)
  /\ createStreamDescription config = [videoTrack; audioTrack].
Proof.
  intros config. split; [reflexivity|]. split; [reflexivity|].
  destruct (proj1 (proj2 (buildFFmpegArgs_edge_cases config)) eq_refl eq_refl)
    as [-> ->].
  split; [|reflexivity]. simpl. auto 10.
Defined.

End TranscoderOutputs.

(* ===================================================================== *)
(** ** mmxplayer/mixabr/mmxplayer.js : decideQuality, isLevelBanned *)
(* ===================================================================== *)

Set Warnings "-inexact-float".

Module MixAbr.
Import Player.

(** JS numbers that are measurements are binary64 floats; [>] and [>=] are
    the mirrored [<] and [<=]; a comparison with NaN is false. *)
Definition gt (a b : float) : bool := PrimFloat.ltb b a.
Definition ge (a b : float) : bool := PrimFloat.leb b a.

Definition DOWNGRADE_LOSS : float := 0.10%float.
Definition DOWNGRADE_RTT : float := 1500%float.
Definition DOWNGRADE_FPS : float := 10%float.
Definition DOWNGRADE_PERSISTENCE : Z := 4.
Definition UPGRADE_LOSS : float := 0.05%float.
Definition UPGRADE_RTT : float := 1000%float.
Definition UPGRADE_FPS : float := 10%float.
Definition STABLE_DURATION : Z := 5.
Definition HONEYMOON_TIME : Z := 20000.

(** [this.levels[index]] is an object. *)
Definition level_defined (index : Z) (p : Mix.MMXPlayer) : bool :=
  (0 <=? index) && bool_decide (is_Some (Mix.levels p !! Z.to_nat index)).

(** isLevelBanned(index), with [now] the value of Date.now(): an entry that
    is missing or 0 is not a ban; an expired entry is deleted, and the log
    line that follows reads [this.levels[index].label]: the result [None] is
    the TypeError it raises when the level is undefined. *)
Definition isLevelBanned (index : Z) (now : Z) (p : Mix.MMXPlayer)
  : option bool * Mix.MMXPlayer :=
  match Mix.penaltyBox p !! index with
  | None => (Some false, p)
  | Some banUntil =>
      if banUntil =? 0 then (Some false, p)
      else if now <? banUntil then (Some true, p)
      else (if level_defined index p then Some false else None,
            Mix.set_penalty (delete index (Mix.penaltyBox p))
                            (Mix.failureCounts p) p)
  end.

(** The bitrates of a level object: [bitrate] and, once a stream of the
    level has played, [currentEffectiveBitrate]. *)
Record Rates : Type := mkRates {
  bitrate : float;
  currentEffectiveBitrate : option float      (* None = undefined *)
}.

(** [x || y] on numbers: 0 and NaN are falsy. *)
Definition truthy (x : float) : bool :=
  negb (PrimFloat.eqb x 0%float) && PrimFloat.eqb x x.

Definition or_else (x : option float) (y : float) : float :=
  match x with
  | Some v => if truthy v then v else y
  | None => y
  end.

Record Metrics : Type := mkMetrics { rtt : float; packetLoss : float; fps : float }.

Record RawMetrics : Type := mkRaw { raw_rtt : float; raw_bitrate : float; raw_fps : float }.

(** The player together with the fields the quality decision reads and
    writes. *)
Record State : Type := mkState {
  player : Mix.MMXPlayer;
  rates : list Rates;                 (* per level, beside this.levels *)
  stableCount : Z;
  badConditionCount : Z;
  emaMetrics : Metrics;
  rawMetrics : RawMetrics
}.

Definition set_player (p : Mix.MMXPlayer) (st : State) : State :=
  mkState p (rates st) (stableCount st) (badConditionCount st)
          (emaMetrics st) (rawMetrics st).
Definition set_stable (v : Z) (st : State) : State :=
  mkState (player st) (rates st) v (badConditionCount st)
          (emaMetrics st) (rawMetrics st).
Definition set_bad (v : Z) (st : State) : State :=
  mkState (player st) (rates st) (stableCount st) v
          (emaMetrics st) (rawMetrics st).

(** [this.levels[i]]: [None] is undefined.  A level object without bitrate
    fields reads as [undefined], which arithmetic turns into NaN. *)
Definition level_at (i : Z) (st : State) : option (Level * Rates) :=
  if i <? 0 then None
  else match Mix.levels (player st) !! Z.to_nat i with
       | Some l => Some (l, default (mkRates PrimFloat.nan None)
                                    (rates st !! Z.to_nat i))
       | None => None
       end.

(** [this.activeLevelUsingFallback = false; this.loadLevel(index)] *)
Definition switch_to (index : Z) (p : Mix.MMXPlayer) : Mix.MMXPlayer :=
  Mix.loadLevel index (Mix.set_flags (Mix.isAuto p) (Mix.isSwitching p) false p).

(** decideQuality(); [now] and [now'] are the two readings of Date.now(),
    the second one made by isLevelBanned.  [None] is a TypeError: the
    current level is undefined, or isLevelBanned raises. *)
Definition decideQuality (now now' : Z) (st : State) : option State :=
  let p := player st in
  let currentIdx := Mix.currentLevelIdx p in
  match level_at currentIdx st with
  | None => None
  | Some (levelConfig, r) =>
      let e := emaMetrics st in
      let currentBitrate := raw_bitrate (rawMetrics st) in
      let isAudioOnly := String.eqb (l_id levelConfig) "audio" in
      let activeTargetBitrate := or_else (currentEffectiveBitrate r) (bitrate r) in
      let isHoneymoon := now - Mix.connectionStartTime p <? HONEYMOON_TIME in
      let triggerReason :=
        if gt (packetLoss e) DOWNGRADE_LOSS then true
        else if gt (rtt e) DOWNGRADE_RTT then true
        else if negb isAudioOnly && negb isHoneymoon
                && PrimFloat.ltb (fps e) DOWNGRADE_FPS then true
        else negb isAudioOnly && negb isHoneymoon && gt currentBitrate 0%float
             && PrimFloat.ltb currentBitrate (activeTargetBitrate * 0.7)%float in
      let isVideoFrozen :=
        negb isAudioOnly && negb isHoneymoon
        && (PrimFloat.leb (fps e) 1%float
            || PrimFloat.leb (raw_fps (rawMetrics st)) 1%float) in
      let isCritical := gt (raw_rtt (rawMetrics st)) 3000%float || isVideoFrozen in
      let levels_length := Z.of_nat (List.length (Mix.levels p)) in
      (* the downgrade part: [inl] is a return *)
      let down : State + State :=
        if currentIdx <? levels_length - 1 then
          if triggerReason || isCritical then
            if isCritical
            then inl (set_bad 0 (set_player (switch_to (currentIdx + 1) p) st))
            else
              let st1 := set_bad (badConditionCount st + 1) st in
              if badConditionCount st1 >=? DOWNGRADE_PERSISTENCE
              then inl (set_player (switch_to (currentIdx + 1) p) st1)
              else inr st1
          else inr (set_bad 0 st)
        else inr st in
      match down with
      | inl res => Some res
      | inr st1 =>
          if currentIdx >? 0 then
            let targetIdx := currentIdx - 1 in
            let '(res, p1) := isLevelBanned targetIdx now' (player st1) in
            let st2 := set_player p1 st1 in
            match res with
            | None => None
            | Some true => Some (set_stable 0 st2)
            | Some false =>
              let isFpsHealthy := isAudioOnly || ge (fps e) UPGRADE_FPS in
              let isGoodNetwork :=
                PrimFloat.leb (packetLoss e) UPGRADE_LOSS
                && PrimFloat.ltb (rtt e) UPGRADE_RTT && isFpsHealthy in
              if isGoodNetwork then
                let st3 := set_stable (stableCount st2 + 1) st2 in
                if stableCount st3 >=? STABLE_DURATION
                then Some (set_stable 0 (set_player (switch_to targetIdx p1) st3))
                else Some st3
              else Some (set_stable 0 st2)
            end
          else Some st1
      end
  end.

(* --------------------------------------------------------------------- *)

Lemma penalty_time_bounds count :
  1 <= count ->
  let t := Mix.BASE_PENALTY_TIME * 2 ^ (count - 1) in
  60000 <= (if t >? Mix.MAX_PENALTY_TIME then Mix.MAX_PENALTY_TIME else t) <= 300000.
Proof.
  intros Hc. cbv zeta. unfold Mix.BASE_PENALTY_TIME, Mix.MAX_PENALTY_TIME.
  assert (1 <= 2 ^ (count - 1)) by (apply Z.pow_le_mono_r with (b := 0); lia).
  destruct (Z.gtb_spec (60000 * 2 ^ (count - 1)) 300000); lia.
Qed.

(** X22. After penalizeLevel(index) at time now, the level is banned until a
    time between now + 60 s and now + 300 s: isLevelBanned(index) is true
    exactly before that time and leaves the player as it is; from that time
    on it deletes the ban, keeps the failure count and answers false (it
    raises when the level is undefined); after a manual switch to the level
    isLevelBanned is false at any time. *)
Theorem isLevelBanned_after_penalty
        (p : Mix.MMXPlayer) (index now : Z) :
  Mix.counts_nonneg (Mix.failureCounts p) -> 0 <= now ->
  let p' := Mix.penalizeLevel index now p in
  exists banUntil,
    Mix.penaltyBox p' !! index = Some banUntil
    /\ (now + 60000 <= banUntil <= now + 300000)
    /\ (forall t, fst (isLevelBanned index t p') = Some true <-> t < banUntil)
    /\ (forall t, t < banUntil -> snd (isLevelBanned index t p') = p')
    /\ (forall t, banUntil <= t ->
          Mix.penaltyBox (snd (isLevelBanned index t p')) !! index = None
          /\ Mix.failureCounts (snd (isLevelBanned index t p')) = Mix.failureCounts p'
          /\ fst (isLevelBanned index t p')
             = if level_defined index p then Some false else None)
    /\ (forall id t,
          findIndex id (Mix.levels p') = index -> index <> -1 ->
          isLevelBanned index t (Mix.manualSwitch (Some id) p')
          = (Some false, Mix.manualSwitch (Some id) p')).
Proof.
  intros Hnn Hnow p'.
  set (count := Mix.failures index (Mix.failureCounts p) + 1).
  assert (1 <= count) as Hc.
  { unfold count, Mix.failures. destruct (Mix.failureCounts p !! index) as [c|] eqn:E;
      simpl; [pose proof (Hnn index c E)|]; lia. }
  pose proof (penalty_time_bounds count Hc) as Hb. cbv zeta in Hb.
  eexists. split; [unfold p', Mix.penalizeLevel; simpl; apply lookup_insert_eq|].
  fold count.
  set (pen := if Mix.BASE_PENALTY_TIME * 2 ^ (count - 1) >? Mix.MAX_PENALTY_TIME
              then Mix.MAX_PENALTY_TIME
              else Mix.BASE_PENALTY_TIME * 2 ^ (count - 1)) in *.
  assert (Mix.penaltyBox p' !! index = Some (now + pen)) as Hl
    by (unfold p', Mix.penalizeLevel; simpl; apply lookup_insert_eq).
  split; [lia|].
  assert ((now + pen =? 0) = false) as Hz by (apply Z.eqb_neq; lia).
  split; [|split; [|split]].
  - intros t. unfold isLevelBanned. rewrite Hl, Hz.
    destruct (Z.ltb_spec t (now + pen)); simpl; [split; intros; [lia|reflexivity]|].
    split; [|lia]. destruct (level_defined index p'); discriminate.
  - intros t Ht. unfold isLevelBanned. rewrite Hl, Hz.
    destruct (Z.ltb_spec t (now + pen)); [reflexivity | lia].
  - intros t Ht. unfold isLevelBanned. rewrite Hl, Hz.
    destruct (Z.ltb_spec t (now + pen)); [lia|]. simpl.
    split; [apply lookup_delete_eq | split; reflexivity].
  - intros id t Hid Hne. unfold Mix.manualSwitch. rewrite Hid.
    destruct (Z.eqb_spec index (-1)) as [E|_]; [contradiction|].
    unfold isLevelBanned.
    rewrite (proj1 (mix_loadLevel_penalty _ _)). simpl.
    now rewrite lookup_delete_eq.
Qed.

Lemma isLevelBanned_after_penalty_witness :
  let p := Mix.run [Mix.Start false; Mix.OnTrack 0 500; Mix.LoadLevel 2]
                   (Mix.constructor 0) in
  Mix.counts_nonneg (Mix.failureCounts p) /\ 0 <= 1000
  /\ fst (isLevelBanned 2 60999 (Mix.penalizeLevel 2 1000 p)) = Some true.
Proof.
  intros p.
  assert (Mix.counts_nonneg (Mix.failureCounts p)) as Hnn.
  { intros i c H. vm_compute in H. discriminate H. }
  assert (0 <= 1000) as Hnow by lia.
  split; [exact Hnn|]. split; [exact Hnow|].
  destruct (isLevelBanned_after_penalty p 2 1000 Hnn Hnow)
    as (b & _ & Hb & Hban & _).
  apply Hban. lia.
Defined.

(** A decision switches to a level next to the current one, and loadLevel
    lets such a switch go ahead. *)
Lemma switch_to_goes_ahead index p :
  0 <= index < Z.of_nat (List.length (Mix.levels p)) ->
  index <> Mix.currentLevelIdx p ->
  switch_to index p
  = Mix.mk (Mix.levels p) (Mix.currentReader p) (Mix.currentLevelIdx p)
           (Mix.lastSuccessfulLevelIdx p) (Mix.isAuto p) true false
           (Mix.switchCooldownTimer p) (Mix.connectionStartTime p)
           (Mix.penaltyBox p) (Mix.failureCounts p)
           (new_reader index (Mix.readers p)) (Mix.timers p).
Proof.
  intros Hr Hne. unfold switch_to, Mix.loadLevel, Mix.set_flags. simpl.
  destruct (Z.ltb_spec index 0); [lia|].
  destruct (Z.geb_spec index (Z.of_nat (List.length (Mix.levels p)))); [lia|].
  simpl. destruct (Z.eqb_spec (Mix.currentLevelIdx p) index); [congruence|].
  rewrite andb_false_r. reflexivity.
Qed.

Lemma level_at_range i st x :
  level_at i st = Some x -> 0 <= i < Z.of_nat (List.length (Mix.levels (player st))).
Proof.
  unfold level_at. destruct (Z.ltb_spec i 0); [discriminate|].
  destruct (Mix.levels (player st) !! Z.to_nat i) eqn:E; [|discriminate].
  intros _. apply lookup_lt_Some in E. lia.
Qed.

Lemma new_reader_inj a b rs : new_reader a rs = new_reader b rs -> a = b.
Proof. unfold new_reader. intros H. apply app_inv_head in H. congruence. Qed.

Lemma new_reader_neq a rs : new_reader a rs <> rs.
Proof.
  unfold new_reader. intros H. apply (f_equal (@List.length _)) in H.
  rewrite length_app in H. simpl in H. lia.
Qed.

Lemma isLevelBanned_keeps index now p :
  let p' := snd (isLevelBanned index now p) in
  Mix.levels p' = Mix.levels p /\ Mix.currentReader p' = Mix.currentReader p
  /\ Mix.currentLevelIdx p' = Mix.currentLevelIdx p
  /\ Mix.isAuto p' = Mix.isAuto p /\ Mix.failureCounts p' = Mix.failureCounts p
  /\ Mix.readers p' = Mix.readers p /\ Mix.timers p' = Mix.timers p
  /\ Mix.lastSuccessfulLevelIdx p' = Mix.lastSuccessfulLevelIdx p
  /\ Mix.isSwitching p' = Mix.isSwitching p
  /\ Mix.activeLevelUsingFallback p' = Mix.activeLevelUsingFallback p.
Proof.
  unfold isLevelBanned. destruct (Mix.penaltyBox p !! index) as [b|]; simpl; auto 12.
  destruct (b =? 0); simpl; auto 12. destruct (now <? b); simpl; auto 12.
Qed.

(** In range, isLevelBanned does not raise. *)
Lemma isLevelBanned_defined index now p :
  level_defined index p = true -> fst (isLevelBanned index now p) <> None.
Proof.
  intros Hd. unfold isLevelBanned.
  destruct (Mix.penaltyBox p !! index) as [b|]; simpl; [|discriminate].
  destruct (b =? 0); simpl; [discriminate|].
  destruct (now <? b); simpl; [discriminate|]. rewrite Hd. discriminate.
Qed.

(** X23. A call of decideQuality that returns leaves the current reader, the
    current level index, the mode, the failure counts, the timers and the
    level table as they are, and does one of three things: it creates no
    reader; or it creates one reader for level currentLevelIdx + 1 (a
    downgrade: the bad-condition count is then 0, after a critical condition,
    or has just reached 4 or more); or it creates one reader for level
    currentLevelIdx - 1 (an upgrade: isLevelBanned answered false for that
    level, the stable count has reached 5 with this round and is reset to 0).
    A reader it creates starts on the primary stream, with isSwitching set. *)
Theorem decideQuality_moves_one_level (now now' : Z) (st st' : State) :
  decideQuality now now' st = Some st' ->
  let p := player st in
  let p' := player st' in
  let cur := Mix.currentLevelIdx p in
  (Mix.currentReader p' = Mix.currentReader p
   /\ Mix.currentLevelIdx p' = cur
   /\ Mix.isAuto p' = Mix.isAuto p
   /\ Mix.failureCounts p' = Mix.failureCounts p
   /\ Mix.timers p' = Mix.timers p
   /\ Mix.levels p' = Mix.levels p)
  /\ ((Mix.readers p' = Mix.readers p /\ Mix.isSwitching p' = Mix.isSwitching p)
      \/ (cur + 1 < Z.of_nat (List.length (Mix.levels p))
          /\ Mix.readers p' = new_reader (cur + 1) (Mix.readers p)
          /\ Mix.isSwitching p' = true /\ Mix.activeLevelUsingFallback p' = false
          /\ (badConditionCount st' = 0
              \/ (badConditionCount st' = badConditionCount st + 1
                  /\ DOWNGRADE_PERSISTENCE <= badConditionCount st')))
      \/ (0 <= cur - 1
          /\ Mix.readers p' = new_reader (cur - 1) (Mix.readers p)
          /\ Mix.isSwitching p' = true /\ Mix.activeLevelUsingFallback p' = false
          /\ fst (isLevelBanned (cur - 1) now' p) = Some false
          /\ STABLE_DURATION <= stableCount st + 1
          /\ stableCount st' = 0)).
Proof.
  unfold decideQuality.
  destruct (level_at (Mix.currentLevelIdx (player st)) st) as [[lc r]|] eqn:Hl;
    [|discriminate].
  pose proof (level_at_range _ _ _ Hl) as Hrange.
  cbv zeta. intros H.
  match type of H with
  | context [if (?t || ?c) then _ else _] =>
      set (trig := t) in H; set (crit := c) in H
  end.
  clearbody trig crit.
  pose proof (isLevelBanned_keeps (Mix.currentLevelIdx (player st) - 1) now'
                (player st)) as Hban.
  simpl in Hban.
  destruct Hban as (Kl & Kr & Ki & Ka & Kf & Krs & Kt & _ & Ks & _).
  assert (Hup : forall (sc : bool) st1,
    player st1 = player st -> stableCount st1 = stableCount st ->
    (Mix.currentLevelIdx (player st) >? 0) = true ->
    (match isLevelBanned (Mix.currentLevelIdx (player st) - 1) now' (player st1) with
     | (None, p1) => None
     | (Some true, p1) => Some (set_stable 0 (set_player p1 st1))
     | (Some false, p1) =>
         if sc
         then
          if stableCount (set_stable (stableCount (set_player p1 st1) + 1)
                            (set_player p1 st1)) >=? STABLE_DURATION
          then Some (set_stable 0
                 (set_player (switch_to (Mix.currentLevelIdx (player st) - 1) p1)
                   (set_stable (stableCount (set_player p1 st1) + 1)
                      (set_player p1 st1))))
          else Some (set_stable (stableCount (set_player p1 st1) + 1)
                       (set_player p1 st1))
         else Some (set_stable 0 (set_player p1 st1))
     end = Some st') ->
    (Mix.currentReader (player st') = Mix.currentReader (player st)
     /\ Mix.currentLevelIdx (player st') = Mix.currentLevelIdx (player st)
     /\ Mix.isAuto (player st') = Mix.isAuto (player st)
     /\ Mix.failureCounts (player st') = Mix.failureCounts (player st)
     /\ Mix.timers (player st') = Mix.timers (player st)
     /\ Mix.levels (player st') = Mix.levels (player st))
    /\ ((Mix.readers (player st') = Mix.readers (player st)
         /\ Mix.isSwitching (player st') = Mix.isSwitching (player st))
        \/ (0 <= Mix.currentLevelIdx (player st) - 1
            /\ Mix.readers (player st')
               = new_reader (Mix.currentLevelIdx (player st) - 1)
                   (Mix.readers (player st))
            /\ Mix.isSwitching (player st') = true
            /\ Mix.activeLevelUsingFallback (player st') = false
            /\ fst (isLevelBanned (Mix.currentLevelIdx (player st) - 1) now'
                      (player st)) = Some false
            /\ STABLE_DURATION <= stableCount st + 1
            /\ stableCount st' = 0))).
  { clear H. intros sc st1 Hp1 Hs1 Hpos. rewrite Hp1.
    apply Z.gtb_lt in Hpos.
    destruct (isLevelBanned (Mix.currentLevelIdx (player st) - 1) now' (player st))
      as [[b|] p1] eqn:E; simpl in *; rewrite ?Hs1; [|discriminate].
    destruct b.
    - intros [= <-]. simpl. split; [tauto|]. left. tauto.
    - destruct sc; [|intros [= <-]; simpl; split; [tauto|left; tauto]].
      destruct (Z.geb_spec (stableCount st + 1) STABLE_DURATION);
        [|intros [= <-]; simpl; split; [tauto|left; tauto]].
      intros [= <-]. simpl.
      rewrite switch_to_goes_ahead by (rewrite ?Kl, ?Ki; lia). simpl.
      split; [tauto|]. right. rewrite Krs. repeat split; auto; lia. }
  destruct (Z.ltb_spec (Mix.currentLevelIdx (player st))
              (Z.of_nat (Datatypes.length (Mix.levels (player st))) - 1)) as [Hlt|Hge].
  - destruct (trig || crit).
    + destruct crit.
      * injection H as <-. simpl.
        rewrite switch_to_goes_ahead by lia. simpl.
        split; [tauto|]. right. left. repeat split; auto; lia.
      * change (badConditionCount (set_bad (badConditionCount st + 1) st))
          with (badConditionCount st + 1) in H.
        destruct (Z.geb_spec (badConditionCount st + 1) DOWNGRADE_PERSISTENCE).
        -- injection H as <-. simpl.
           rewrite switch_to_goes_ahead by (simpl; lia). simpl.
           split; [tauto|]. right. left. repeat split; auto; try lia.
        -- destruct (Mix.currentLevelIdx (player st) >? 0) eqn:Hpos.
           ++ destruct (Hup _ (set_bad (badConditionCount st + 1) st)
                          eq_refl eq_refl eq_refl H) as [F [S|U]]; split; auto.
           ++ injection H as <-. simpl. split; [tauto|]. left. tauto.
    + destruct (Mix.currentLevelIdx (player st) >? 0) eqn:Hpos.
      * destruct (Hup _ (set_bad 0 st) eq_refl eq_refl eq_refl H) as [F [S|U]];
          split; auto.
      * injection H as <-. simpl. split; [tauto|]. left. tauto.
  - destruct (Mix.currentLevelIdx (player st) >? 0) eqn:Hpos.
    + destruct (Hup _ st eq_refl eq_refl eq_refl H) as [F [S|U]]; split; auto.
    + injection H as <-. simpl. split; [tauto|]. left. tauto.
Qed.

(** A player on 720p with a steady link and four calm rounds behind it. *)
Definition calm : State :=
  mkState (Mix.mk (Mix.levels_of false) (Some 0%nat) 1 1 true false false 0 0
                  ∅ ∅ [mkReader 1 false true] [])
          [mkRates 4000000 None; mkRates 2000000 None; mkRates 1000000 None;
           mkRates 64000 None]
          4 0 (mkMetrics 50 0.01 30) (mkRaw 50 1900000 30).

Lemma decideQuality_moves_one_level_witness :
  exists st', decideQuality 30000 30001 calm = Some st'
    /\ Mix.currentLevelIdx (player st') = 1
    /\ Mix.readers (player st') = new_reader 0 (Mix.readers (player calm)).
Proof.
  destruct (decideQuality 30000 30001 calm) as [st'|] eqn:E;
    [|vm_compute in E; discriminate E].
  exists st'. split; [reflexivity|].
  destruct (decideQuality_moves_one_level _ _ _ _ E) as [F D].
  split; [apply F|].
  destruct D as [[Hs _]|[(_ & U & _)|(_ & R & _)]].
  - vm_compute in E. injection E as <-. vm_compute in Hs. discriminate Hs.
  - vm_compute in E. injection E as <-. vm_compute in U. discriminate U.
  - exact R.
Defined.

(** X24. decideQuality raises (a TypeError) exactly when the current level is
    undefined: with a current level in the table it returns, at any time and
    for any measurements. *)
Theorem decideQuality_returns (now now' : Z) (st : State) :
  is_Some (level_at (Mix.currentLevelIdx (player st)) st) <->
  is_Some (decideQuality now now' st).
Proof.
  unfold decideQuality.
  destruct (level_at (Mix.currentLevelIdx (player st)) st) as [[lc r]|] eqn:Hl;
    [|split; intros [? [=]]].
  split; [intros _|eauto].
  pose proof (level_at_range _ _ _ Hl) as Hrange.
  cbv zeta.
  assert (Hup : forall st1, player st1 = player st ->
    (Mix.currentLevelIdx (player st) >? 0) = true ->
    fst (isLevelBanned (Mix.currentLevelIdx (player st) - 1) now' (player st1))
    <> None).
  { intros st1 -> Hpos. apply Z.gtb_lt in Hpos.
    apply isLevelBanned_defined. unfold level_defined.
    apply andb_true_intro. split; [apply Z.leb_le; lia|].
    apply bool_decide_eq_true, lookup_lt_is_Some. lia. }
  assert (Hinr : forall (g : bool) st1, player st1 = player st ->
    is_Some
      (if Mix.currentLevelIdx (player st) >? 0
       then
        let '(res, p1) := isLevelBanned (Mix.currentLevelIdx (player st) - 1) now'
                            (player st1) in
        match res with
        | None => None
        | Some true => Some (set_stable 0 (set_player p1 st1))
        | Some false =>
            if g
            then
             if stableCount (set_stable (stableCount (set_player p1 st1) + 1)
                               (set_player p1 st1)) >=? STABLE_DURATION
             then Some (set_stable 0
                    (set_player (switch_to (Mix.currentLevelIdx (player st) - 1) p1)
                      (set_stable (stableCount (set_player p1 st1) + 1)
                         (set_player p1 st1))))
             else Some (set_stable (stableCount (set_player p1 st1) + 1)
                          (set_player p1 st1))
            else Some (set_stable 0 (set_player p1 st1))
        end
       else Some st1)).
  { intros g st1 Hp.
    destruct (Mix.currentLevelIdx (player st) >? 0) eqn:Hpos; [|eauto].
    pose proof (Hup st1 Hp eq_refl) as Hd.
    destruct (isLevelBanned (Mix.currentLevelIdx (player st) - 1) now' (player st1))
      as [[[]|] p1]; simpl in *; [eauto| |congruence].
    destruct g; [|eauto].
    destruct (stableCount st1 + 1 >=? STABLE_DURATION); eauto. }
  destruct (Mix.currentLevelIdx (player st)
            <? Z.of_nat (Datatypes.length (Mix.levels (player st))) - 1);
    [|apply Hinr; reflexivity].
  match goal with |- context [if ?b || ?c then _ else _] => destruct b, c end;
    simpl orb; cbv iota; eauto;
    try (apply Hinr; reflexivity).
  destruct (badConditionCount (set_bad (badConditionCount st + 1) st)
            >=? DOWNGRADE_PERSISTENCE); [eauto|apply Hinr; reflexivity].
Qed.

End MixAbr.

(* ===================================================================== *)
(** ** mmxplayer/whep/reader.js : reservePayloadType *)
(* ===================================================================== *)

Module ReaderPayloadType.

(** [i.toString()] of an integer. *)
Definition toString (i : Z) : string := pretty i.

(** [payloadTypes.includes(x)] on an array of strings. *)
Definition includes (x : string) (payloadTypes : list string) : bool :=
  bool_decide (x ∈ payloadTypes).

Definition valid (i : Z) : bool := (i <=? 63) || (i >=? 96).

(** The loop of #reservePayloadType from [i] on, with [n] rounds to go. *)
Fixpoint reserve_from (n : nat) (i : Z) (payloadTypes : list string)
  : option (string * list string) :=
  match n with
  | O => None
  | S n =>
      if valid i && negb (includes (toString i) payloadTypes)
      then let pl := toString i in Some (pl, payloadTypes ++ [pl])
      else reserve_from n (i + 1) payloadTypes
  end.

(** #reservePayloadType(payloadTypes): the string returned and the array
    after the push; [None] is the Error thrown after i = 127. *)
Definition reservePayloadType (payloadTypes : list string)
  : option (string * list string) :=
  reserve_from 98 30 payloadTypes.

(* --------------------------------------------------------------------- *)

Lemma reserve_from_spec n : forall i pts,
  match reserve_from n i pts with
  | Some (pl, pts') =>
      exists k, (i <= k < i + Z.of_nat n) /\ valid k = true /\ pl = toString k
                /\ (pl ∉ pts) /\ pts' = pts ++ [pl]
                /\ (forall j, i <= j < k -> valid j = true -> toString j ∈ pts)
  | None => forall j, i <= j < i + Z.of_nat n -> valid j = true -> toString j ∈ pts
  end.
Proof.
  induction n as [|n IH]; intros i pts; simpl reserve_from.
  - intros j Hj. lia.
  - destruct (valid i) eqn:Hv; simpl andb.
    + unfold includes. destruct (decide (toString i ∈ pts)) as [Hin|Hnin].
      * rewrite bool_decide_eq_true_2 by exact Hin. simpl negb. cbv iota.
        specialize (IH (i + 1) pts).
        destruct (reserve_from n (i + 1) pts) as [[pl pts']|].
        -- destruct IH as (k & Hk & Hvk & Hpl & Hni & Hp & Hl).
           exists k. repeat split; auto; try lia.
           intros j Hj Hvj. destruct (Z.eq_dec j i) as [->|]; [exact Hin|].
           apply Hl; [lia|exact Hvj].
        -- intros j Hj Hvj. destruct (Z.eq_dec j i) as [->|]; [exact Hin|].
           apply IH; [lia|exact Hvj].
      * rewrite bool_decide_eq_false_2 by exact Hnin. simpl negb. cbv iota zeta.
        exists i. repeat split; auto; lia.
    + specialize (IH (i + 1) pts).
      destruct (reserve_from n (i + 1) pts) as [[pl pts']|].
      * destruct IH as (k & Hk & Hvk & Hpl & Hni & Hp & Hl).
        exists k. repeat split; auto; try lia.
        intros j Hj Hvj. destruct (Z.eq_dec j i) as [->|]; [congruence|].
        apply Hl; [lia|exact Hvj].
      * intros j Hj Hvj. destruct (Z.eq_dec j i) as [->|]; [congruence|].
        apply IH; [lia|exact Hvj].
Qed.

Lemma valid_range k : valid k = true <-> k <= 63 \/ 96 <= k.
Proof.
  unfold valid. destruct (Z.leb_spec k 63), (Z.geb_spec k 96); simpl;
    split; intros; try discriminate; try reflexivity; lia.
Qed.

Lemma reservePayloadType_cases (payloadTypes : list string) :
  match reservePayloadType payloadTypes with
  | Some (pl, pts') =>
      exists k, (30 <= k <= 63 \/ 96 <= k <= 127) /\ pl = toString k
                /\ (pl ∉ payloadTypes) /\ pts' = payloadTypes ++ [pl]
                /\ (forall j, 30 <= j < k -> j <= 63 \/ 96 <= j ->
                      toString j ∈ payloadTypes)
  | None =>
      forall j, 30 <= j <= 63 \/ 96 <= j <= 127 -> toString j ∈ payloadTypes
  end.
Proof.
  unfold reservePayloadType.
  pose proof (reserve_from_spec 98 30 payloadTypes) as H.
  destruct (reserve_from 98 30 payloadTypes) as [[pl pts']|].
  - destruct H as (k & Hk & Hv & Hpl & Hni & Hp & Hl).
    exists k. apply valid_range in Hv.
    split; [lia|]. repeat split; auto.
    intros j Hj Hvj. apply Hl; [lia|]. now apply valid_range.
  - intros j Hj. apply H; [lia|]. apply valid_range. lia.
Qed.

(** X25. reservePayloadType returns the decimal string of the smallest number
    in 30..63 or 96..127 whose string is not in the array, and pushes it at
    the end of the array; it throws exactly when the strings of all these
    numbers are in the array. *)
Theorem reservePayloadType_least_free (payloadTypes : list string) :
  match reservePayloadType payloadTypes with
  | Some (pl, pts') =>
      exists k, (30 <= k <= 63 \/ 96 <= k <= 127) /\ pl = toString k
                /\ (pl ∉ payloadTypes) /\ pts' = payloadTypes ++ [pl]
                /\ (forall j, 30 <= j < k -> j <= 63 \/ 96 <= j ->
                      toString j ∈ payloadTypes)
  | None =>
      forall j, 30 <= j <= 63 \/ 96 <= j <= 127 -> toString j ∈ payloadTypes
  end.
Proof. exact (reservePayloadType_cases payloadTypes). Qed.

(** X26. Two reservations in a row never give the same payload type: the
    second result is the string of a larger number, neither was in the array
    before, and the array has grown by the two results, in order. *)
Theorem reservePayloadType_never_repeats
        (pts pts1 pts2 : list string) (a b : string) :
  reservePayloadType pts = Some (a, pts1) ->
  reservePayloadType pts1 = Some (b, pts2) ->
  a <> b /\ (a ∉ pts) /\ (b ∉ pts) /\ pts2 = pts ++ [a; b]
  /\ exists i j, a = toString i /\ b = toString j /\ i < j.
Proof.
  intros Ha Hb.
  pose proof (reservePayloadType_cases pts) as H1. rewrite Ha in H1.
  pose proof (reservePayloadType_cases pts1) as H2. rewrite Hb in H2.
  destruct H1 as (i & Hi & -> & Hna & -> & Hli).
  destruct H2 as (j & Hj & -> & Hnb & -> & Hlj).
  assert (toString i <> toString j) as Hne.
  { intros E. apply Hnb. rewrite <- E. apply elem_of_app. right.
    apply list_elem_of_here. }
  split; [exact Hne|]. split; [exact Hna|].
  split; [intros Hin; apply Hnb, elem_of_app; now left|].
  split; [now rewrite <- app_assoc|].
  exists i, j. split; [reflexivity|]. split; [reflexivity|].
  destruct (Z.lt_trichotomy i j) as [Hlt|[->|Hgt]]; [exact Hlt|congruence|].
  exfalso. apply Hnb, elem_of_app. left. apply Hli; lia.
Qed.

Lemma reservePayloadType_never_repeats_witness :
  exists a b pts1 pts2,
    reservePayloadType ["96"; "97"; "30"]%string = Some (a, pts1)
    /\ reservePayloadType pts1 = Some (b, pts2) /\ a <> b.
Proof.
  destruct (reservePayloadType ["96"; "97"; "30"]%string) as [[a pts1]|] eqn:E1;
    [|vm_compute in E1; discriminate E1].
  destruct (reservePayloadType pts1) as [[b pts2]|] eqn:E2;
    [|vm_compute in E1; injection E1 as <- <-; vm_compute in E2; discriminate E2].
  exists a, b, pts1, pts2. split; [reflexivity|]. split; [exact E2|].
  exact (proj1 (reservePayloadType_never_repeats _ _ _ _ _ E1 E2)).
Defined.

End ReaderPayloadType.

(* ===================================================================== *)
(** ** mmxplayer/pk/reader.js, mmxplayer/whep/reader.js : the offer *)
(* ===================================================================== *)

Module ReaderOffer.
Import ReaderPayloadType.

Definition CR : ascii := "013"%char.
Definition LF : ascii := "010"%char.
Definition CRLF : string := String CR (String LF EmptyString).

(** [s.split('\r\n')]: [cur] is the piece being read. *)
Fixpoint split_from (cur : string) (s : string) : list string :=
  match s with
  | EmptyString => [cur]
  | String c s' =>
      match s' with
      | String d s'' =>
          if Ascii.eqb c CR && Ascii.eqb d LF
          then cur :: split_from EmptyString s''
          else split_from (cur +:+ String c EmptyString) s'
      | EmptyString => split_from (cur +:+ String c EmptyString) s'
      end
  end.

Definition split_crlf (s : string) : list string := split_from EmptyString s.

(** [lines.join('\r\n')] *)
Fixpoint join_crlf (lines : list string) : string :=
  match lines with
  | [] => EmptyString
  | [l] => l
  | l :: ls => l +:+ CRLF +:+ join_crlf ls
  end.

(** [line.startsWith(p)] and [line.slice(n)] *)
Definition startsWith (line p : string) : bool := TranscoderSource.HasPrefix line p.
Definition slice (n : nat) (line : string) : string :=
  TranscoderSource.slice_from n line.

Record OfferData : Type := mkOffer {
  iceUfrag : string;
  icePwd : string;
  medias : list string
}.

(** One round of the loop of #parseOffer. *)
Definition parse_line (ret : OfferData) (line : string) : OfferData :=
  if startsWith line "m="
  then mkOffer (iceUfrag ret) (icePwd ret) (medias ret ++ [slice 2 line])
  else if String.eqb (iceUfrag ret) "" && startsWith line "a=ice-ufrag:"
  then mkOffer (slice 12 line) (icePwd ret) (medias ret)
  else if String.eqb (icePwd ret) "" && startsWith line "a=ice-pwd:"
  then mkOffer (iceUfrag ret) (slice 10 line) (medias ret)
  else ret.

(** #parseOffer(sdp) *)
Definition parseOffer (sdp : string) : OfferData :=
  fold_left parse_line (split_crlf sdp) (mkOffer "" "" []).

(** The index of the first line that starts with [m=video]. *)
Fixpoint videoIndex (lines : list string) : option nat :=
  match lines with
  | [] => None
  | l :: ls => if startsWith l "m=video" then Some O
               else option_map S (videoIndex ls)
  end.

(** [lines.splice(i, 0, x)] for [i <= lines.length] *)
Definition splice_in (i : nat) (x : string) (lines : list string) : list string :=
  take i lines ++ x :: drop i lines.

(** #limitBandwidth(sdp, bitrate) for a bitrate that is an integer Number,
    as the level tables have it: it is falsy when 0, parseInt gives it back,
    and the template prints it in decimal. *)
Definition limitBandwidth (sdp : string) (bitrate : Z) : string :=
  if (bitrate =? 0) || (bitrate <=? 0) then sdp
  else
    let lines := split_crlf sdp in
    match videoIndex lines with
    | Some i => join_crlf (splice_in (i + 1) ("b=AS:" +:+ toString bitrate) lines)
    | None => join_crlf lines
    end.

(** [l.toLowerCase()]: on the letters A-Z; the prefixes it is compared
    with are ASCII, and no other character becomes one of their letters. *)
Definition lower (c : ascii) : ascii :=
  if Ascii.leb "A" c && Ascii.leb c "Z"
  then ascii_of_nat (nat_of_ascii c + 32)
  else c.

Fixpoint toLowerCase (s : string) : string :=
  match s with
  | EmptyString => EmptyString
  | String c s' => String (lower c) (toLowerCase s')
  end.

(** The filter of #setupPeerConnection keeps a line when this is false. *)
Definition simulcast_line (l : string) : bool :=
  startsWith (toLowerCase l) "a=rid:" || startsWith (toLowerCase l) "a=simulcast:".

(** The callback that #setupPeerConnection runs on the offer: the SDP that is
    set as local description and posted, and [this.offerData]. *)
Definition setupPeerConnection_offer (offer_sdp : string) (maxBitrate : Z)
  : string * OfferData :=
  let sdp := if negb (maxBitrate =? 0) then limitBandwidth offer_sdp maxBitrate
             else offer_sdp in
  let lines := List.filter (fun l => negb (simulcast_line l)) (split_crlf sdp) in
  let sdp := join_crlf lines in
  (sdp, parseOffer sdp).

(* --------------------------------------------------------------------- *)

Fixpoint has_crlf (s : string) : bool :=
  match s with
  | EmptyString => false
  | String c s' =>
      match s' with
      | String d _ => (Ascii.eqb c CR && Ascii.eqb d LF) || has_crlf s'
      | EmptyString => false
      end
  end.

Lemma append_empty_r (s : string) : s +:+ EmptyString = s.
Proof.
  induction s as [|a s IH]; [reflexivity|].
  rewrite TranscoderSource.append_cons. now rewrite IH.
Qed.

Lemma append_assoc' (a b c : string) : (a +:+ b) +:+ c = a +:+ (b +:+ c).
Proof.
  induction a as [|x a IH]; [reflexivity|].
  rewrite !TranscoderSource.append_cons. now rewrite IH.
Qed.

(** Reading a line that holds no separator, up to the separator. *)
Lemma split_from_line l : forall cur rest,
  has_crlf l = false ->
  split_from cur (l +:+ CRLF +:+ rest) = (cur +:+ l) :: split_from EmptyString rest.
Proof.
  induction l as [|c l IH]; intros cur rest Hl.
  - rewrite TranscoderSource.append_nil, append_empty_r. reflexivity.
  - rewrite TranscoderSource.append_cons.
    destruct l as [|d l'].
    + rewrite TranscoderSource.append_nil.
      change (CRLF +:+ rest) with (String CR (String LF rest)).
      change (split_from cur (String c (String CR (String LF rest))))
        with (if Ascii.eqb c CR && Ascii.eqb CR LF
              then cur :: split_from EmptyString (String LF rest)
              else split_from (cur +:+ String c EmptyString)
                              (String CR (String LF rest))).
      change (Ascii.eqb CR LF) with false. rewrite andb_false_r.
      specialize (IH (cur +:+ String c EmptyString) rest eq_refl).
      rewrite TranscoderSource.append_nil, append_empty_r in IH. exact IH.
    + rewrite TranscoderSource.append_cons.
      change (has_crlf (String c (String d l')))
        with ((Ascii.eqb c CR && Ascii.eqb d LF) || has_crlf (String d l')) in Hl.
      apply orb_false_elim in Hl as [Hcd Hl].
      change (split_from cur (String c (String d (l' +:+ CRLF +:+ rest))))
        with (if Ascii.eqb c CR && Ascii.eqb d LF
              then cur :: split_from EmptyString (l' +:+ CRLF +:+ rest)
              else split_from (cur +:+ String c EmptyString)
                              (String d (l' +:+ CRLF +:+ rest))).
      rewrite Hcd.
      rewrite <- (TranscoderSource.append_cons d l' (CRLF +:+ rest)).
      rewrite (IH _ rest Hl). now rewrite append_assoc'.
Qed.

Lemma split_from_last l : forall cur,
  has_crlf l = false -> split_from cur l = [cur +:+ l].
Proof.
  induction l as [|c l IH]; intros cur Hl.
  - now rewrite append_empty_r.
  - destruct l as [|d l'].
    + reflexivity.
    + change (has_crlf (String c (String d l')))
        with ((Ascii.eqb c CR && Ascii.eqb d LF) || has_crlf (String d l')) in Hl.
      apply orb_false_elim in Hl as [Hcd Hl].
      change (split_from cur (String c (String d l')))
        with (if Ascii.eqb c CR && Ascii.eqb d LF
              then cur :: split_from EmptyString l'
              else split_from (cur +:+ String c EmptyString) (String d l')).
      rewrite Hcd, (IH _ Hl). now rewrite append_assoc'.
Qed.

(** Splitting what was joined gives the lines back. *)
Lemma split_join (lines : list string) :
  lines <> [] -> Forall (fun l => has_crlf l = false) lines ->
  split_crlf (join_crlf lines) = lines.
Proof.
  unfold split_crlf. induction lines as [|l ls IH]; intros Hne Hall; [congruence|].
  apply Forall_cons in Hall as [Hl Hls].
  destruct ls as [|l2 ls].
  - simpl. now rewrite split_from_last.
  - change (join_crlf (l :: l2 :: ls)) with (l +:+ CRLF +:+ join_crlf (l2 :: ls)).
    rewrite split_from_line by exact Hl.
    rewrite IH by (auto; congruence). reflexivity.
Qed.


Lemma has_crlf_app_l (x y : string) :
  has_crlf (x +:+ y) = false -> has_crlf x = false.
Proof.
  induction x as [|c x IH]; [reflexivity|].
  destruct x as [|d x']; [reflexivity|].
  rewrite !TranscoderSource.append_cons.
  change (has_crlf (String c (String d (x' +:+ y))))
    with ((Ascii.eqb c CR && Ascii.eqb d LF) || has_crlf (String d (x' +:+ y))).
  change (has_crlf (String c (String d x')))
    with ((Ascii.eqb c CR && Ascii.eqb d LF) || has_crlf (String d x')).
  intros H. apply orb_false_elim in H as [H1 H2]. rewrite H1, orb_false_l.
  apply IH. now rewrite TranscoderSource.append_cons.
Qed.

Lemma has_crlf_snoc (x : string) (c d : ascii) :
  has_crlf (x +:+ String c EmptyString) = false ->
  Ascii.eqb c CR && Ascii.eqb d LF = false ->
  has_crlf (x +:+ String c (String d EmptyString)) = false.
Proof.
  intros Hx Hcd. induction x as [|a x IH].
  - rewrite TranscoderSource.append_nil.
    change (has_crlf (String c (String d EmptyString)))
      with ((Ascii.eqb c CR && Ascii.eqb d LF) || false).
    now rewrite Hcd.
  - rewrite TranscoderSource.append_cons in *.
    destruct x as [|b x'].
    + rewrite TranscoderSource.append_nil in *.
      change (has_crlf (String a (String c EmptyString)))
        with ((Ascii.eqb a CR && Ascii.eqb c LF) || false) in Hx.
      change (has_crlf (String a (String c (String d EmptyString))))
        with ((Ascii.eqb a CR && Ascii.eqb c LF)
              || ((Ascii.eqb c CR && Ascii.eqb d LF) || false)).
      apply orb_false_elim in Hx as [-> _]. now rewrite Hcd.
    + rewrite TranscoderSource.append_cons in *.
      change (has_crlf (String a (String b (x' +:+ String c EmptyString))))
        with ((Ascii.eqb a CR && Ascii.eqb b LF)
              || has_crlf (String b (x' +:+ String c EmptyString))) in Hx.
      change (has_crlf (String a (String b (x' +:+ String c (String d EmptyString)))))
        with ((Ascii.eqb a CR && Ascii.eqb b LF)
              || has_crlf (String b (x' +:+ String c (String d EmptyString)))).
      apply orb_false_elim in Hx as [-> Hx]. rewrite orb_false_l.
      rewrite <- TranscoderSource.append_cons. apply IH.
      exact Hx.
Qed.

Definition head1 (s : string) : string :=
  match s with String c _ => String c EmptyString | EmptyString => EmptyString end.

(** What split gives: pieces without a separator, at least one, and joined
    they are the text again. *)
Lemma split_from_spec (n : nat) : forall s cur,
  (String.length s <= n)%nat ->
  has_crlf (cur +:+ head1 s) = false ->
  Forall (fun l => has_crlf l = false) (split_from cur s)
  /\ split_from cur s <> []
  /\ join_crlf (split_from cur s) = cur +:+ s.
Proof.
  induction n as [n IH] using lt_wf_ind. intros s cur Hn Hc.
  destruct s as [|c s'].
  - simpl in *. rewrite append_empty_r in *. repeat split; auto.
  - destruct s' as [|d s''].
    + simpl in *. repeat split; auto.
    + change (split_from cur (String c (String d s'')))
        with (if Ascii.eqb c CR && Ascii.eqb d LF
              then cur :: split_from EmptyString s''
              else split_from (cur +:+ String c EmptyString) (String d s'')).
      simpl in Hn. simpl head1 in Hc.
      destruct (Ascii.eqb c CR && Ascii.eqb d LF) eqn:Hcd.
      * destruct (IH (String.length s'') ltac:(lia) s'' EmptyString (le_n _))
          as (F & NE & J).
        { rewrite TranscoderSource.append_nil. now destruct s''. }
        split; [constructor; [now apply has_crlf_app_l in Hc | exact F]|].
        split; [discriminate|].
        destruct (split_from EmptyString s'') as [|l ls] eqn:E; [congruence|].
        change (join_crlf (cur :: l :: ls))
          with (cur +:+ CRLF +:+ join_crlf (l :: ls)).
        rewrite J, TranscoderSource.append_nil.
        apply andb_prop in Hcd as [H1 H2].
        apply Ascii.eqb_eq in H1, H2. now subst c d.
      * destruct (IH (S (String.length s'')) ltac:(lia) (String d s'')
                     (cur +:+ String c EmptyString) (le_n _))
          as (F & NE & J).
        { simpl head1. rewrite append_assoc', TranscoderSource.append_cons,
            TranscoderSource.append_nil.
          now apply has_crlf_snoc. }
        split; [exact F|]. split; [exact NE|].
        rewrite J, append_assoc'. reflexivity.
Qed.

Lemma split_crlf_spec (s : string) :
  Forall (fun l => has_crlf l = false) (split_crlf s)
  /\ split_crlf s <> []
  /\ join_crlf (split_crlf s) = s.
Proof.
  unfold split_crlf.
  destruct (split_from_spec (String.length s) s EmptyString (le_n _))
    as (F & NE & J); [now destruct s|].
  now rewrite TranscoderSource.append_nil in J.
Qed.

(** A text without line feed has no separator. *)
Fixpoint lacks (c : ascii) (s : string) : bool :=
  match s with
  | EmptyString => true
  | String a s' => negb (Ascii.eqb a c) && lacks c s'
  end.

Lemma lacks_has_crlf s : lacks LF s = true -> has_crlf s = false.
Proof.
  induction s as [|c s IH]; [reflexivity|].
  intros H. simpl in H. apply andb_prop in H as [_ H].
  destruct s as [|d s']; [reflexivity|].
  change (has_crlf (String c (String d s')))
    with ((Ascii.eqb c CR && Ascii.eqb d LF) || has_crlf (String d s')).
  rewrite (IH H), orb_false_r.
  simpl in H. apply andb_prop in H as [H _].
  apply negb_true_iff in H. rewrite H. apply andb_false_r.
Qed.

Lemma lacks_app c (x y : string) :
  lacks c x = true -> lacks c y = true -> lacks c (x +:+ y) = true.
Proof.
  intros Hx Hy. induction x as [|a x IH]; [exact Hy|].
  rewrite TranscoderSource.append_cons. simpl in *.
  apply andb_prop in Hx as [-> Hx]. simpl. auto.
Qed.

Lemma pretty_N_char_lacks (x : N) (c : ascii) :
  c = LF -> Ascii.eqb (pretty_N_char x) c = false.
Proof.
  intros ->. unfold pretty_N_char.
  repeat (match goal with |- context [match ?p with _ => _ end] => destruct p end;
          try reflexivity).
Qed.

Lemma pretty_N_go_lacks (x : N) : forall s,
  lacks LF s = true -> lacks LF (pretty_N_go x s) = true.
Proof.
  induction x as [x IH] using (well_founded_induction N.lt_wf_0). intros s Hs.
  destruct (N.eq_dec x 0) as [->|Hx]; [now rewrite pretty_N_go_0|].
  rewrite pretty_N_go_step by lia.
  apply IH; [apply N.div_lt; lia|].
  simpl. rewrite pretty_N_char_lacks by reflexivity. exact Hs.
Qed.

Lemma toString_lacks (z : Z) : lacks LF (toString z) = true.
Proof.
  unfold toString, pretty, pretty_Z.
  destruct z as [|p|p]; [reflexivity| |].
  - unfold pretty, pretty_positive, pretty, pretty_N.
    destruct (decide (N.pos p = 0%N)); [reflexivity|].
    now apply pretty_N_go_lacks.
  - change ("-" +:+ pretty p) with (String "-" (pretty p)). simpl.
    unfold pretty, pretty_positive, pretty, pretty_N.
    destruct (decide (N.pos p = 0%N)); [reflexivity|].
    now apply pretty_N_go_lacks.
Qed.

(** A line that is neither a media line nor an ICE attribute leaves the
    parse as it is. *)
Lemma parse_line_bandwidth ret t : parse_line ret ("b=AS:" +:+ t) = ret.
Proof.
  unfold parse_line, startsWith.
  change ("b=AS:" +:+ t)
    with (String "b" (String "=" (String "A" (String "S" (String ":" t))))).
  simpl. now rewrite andb_false_r, andb_false_r.
Qed.

Lemma fold_splice_in (i : nat) (x : string) (lines : list string) init :
  (forall ret, parse_line ret x = ret) ->
  fold_left parse_line (splice_in i x lines) init = fold_left parse_line lines init.
Proof.
  intros Hx. unfold splice_in. rewrite fold_left_app. simpl. rewrite Hx.
  rewrite <- fold_left_app. now rewrite take_drop.
Qed.

Lemma videoIndex_Some lines i :
  videoIndex lines = Some i ->
  (exists l, lines !! i = Some l /\ startsWith l "m=video" = true)
  /\ (forall j l, (j < i)%nat -> lines !! j = Some l ->
        startsWith l "m=video" = false).
Proof.
  revert i. induction lines as [|l ls IH]; intros i; cbn [videoIndex];
    [discriminate|].
  destruct (startsWith l "m=video") eqn:E.
  - intros [= <-]. split; [exists l; auto|]. intros j l' Hj. lia.
  - destruct (videoIndex ls) as [k|]; [|discriminate]. cbn [option_map].
    intros [= <-].
    destruct (IH k eq_refl) as [(l' & Hl' & Hs) Hb].
    split; [exists l'; auto|].
    intros [|j] l2 Hj; cbn [lookup list_lookup]; [intros [= <-]; exact E|].
    apply Hb. lia.
Qed.

(** X27. limitBandwidth gives the SDP back when the bitrate is not positive or
    no line starts with m=video; otherwise its result is the text with one
    line, b=AS: followed by the bitrate, inserted right after the first line
    that starts with m=video, and every other line unchanged and in place.
    In every case parseOffer reads the same ICE credentials and the same
    media list from the result as from the SDP. *)
Theorem limitBandwidth_inserts_one_line (sdp : string) (bitrate : Z) :
  let lines := split_crlf sdp in
  let out := limitBandwidth sdp bitrate in
  (bitrate <= 0 \/ videoIndex lines = None -> out = sdp)
  /\ (forall i, 0 < bitrate -> videoIndex lines = Some i ->
        split_crlf out
        = take (i + 1) lines ++ ("b=AS:" +:+ toString bitrate) :: drop (i + 1) lines
        /\ (exists l, lines !! i = Some l /\ startsWith l "m=video" = true)
        /\ (forall j l, (j < i)%nat -> lines !! j = Some l ->
              startsWith l "m=video" = false))
  /\ parseOffer out = parseOffer sdp.
Proof.
  intros lines out. subst out. unfold limitBandwidth. fold lines.
  destruct (split_crlf_spec sdp) as (F & NE & J). fold lines in F, NE, J.
  assert (has_crlf ("b=AS:" +:+ toString bitrate) = false) as Hb.
  { apply lacks_has_crlf, lacks_app; [reflexivity|apply toString_lacks]. }
  assert (forall i, split_crlf (join_crlf (splice_in i ("b=AS:" +:+ toString bitrate)
                                             lines))
                    = splice_in i ("b=AS:" +:+ toString bitrate) lines) as Hsj.
  { intros i. apply split_join.
    - unfold splice_in. destruct (take i lines); discriminate.
    - unfold splice_in. apply Forall_app. split.
      + rewrite <- (take_drop i lines) in F. now apply Forall_app in F.
      + constructor; [exact Hb|].
        rewrite <- (take_drop i lines) in F. now apply Forall_app in F. }
  destruct (Z.eqb_spec bitrate 0) as [->|Hnz]; simpl orb.
  { split; [reflexivity|]. split; [intros i Hpos; lia|reflexivity]. }
  destruct (Z.leb_spec bitrate 0) as [Hle|Hpos].
  { split; [reflexivity|]. split; [intros i Hp; lia|reflexivity]. }
  destruct (videoIndex lines) as [i|] eqn:Hv.
  - split; [intros [H|H]; [lia|discriminate]|].
    split.
    + intros i' _ [= <-]. split; [apply Hsj|]. now apply videoIndex_Some.
    + unfold parseOffer. rewrite Hsj. fold lines.
      apply fold_splice_in. intros ret. apply parse_line_bandwidth.
  - rewrite J. split; [reflexivity|]. split; [intros i _ [=]|reflexivity].
Qed.


Lemma startsWith_3 l a b c rest :
  startsWith l (String a (String b (String c rest))) = true ->
  exists l', l = String a (String b (String c l')).
Proof.
  unfold startsWith. destruct l as [|x [|y [|z l']]]; simpl; try discriminate.
  - now rewrite andb_false_r.
  - now rewrite !andb_false_r.
  - intros H. apply andb_prop in H as [H1 H]. apply andb_prop in H as [H2 H].
    apply andb_prop in H as [H3 _].
    apply Ascii.eqb_eq in H1, H2, H3. subst. eauto.
Qed.

Lemma startsWith_2 l a b :
  startsWith l (String a (String b EmptyString)) = true ->
  exists l', l = String a (String b l').
Proof.
  unfold startsWith. destruct l as [|x [|y l']]; simpl; try discriminate.
  - now rewrite andb_false_r.
  - intros H. apply andb_prop in H as [H1 H]. apply andb_prop in H as [H2 _].
    apply Ascii.eqb_eq in H1, H2. subst. eauto.
Qed.

(** A line that the filter removes leaves the parse as it is. *)
Lemma parse_line_simulcast ret l : simulcast_line l = true -> parse_line ret l = ret.
Proof.
  intros Hl. unfold parse_line.
  destruct (startsWith l "m=") eqn:E1.
  { apply startsWith_2 in E1 as [l' ->]. discriminate Hl. }
  destruct (startsWith l "a=ice-ufrag:") eqn:E2.
  { apply startsWith_3 in E2 as [l' ->]. discriminate Hl. }
  destruct (startsWith l "a=ice-pwd:") eqn:E3.
  { apply startsWith_3 in E3 as [l' ->]. discriminate Hl. }
  now rewrite !andb_false_r.
Qed.

Lemma fold_filter (lines : list string) init :
  fold_left parse_line (List.filter (fun l => negb (simulcast_line l)) lines) init
  = fold_left parse_line lines init.
Proof.
  revert init. induction lines as [|l ls IH]; intros init; [reflexivity|].
  cbn [List.filter fold_left].
  destruct (simulcast_line l) eqn:E; cbn [negb].
  - now rewrite IH, parse_line_simulcast.
  - cbn [fold_left]. apply IH.
Qed.

Lemma Forall_filter_keep {A} (P : A -> Prop) f (l : list A) :
  Forall P l -> Forall P (List.filter f l).
Proof.
  induction 1 as [|x l Hx Hl IH]; simpl; [constructor|].
  destruct (f x); [constructor|]; auto.
Qed.

(** X28. The offer that setupPeerConnection sets and posts (bandwidth line
    added, simulcast attributes removed) has no line starting with a=rid: or
    a=simulcast: (in any case of letters), and the offer data kept for the
    trickled candidates are those of the offer the browser created. *)
Theorem setupPeerConnection_offer_data (offer_sdp : string) (maxBitrate : Z) :
  let '(sdp, od) := setupPeerConnection_offer offer_sdp maxBitrate in
  od = parseOffer offer_sdp
  /\ Forall (fun l => simulcast_line l = false) (split_crlf sdp).
Proof.
  unfold setupPeerConnection_offer.
  set (sdp1 := if negb (maxBitrate =? 0) then limitBandwidth offer_sdp maxBitrate
               else offer_sdp).
  assert (parseOffer sdp1 = parseOffer offer_sdp) as Hp1.
  { subst sdp1. destruct (maxBitrate =? 0); simpl; [reflexivity|].
    unfold parseOffer, limitBandwidth.
    destruct ((maxBitrate =? 0) || (maxBitrate <=? 0)); [reflexivity|].
    destruct (split_crlf_spec offer_sdp) as (F & NE & J).
    destruct (videoIndex (split_crlf offer_sdp)) as [i|]; [|now rewrite J].
    rewrite split_join.
    - apply fold_splice_in. intros ret. apply parse_line_bandwidth.
    - unfold splice_in. destruct (take (i + 1) (split_crlf offer_sdp)); discriminate.
    - unfold splice_in. rewrite <- (take_drop (i + 1) (split_crlf offer_sdp)) in F.
      apply Forall_app in F as [F1 F2]. apply Forall_app. split; [exact F1|].
      constructor; [|exact F2].
      apply lacks_has_crlf, lacks_app; [reflexivity|apply toString_lacks]. }
  destruct (split_crlf_spec sdp1) as (F & NE & J).
  pose proof (fold_filter (split_crlf sdp1) (mkOffer "" "" [])) as Hf.
  pose proof (Forall_filter_keep _ (fun l => negb (simulcast_line l)) _ F) as Fk.
  assert (Forall (fun l => simulcast_line l = false)
            (List.filter (fun l => negb (simulcast_line l)) (split_crlf sdp1))) as Hk.
  { apply List.Forall_forall. intros l Hl.
    apply List.filter_In in Hl as [_ Hl]. now apply negb_true_iff in Hl. }
  cbv zeta.
  destruct (List.filter (fun l => negb (simulcast_line l)) (split_crlf sdp1))
    as [|k ks] eqn:Ek.
  - (* every line was removed: the text is empty *)
    split; [|repeat constructor].
    rewrite <- Hp1. unfold parseOffer at 2. rewrite <- Hf. reflexivity.
  - assert (split_crlf (join_crlf (k :: ks)) = k :: ks) as Hs
      by (apply split_join; [discriminate|exact Fk]).
    split; [|now rewrite Hs].
    rewrite <- Hp1. unfold parseOffer. now rewrite Hs, Hf.
Qed.

End ReaderOffer.
